(** * Prettier-SQL: the token-driven formatting engine (core/Formatter.ts)

    A shallow embedding of [Formatter] and of [core/token.ts], and the
    properties of the design document checked against it.

    JavaScript strings are sequences of UTF-16 code units; they are modelled
    as lists of code units, so that [length] is JavaScript's [.length] and
    the zero-width space U+200B is one element. *)

From Stdlib Require Import Strings.String Strings.Ascii.
From Stdlib Require Import List NArith ZArith Bool Lia.
Import ListNotations.

Set Implicit Arguments.
Local Open Scope Z_scope.

(* ================================================================== *)
(** ** JavaScript strings *)
(* ================================================================== *)

Module JS.

Definition char16 := N.
Definition jsstring := list char16.

(** An ASCII literal as a JavaScript string. *)
Definition lit (s : string) : jsstring :=
  map N_of_ascii (list_ascii_of_string s).

Definition LF : char16 := 10%N.
Definition TAB : char16 := 9%N.
Definition SPACE : char16 := 32%N.
Definition COMMA : char16 := 44%N.

Fixpoint eqs (a b : jsstring) : bool :=
  match a, b with
  | [], [] => true
  | x :: a', y :: b' => N.eqb x y && eqs a' b'
  | _, _ => false
  end.

Definition len (s : jsstring) : Z := Z.of_nat (length s).

(** The regular expression class [\s]. *)
Definition is_space (c : char16) : bool :=
  ((9 <=? c) && (c <=? 13) || (c =? 32) || (c =? 160) || (c =? 5760)
   || (8192 <=? c) && (c <=? 8202) || (c =? 8232) || (c =? 8233)
   || (c =? 8239) || (c =? 8287) || (c =? 12288) || (c =? 65279))%N.

(** The class [[ \t]]. *)
Definition is_blank (c : char16) : bool := ((c =? 32) || (c =? 9))%N.

Fixpoint dropWhile (p : char16 -> bool) (s : jsstring) : jsstring :=
  match s with
  | [] => []
  | c :: s' => if p c then dropWhile p s' else s
  end.

Fixpoint takeWhile (p : char16 -> bool) (s : jsstring) : jsstring :=
  match s with
  | [] => []
  | c :: s' => if p c then c :: takeWhile p s' else []
  end.

Definition dropWhileEnd (p : char16 -> bool) (s : jsstring) : jsstring :=
  rev (dropWhile p (rev s)).

(** [String.prototype.trimEnd]: white space and line terminators, the same
    code units as [\s]. *)
Definition trimEnd (s : jsstring) : jsstring := dropWhileEnd is_space s.

(** [s.replace(/^\n*/u, '')]. *)
Definition stripLeadingNewlines (s : jsstring) : jsstring :=
  dropWhile (N.eqb LF) s.

Definition endsWith (s suffix : jsstring) : bool :=
  eqs (skipn (length s - length suffix) s) suffix
  && (length suffix <=? length s)%nat.

Fixpoint startsWith (s pre : jsstring) : bool :=
  match pre, s with
  | [], _ => true
  | p :: pre', c :: s' => N.eqb p c && startsWith s' pre'
  | _ :: _, [] => false
  end.

(** [s.includes(sub)]. *)
Fixpoint includes (s sub : jsstring) : bool :=
  startsWith s sub ||
  match s with
  | [] => false
  | _ :: s' => includes s' sub
  end.

(** [s.repeat(n)] for [n >= 0]. *)
Fixpoint repeat_str (s : jsstring) (n : nat) : jsstring :=
  match n with
  | O => []
  | S n' => s ++ repeat_str s n'
  end.

(** [String.prototype.toUpperCase] and [toLowerCase] on the ASCII letters,
    the alphabet of the keyword tables; other code units are kept. *)
Definition upper_char (c : char16) : char16 :=
  if ((97 <=? c) && (c <=? 122))%N then (c - 32)%N else c.
Definition lower_char (c : char16) : char16 :=
  if ((65 <=? c) && (c <=? 90))%N then (c + 32)%N else c.
Definition toUpperCase (s : jsstring) : jsstring := map upper_char s.
Definition toLowerCase (s : jsstring) : jsstring := map lower_char s.

(** Canonicalisation of a code unit under the flags [iu] (simple case
    folding), for the code units that fold to an ASCII letter: the capital
    letters, U+017F (long s) and U+212A (Kelvin sign). *)
Definition fold_iu (c : char16) : char16 :=
  if (c =? 383)%N then 115%N
  else if (c =? 8490)%N then 107%N
  else lower_char c.

(** Canonicalisation under the flag [i] alone: a code unit outside ASCII
    never matches an ASCII one. *)
Definition fold_i (c : char16) : char16 := lower_char c.

Fixpoint eqs_by (f : char16 -> char16) (a b : jsstring) : bool :=
  match a, b with
  | [], [] => true
  | x :: a', y :: b' => N.eqb (f x) (f y) && eqs_by f a' b'
  | _, _ => false
  end.

Fixpoint startsWith_by (f : char16 -> char16) (s pre : jsstring) : bool :=
  match pre, s with
  | [], _ => true
  | p :: pre', c :: s' => N.eqb (f p) (f c) && startsWith_by f s' pre'
  | _ :: _, [] => false
  end.

Fixpoint includes_by (f : char16 -> char16) (s sub : jsstring) : bool :=
  startsWith_by f s sub ||
  match s with
  | [] => false
  | _ :: s' => includes_by f s' sub
  end.

(** [s.split('\n')]: never empty, [''.split('\n')] is [['']]. *)
Fixpoint split_lines (s : jsstring) : list jsstring :=
  match s with
  | [] => [[]]
  | c :: s' =>
      if N.eqb c LF then [] :: split_lines s'
      else match split_lines s' with
           | [] => [[c]]
           | l :: ls => (c :: l) :: ls
           end
  end.

(** [arr.join('\n')] on an array whose holes ([undefined]) print as the
    empty string. *)
Fixpoint join_lines (ls : list (option jsstring)) : jsstring :=
  match ls with
  | [] => []
  | [l] => match l with Some s => s | None => [] end
  | l :: ls' => match l with Some s => s | None => [] end ++ LF :: join_lines ls'
  end.

(** [s.replace(/\s+/gu, ' ')]. *)
Fixpoint equalizeWhitespace_from (in_run : bool) (s : jsstring) : jsstring :=
  match s with
  | [] => []
  | c :: s' =>
      if is_space c
      then if in_run then equalizeWhitespace_from true s'
           else SPACE :: equalizeWhitespace_from true s'
      else c :: equalizeWhitespace_from false s'
  end.

(** The template literal's rendering of an optional string. *)
Definition template (o : option jsstring) : jsstring :=
  match o with
  | Some s => s
  | None => lit "undefined"
  end.

(** Exceptions the modelled code can raise. *)
Inductive JsError := TypeError | RangeError.

Inductive outcome (A : Type) : Type :=
| Ret (a : A)
| Throw (e : JsError).
Arguments Throw {A} e.

Definition bind {A B} (c : outcome A) (k : A -> outcome B) : outcome B :=
  match c with
  | Ret a => k a
  | Throw e => Throw e
  end.

End JS.

Import JS.

Notation "x <- c ;; k" := (bind c (fun x => k))
  (at level 61, c at next level, right associativity).
Notation "' pat <- c ;; k" := (bind c (fun x => match x with pat => k end))
  (at level 61, pat pattern, c at next level, right associativity).

(* ================================================================== *)
(** ** core/token.ts *)
(* ================================================================== *)

Inductive TokenType :=
| WORD | STRING | RESERVED_KEYWORD | RESERVED_LOGICAL_OPERATOR
| RESERVED_DEPENDENT_CLAUSE | RESERVED_BINARY_COMMAND | RESERVED_COMMAND
| OPERATOR | BLOCK_START | BLOCK_END | LINE_COMMENT | BLOCK_COMMENT
| NUMBER | PLACEHOLDER.

Definition TokenType_eqb (a b : TokenType) : bool :=
  match a, b with
  | WORD, WORD | STRING, STRING | RESERVED_KEYWORD, RESERVED_KEYWORD
  | RESERVED_LOGICAL_OPERATOR, RESERVED_LOGICAL_OPERATOR
  | RESERVED_DEPENDENT_CLAUSE, RESERVED_DEPENDENT_CLAUSE
  | RESERVED_BINARY_COMMAND, RESERVED_BINARY_COMMAND
  | RESERVED_COMMAND, RESERVED_COMMAND | OPERATOR, OPERATOR
  | BLOCK_START, BLOCK_START | BLOCK_END, BLOCK_END
  | LINE_COMMENT, LINE_COMMENT | BLOCK_COMMENT, BLOCK_COMMENT
  | NUMBER, NUMBER | PLACEHOLDER, PLACEHOLDER => true
  | _, _ => false
  end.

Record Token := mkToken {
  value : jsstring;
  type : TokenType;
  key : option jsstring;
  whitespaceBefore : option jsstring
}.

(** A token as the tokenizer emits it for a piece of text that had the
    white space [ws] in front of it. *)
Definition tok (ty : TokenType) (ws v : string) : Token :=
  mkToken (lit v) ty None (Some (lit ws)).

Definition ZWS : char16 := 8203%N.

(** The class of a zero-width space or [\s], the [spaces] of [testToken]. *)
Definition is_spaces (c : char16) : bool := N.eqb c ZWS || is_space c.

(** [testToken(compareToken)(token)], [token] possibly [undefined]. The
    pattern is the keyword between two runs of [spaces], under [iu]. *)
Definition testToken (cvalue : string) (ctype : TokenType)
    (token : option Token) : bool :=
  match token with
  | None => false
  | Some t =>
      TokenType_eqb (type t) ctype
      && eqs_by fold_iu (lit cvalue)
           (dropWhileEnd is_spaces (dropWhile is_spaces (value t)))
  end.

Module isToken.
Definition AS := testToken "AS" RESERVED_KEYWORD.
Definition AND := testToken "AND" RESERVED_LOGICAL_OPERATOR.
Definition BEGIN := testToken "BEGIN" RESERVED_COMMAND.
Definition BETWEEN := testToken "BETWEEN" RESERVED_KEYWORD.
Definition BY := testToken "BY" RESERVED_KEYWORD.
Definition CASE := testToken "CASE" BLOCK_START.
Definition DELIMITER := testToken "DELIMITER" WORD.
Definition END_ := testToken "END" BLOCK_END.
Definition FROM := testToken "FROM" RESERVED_COMMAND.
Definition LATERAL := testToken "LATERAL" RESERVED_DEPENDENT_CLAUSE.
Definition LIMIT := testToken "LIMIT" RESERVED_COMMAND.
Definition SELECT := testToken "SELECT" RESERVED_COMMAND.
Definition SET := testToken "SET" RESERVED_COMMAND.
Definition WINDOW := testToken "WINDOW" RESERVED_COMMAND.
End isToken.

Definition isCommand (token : option Token) : bool :=
  match token with
  | None => false
  | Some t =>
      TokenType_eqb (type t) RESERVED_COMMAND
      || TokenType_eqb (type t) RESERVED_BINARY_COMMAND
  end.

Definition isReserved (t : Token) : bool :=
  TokenType_eqb (type t) RESERVED_KEYWORD
  || TokenType_eqb (type t) RESERVED_LOGICAL_OPERATOR
  || TokenType_eqb (type t) RESERVED_DEPENDENT_CLAUSE
  || TokenType_eqb (type t) RESERVED_COMMAND
  || TokenType_eqb (type t) RESERVED_BINARY_COMMAND.

(* ================================================================== *)
(** ** Configuration (FormatOptions) *)
(* ================================================================== *)

Inductive KeywordMode := standard | tenSpaceLeft | tenSpaceRight.
Inductive AliasMode := alias_always | alias_never | alias_select.
Inductive CommaPosition := comma_before | comma_after | comma_tabular.

(** [cfg.newline] is a [NewlineMode] or a number. *)
Inductive Newline :=
| newline_always
| newline_never
| newline_lineWidth
| newline_number (n : Z)
| newline_NaN.

(** [cfg.params]: absent, a list of values or a table from names to
    values. *)
Inductive ParamItems :=
| params_none
| params_list (values : list jsstring)
| params_table (entries : list (jsstring * jsstring)).

Record ParenOptions := {
  openParenNewline : bool;
  closeParenNewline : bool
}.

Record FormatOptions := {
  indent : jsstring;
  uppercase : bool;
  keywordPosition : KeywordMode;
  breakBeforeBooleanOperator : bool;
  aliasAs : AliasMode;
  tabulateAlias : bool;
  commaPosition : CommaPosition;
  newline : Newline;
  parenOptions : ParenOptions;
  lineWidth : Z;
  linesBetweenQueries : Z;
  denseOperators : bool;
  semicolonNewline : bool;
  cfg_params : ParamItems
}.

(** [cfg.tenSpace], set by the constructor. *)
Definition tenSpace (cfg : FormatOptions) : bool :=
  match keywordPosition cfg with
  | standard => false
  | tenSpaceLeft | tenSpaceRight => true
  end.

(* ================================================================== *)
(** ** The collaborators of the formatter

    [Indentation], [InlineBlock] and [Params] are classes of their own
    modules; the formatter uses them through the operations below. *)
(* ================================================================== *)

Class IndentationOps (I : Type) := {
  newIndentation : jsstring -> I;
  getIndent : I -> jsstring;
  increaseTopLevel : I -> I;
  increaseBlockLevel : I -> I;
  decreaseTopLevel : I -> I;
  decreaseBlockLevel : I -> I;
  resetIndentation : I -> I
}.

Class InlineBlockOps (B : Type) := {
  newInlineBlock : Z -> B;
  beginIfPossible : list Token -> nat -> B -> B;
  isActive : B -> bool;
  inlineBlock_end : B -> B
}.

Class ParamsOps (P : Type) := {
  newParams : ParamItems -> P;
  params_get : Token -> P -> jsstring * P
}.

(* ================================================================== *)
(** ** The newline decision (checkNewline)

    It reads the token array, [this.newline], [this.withinSelect] and
    [this.lineWidth] only. *)
(* ================================================================== *)

Section CheckNewline.

Variable tokens : list Token.
Variable newline_ : Newline.
Variable withinSelect : bool.
Variable lineWidth_ : Z.

(** [arr.findIndex(p)]: [-1] when no element satisfies [p]. *)
Fixpoint findIndex {A} (p : A -> bool) (l : list A) : Z :=
  match l with
  | [] => -1
  | x :: l' =>
      if p x then 0
      else let r := findIndex p l' in if r <? 0 then -1 else r + 1
  end.

(** [arr.slice(0, end)]; a negative [end] counts from the end of the array
    and [undefined] is the length. *)
Definition slice0 {A} (l : list A) (end_ : option Z) : list A :=
  let n := Z.of_nat (length l) in
  match end_ with
  | None => l
  | Some e =>
      let k := if e <? 0 then Z.max (n + e) 0 else Z.min e n in
      firstn (Z.to_nat k) l
  end.

Definition isComma (t : Token) : bool := eqs (value t) (lit ",").

Definition clauseEnd (t : Token) : bool :=
  TokenType_eqb (type t) RESERVED_COMMAND
  || TokenType_eqb (type t) RESERVED_BINARY_COMMAND
  || eqs (value t) (lit ";").

Definition nextTokens (index : nat) : list Token :=
  let tail := skipn (index + 1) tokens in
  slice0 tail
    (match tail with
     | [] => None
     | _ :: _ => Some (findIndex clauseEnd tail)
     end).

(** A block start that is not a single bracket: CASE. *)
Definition longBlockStart (t : Token) : bool :=
  TokenType_eqb (type t) BLOCK_START && (1 <? len (value t)).

Record ItemAcc := { count : Z; inParen : bool }.

Definition countItem (acc : ItemAcc) (t : Token) : ItemAcc :=
  if isComma t && negb (inParen acc)
  then {| count := count acc + 1; inParen := inParen acc |}
  else if TokenType_eqb (type t) BLOCK_START
  then {| count := count acc; inParen := true |}
  else if TokenType_eqb (type t) BLOCK_END
  then {| count := count acc; inParen := false |}
  else acc.

Definition numItems (span : list Token) : Z :=
  count (fold_left countItem span {| count := 1; inParen := false |}).

Definition inlineWidth (t : Token) (span : list Token) : Z :=
  len (template (whitespaceBefore t) ++ value t ++ lit " "
       ++ concat (map (fun n => if isComma n then value n ++ lit " "
                                else value n) span)).

Definition checkNewline (index : nat) : outcome bool :=
  let nextTokens := nextTokens index in
  if (match newline_ with newline_always => true | _ => false end)
     || (withinSelect && existsb longBlockStart nextTokens)
  then Ret true
  else match newline_ with
  | newline_never => Ret false
  | _ =>
    let numItems := numItems nextTokens in
    match nth_error tokens index with
    | None => Throw TypeError
    | Some t =>
      let inlineWidth := inlineWidth t nextTokens in
      match newline_ with
      | newline_lineWidth => Ret (lineWidth_ <? inlineWidth)
      | newline_number n => Ret ((n <? numItems) || (lineWidth_ <? inlineWidth))
      | _ => Ret true
      end
    end
  end.

End CheckNewline.

(* ================================================================== *)
(** ** utils *)
(* ================================================================== *)

(** Modelled from the spec: [utils.trimSpacesEnd] is imported by the
    formatter and its module is not among the sources. The design document
    has the comma and the separator "trim trailing space" while a line break
    already written stays ([addNewline] tests [endsWith('\n')] right after
    the call): trailing spaces and tabs are removed, line breaks are not. *)
Definition trimSpacesEnd (s : jsstring) : jsstring := dropWhileEnd is_blank s.

(** Modelled from the spec: [utils.maxLength], "the run's maximum width":
    the greatest [.length] of the strings. *)
Definition maxLength (strings : list jsstring) : Z :=
  fold_left (fun m s => Z.max m (len s)) strings 0.

(* ================================================================== *)
(** ** The formatter *)
(* ================================================================== *)

Section Formatter.

Context {I B P : Type}.
Context {indentationOps : IndentationOps I}.
Context {inlineBlockOps : InlineBlockOps B}.
Context {paramsOps : ParamsOps P}.

(** The fields of a [Formatter]. [this.tokens] is the one array every
    method reads; [previousReservedToken] is a reference to one of its
    elements (or the empty object the constructor puts there), kept here as
    the element's index. [this.newline] and [this.lineWidth] are copies of
    the configuration's. *)
Record Formatter := mkFormatter {
  cfg : FormatOptions;
  currentNewline : bool;
  indentation : I;
  inlineBlock : B;
  params : P;
  previousReservedToken : option nat;
  withinSelect : bool;
  tokens : list Token;
  index : nat
}.

Definition constructor (cfg : FormatOptions) : Formatter :=
  {| cfg := cfg;
     currentNewline := true;
     indentation := newIndentation (indent cfg);
     inlineBlock := newInlineBlock (lineWidth cfg);
     params := newParams (cfg_params cfg);
     previousReservedToken := None;
     withinSelect := false;
     tokens := [];
     index := 0 |}.

Definition set_currentNewline (b : bool) (f : Formatter) : Formatter :=
  mkFormatter (cfg f) b (indentation f) (inlineBlock f) (params f)
    (previousReservedToken f) (withinSelect f) (tokens f) (index f).
Definition set_indentation (i : I) (f : Formatter) : Formatter :=
  mkFormatter (cfg f) (currentNewline f) i (inlineBlock f) (params f)
    (previousReservedToken f) (withinSelect f) (tokens f) (index f).
Definition set_inlineBlock (b : B) (f : Formatter) : Formatter :=
  mkFormatter (cfg f) (currentNewline f) (indentation f) b (params f)
    (previousReservedToken f) (withinSelect f) (tokens f) (index f).
Definition set_params (p : P) (f : Formatter) : Formatter :=
  mkFormatter (cfg f) (currentNewline f) (indentation f) (inlineBlock f) p
    (previousReservedToken f) (withinSelect f) (tokens f) (index f).
Definition set_previousReservedToken (r : option nat) (f : Formatter)
    : Formatter :=
  mkFormatter (cfg f) (currentNewline f) (indentation f) (inlineBlock f)
    (params f) r (withinSelect f) (tokens f) (index f).
Definition set_withinSelect (b : bool) (f : Formatter) : Formatter :=
  mkFormatter (cfg f) (currentNewline f) (indentation f) (inlineBlock f)
    (params f) (previousReservedToken f) b (tokens f) (index f).
Definition set_tokens (ts : list Token) (f : Formatter) : Formatter :=
  mkFormatter (cfg f) (currentNewline f) (indentation f) (inlineBlock f)
    (params f) (previousReservedToken f) (withinSelect f) ts (index f).
Definition set_index (i : nat) (f : Formatter) : Formatter :=
  mkFormatter (cfg f) (currentNewline f) (indentation f) (inlineBlock f)
    (params f) (previousReservedToken f) (withinSelect f) (tokens f) i.

Definition on_indentation (g : I -> I) (f : Formatter) : Formatter :=
  set_indentation (g (indentation f)) f.

(** [this.tokens[this.index - n]] and [this.tokens[this.index + n]];
    [undefined] outside the array. *)
Definition tokenLookBehind (f : Formatter) (n : nat) : option Token :=
  if (n <=? index f)%nat then nth_error (tokens f) (index f - n) else None.

Definition tokenLookAhead (f : Formatter) (n : nat) : option Token :=
  nth_error (tokens f) (index f + n).

Definition value_is (o : option Token) (s : string) : bool :=
  match o with
  | Some t => eqs (value t) (lit s)
  | None => false
  end.

Definition type_is (o : option Token) (ty : TokenType) : bool :=
  match o with
  | Some t => TokenType_eqb (type t) ty
  | None => false
  end.

(** Converts a token to a string, uppercasing it if needed. *)
Definition show (f : Formatter) (token : Token) : jsstring :=
  if isReserved token
     || TokenType_eqb (type token) BLOCK_START
     || TokenType_eqb (type token) BLOCK_END
  then if uppercase (cfg f) then toUpperCase (value token)
       else toLowerCase (value token)
  else value token.

Definition equalizeWhitespace (s : jsstring) : jsstring :=
  equalizeWhitespace_from false s.

Definition addNewline (f : Formatter) (query : jsstring) : jsstring :=
  let query := trimSpacesEnd query in
  let query := if endsWith query [LF] then query else query ++ [LF] in
  query ++ getIndent (indentation f).

Inductive Preserve := preserve_before | preserve_after | preserve_both.

Definition formatWithSpaces (f : Formatter) (token : Token) (query : jsstring)
    (preserve : Preserve) : jsstring :=
  let before := match preserve with
                | preserve_after => trimSpacesEnd query
                | _ => query
                end in
  let after := match preserve with
               | preserve_before => []
               | _ => [SPACE]
               end in
  before ++ show f token ++ after.

Definition formatWithoutSpaces (f : Formatter) (token : Token)
    (query : jsstring) : jsstring :=
  trimSpacesEnd query ++ show f token.

(** [ZWS.repeat(Math.max(bufferLength - string.length, 0))]. *)
Definition addBuffer (s : jsstring) : jsstring :=
  repeat_str [ZWS] (Z.to_nat (Z.max (9 - len s) 0)).

(** [s.split(' ')]. *)
Fixpoint split_space (s : jsstring) : list jsstring :=
  match s with
  | [] => [[]]
  | c :: s' =>
      if N.eqb c SPACE then [] :: split_space s'
      else match split_space s' with
           | [] => [[c]]
           | l :: ls => (c :: l) :: ls
           end
  end.

(** [arr.join(' ')]. *)
Fixpoint join_space (ls : list jsstring) : jsstring :=
  match ls with
  | [] => []
  | [l] => l
  | l :: ls' => l ++ SPACE :: join_space ls'
  end.

(** [tenSpacedToken] assigns to [token.value]: the result is the state of
    the one token object after the call. *)
Definition tenSpacedToken (f : Formatter) (token : Token) : Token :=
  if tenSpace (cfg f) then
    let '(bufferItem, tail) :=
      if (10 <=? len (value token)) && includes (value token) [SPACE]
      then match split_space (value token) with
           | b :: tl => (b, tl)
           | [] => (value token, [])
           end
      else (value token, []) in
    let bufferItem :=
      match keywordPosition (cfg f) with
      | tenSpaceLeft => bufferItem ++ addBuffer bufferItem
      | _ => addBuffer bufferItem ++ bufferItem
      end in
    mkToken (bufferItem ++ join_space ([] :: tail)) (type token) (key token)
      (whitespaceBefore token)
  else token.

Definition formatAliases (f : Formatter) (token : Token) (query : jsstring)
    : jsstring :=
  let prevToken := tokenLookBehind f 1 in
  let nextToken := tokenLookAhead f 1 in
  let asToken :=
    mkToken (if uppercase (cfg f) then lit "AS" else lit "as")
      RESERVED_KEYWORD None None in
  let missingTableAlias :=
    match aliasAs (cfg f) with alias_always => true | _ => false end
    && TokenType_eqb (type token) WORD
    && value_is prevToken ")" in
  let missingSelectColumnAlias :=
    withinSelect f
    && TokenType_eqb (type token) WORD
    && (isToken.END_ prevToken
        || (type_is prevToken WORD
            && (value_is nextToken "," || isCommand nextToken))) in
  if missingTableAlias || missingSelectColumnAlias
  then formatWithSpaces f asToken query preserve_both
  else query.

Definition formatLineComment (f : Formatter) (token : Token)
    (query : jsstring) : jsstring :=
  addNewline f (query ++ show f token).

(** [comment.replace(/\n[ \t]*/gu, '\n' + indent + ' ')]; [skipping] is
    set while the scan is inside the blanks that follow a line break. The
    replacement is taken literally: an indent unit holds no [$]. *)
Fixpoint indentComment_from (ind : jsstring) (skipping : bool)
    (comment : jsstring) : jsstring :=
  match comment with
  | [] => []
  | c :: s' =>
      if N.eqb c LF
      then LF :: ind ++ SPACE :: indentComment_from ind true s'
      else if skipping && is_blank c then indentComment_from ind true s'
      else c :: indentComment_from ind false s'
  end.

Definition indentComment (f : Formatter) (comment : jsstring) : jsstring :=
  indentComment_from (getIndent (indentation f)) false comment.

Definition formatBlockComment (f : Formatter) (token : Token)
    (query : jsstring) : jsstring :=
  addNewline f (addNewline f query ++ indentComment f (value token)).

Definition formatCommand (f : Formatter) (token : Token) (query : jsstring)
    : jsstring * Formatter :=
  let f := on_indentation decreaseTopLevel f in
  let query := addNewline f query in
  let f :=
    if tenSpace (cfg f) then
      if negb (value_is (tokenLookAhead f 1) "(")
      then on_indentation increaseTopLevel f else f
    else if negb (value_is (tokenLookAhead f 1) "("
                  && isToken.FROM (Some token))
    then on_indentation increaseTopLevel f else f in
  let query := query ++ equalizeWhitespace (show f token) in
  let query := if currentNewline f && negb (tenSpace (cfg f))
               then addNewline f query
               else query ++ [SPACE] in
  (query, f).

Definition formatBinaryCommand (f : Formatter) (token : Token)
    (query : jsstring) : jsstring * Formatter :=
  let isJoin := includes_by fold_i (value token) (lit "JOIN") in
  let f := if negb isJoin || tenSpace (cfg f)
           then on_indentation decreaseTopLevel f else f in
  let query := addNewline f query ++ equalizeWhitespace (show f token) in
  (if isJoin then query ++ [SPACE] else addNewline f query, f).

Definition formatKeyword (f : Formatter) (token : Token) (query : jsstring)
    : jsstring :=
  if isToken.AS (Some token)
     && (match aliasAs (cfg f) with alias_never => true | _ => false end
         || (match aliasAs (cfg f) with alias_select => true | _ => false end
             && value_is (tokenLookBehind f 1) ")"
             && negb (withinSelect f)
             && negb (value_is (tokenLookAhead f 1) "(")))
  then query
  else formatWithSpaces f token query preserve_both.

Definition formatDependentClause (f : Formatter) (token : Token)
    (query : jsstring) : jsstring :=
  addNewline f query ++ equalizeWhitespace (show f token) ++ [SPACE].

Definition formatLogicalOperator (f : Formatter) (token : Token)
    (query : jsstring) : jsstring * Formatter :=
  if isToken.AND (Some token) && isToken.BETWEEN (tokenLookBehind f 2)
  then (formatWithSpaces f token query preserve_both, f)
  else
    let f := if tenSpace (cfg f)
             then on_indentation decreaseTopLevel f else f in
    if breakBeforeBooleanOperator (cfg f)
    then ((if currentNewline f then addNewline f query else query)
            ++ equalizeWhitespace (show f token) ++ [SPACE], f)
    else
      let query := query ++ show f token in
      (if currentNewline f then addNewline f query else query, f).

(** Opening parentheses increase the block indent level and start a new
    line. *)
Definition formatBlockStart (f : Formatter) (token : Token)
    (query : jsstring) : jsstring * Formatter :=
  let '(query, f) :=
    if isToken.CASE (Some token)
    then (formatWithSpaces f token query preserve_both, f)
    else
      let preserveWhitespaceFor (o : option Token) :=
        type_is o BLOCK_START || type_is o LINE_COMMENT
        || type_is o OPERATOR in
      let query :=
        if match whitespaceBefore token with
           | Some ws => len ws =? 0
           | None => false
           end
           && negb (preserveWhitespaceFor (tokenLookBehind f 1))
        then trimSpacesEnd query
        else if negb (openParenNewline (parenOptions (cfg f)))
        then trimEnd query ++ [SPACE]
        else query in
      let query := query ++ show f token in
      (query,
       set_inlineBlock
         (beginIfPossible (tokens f) (index f) (inlineBlock f)) f) in
  if negb (isActive (inlineBlock f))
  then
    let f := on_indentation increaseBlockLevel f in
    if negb (isToken.CASE (Some token))
       || match newline (cfg f) with newline_always => true | _ => false end
    then (addNewline f query, f)
    else (query, f)
  else (query, f).

(** Closing parentheses decrease the block indent level. *)
Definition formatBlockEnd (f : Formatter) (token : Token) (query : jsstring)
    : jsstring * Formatter :=
  if isActive (inlineBlock f)
  then
    let f := set_inlineBlock (inlineBlock_end (inlineBlock f)) f in
    (formatWithSpaces f token query preserve_after, f)
  else
    let f := on_indentation decreaseBlockLevel f in
    let query :=
      if tenSpace (cfg f) then addNewline f query ++ indent (cfg f)
      else if closeParenNewline (parenOptions (cfg f))
      then addNewline f query
      else trimEnd query ++ [SPACE] in
    (formatWithSpaces f token query preserve_both, f).

Definition formatPlaceholder (f : Formatter) (token : Token)
    (query : jsstring) : jsstring * Formatter :=
  let '(text, p) := params_get token (params f) in
  (query ++ text ++ [SPACE], set_params p f).

(** Commas start a new line (unless within inline parentheses or SQL
    "LIMIT" clause). *)
Definition formatComma (f : Formatter) (token : Token) (query : jsstring)
    : jsstring :=
  let query := trimSpacesEnd query ++ show f token ++ [SPACE] in
  if isActive (inlineBlock f) then query
  else if isToken.LIMIT
            (match previousReservedToken f with
             | Some i => nth_error (tokens f) i
             | None => None
             end)
  then query
  else if currentNewline f then addNewline f query
  else query.

(** ['\n'.repeat((this.cfg.linesBetweenQueries || 1) + 1)]; [repeat] raises
    a RangeError on a negative count. *)
Definition separatorNewlines (cfg : FormatOptions) : outcome jsstring :=
  let n := (if linesBetweenQueries cfg =? 0 then 1
            else linesBetweenQueries cfg) + 1 in
  if n <? 0 then Throw RangeError
  else Ret (repeat_str [LF] (Z.to_nat n)).

Definition formatQuerySeparator (f : Formatter) (token : Token)
    (query : jsstring) : outcome (jsstring * Formatter) :=
  let f := on_indentation resetIndentation f in
  let query := trimSpacesEnd query in
  let query :=
    if semicolonNewline (cfg f)
    then (query ++ [LF]) ++ (if tenSpace (cfg f) then indent (cfg f) else [])
    else query in
  nl <- separatorNewlines (cfg f) ;;
  Ret (query ++ show f token ++ nl, f).

Definition value_in (t : Token) (l : list string) : bool :=
  existsb (fun s => eqs (value t) (lit s)) l.

Definition formatOperator (f : Formatter) (token : Token) (query : jsstring)
    : outcome (jsstring * Formatter) :=
  if eqs (value token) (lit ",") then Ret (formatComma f token query, f)
  else if eqs (value token) (lit ";") then formatQuerySeparator f token query
  else if value_in token ["$"; "["]%string
  then Ret (formatWithSpaces f token query preserve_before, f)
  else if value_in token [":"; "]"]%string
  then Ret (formatWithSpaces f token query preserve_after, f)
  else if value_in token ["."; "{"; "}"; "`"]%string
  then Ret (formatWithoutSpaces f token query, f)
  else if denseOperators (cfg f)
          && negb (type_is (tokenLookBehind f 1) RESERVED_COMMAND)
  then Ret (formatWithoutSpaces f token query, f)
  else Ret (formatWithSpaces f token query preserve_both, f).

(** [this.tokens[i] = t], for the write through the alias [token]. *)
Fixpoint store (ts : list Token) (i : nat) (t : Token) : list Token :=
  match ts, i with
  | [], _ => []
  | _ :: ts', O => t :: ts'
  | x :: ts', S i' => x :: store ts' i' t
  end.

(** Reprocess and modify a token based on parsed context: subclasses can
    override this; the formatter itself hands the token back. *)
Definition tokenOverride (f : Formatter) (token : Token) : Token := token.

(** The block of the loop under [if (isReserved(token))]. The local
    [token] is the array's element itself, so the assignment of
    [tenSpacedToken] is written to the array. *)
Definition markReserved (f : Formatter) (token : Token) : Token * Formatter :=
  if isReserved token then
    let f := set_previousReservedToken (Some (index f)) f in
    let '(token, f) :=
      if negb (TokenType_eqb (type token) RESERVED_KEYWORD)
      then let token := tenSpacedToken f token in
           (token, set_tokens (store (tokens f) (index f) token) f)
      else (token, f) in
    if TokenType_eqb (type token) RESERVED_COMMAND
    then (token, set_withinSelect (isToken.SELECT (Some token)) f)
    else (token, f)
  else (token, f).

(** The chain of tests on [token.type] that follows it. *)
Definition dispatch (f : Formatter) (token : Token)
    (formattedQuery : jsstring) : outcome (jsstring * Formatter) :=
  match type token with
  | LINE_COMMENT => Ret (formatLineComment f token formattedQuery, f)
  | BLOCK_COMMENT => Ret (formatBlockComment f token formattedQuery, f)
  | RESERVED_COMMAND =>
      b <- checkNewline (tokens f) (newline (cfg f)) (withinSelect f)
             (lineWidth (cfg f)) (index f) ;;
      Ret (formatCommand (set_currentNewline b f) token formattedQuery)
  | RESERVED_BINARY_COMMAND =>
      Ret (formatBinaryCommand f token formattedQuery)
  | RESERVED_DEPENDENT_CLAUSE =>
      Ret (formatDependentClause f token formattedQuery, f)
  | RESERVED_LOGICAL_OPERATOR =>
      Ret (formatLogicalOperator f token formattedQuery)
  | RESERVED_KEYWORD =>
      Ret (formatKeyword f token formattedQuery,
           set_previousReservedToken (Some (index f)) f)
  | BLOCK_START => Ret (formatBlockStart f token formattedQuery)
  | BLOCK_END => Ret (formatBlockEnd f token formattedQuery)
  | PLACEHOLDER => Ret (formatPlaceholder f token formattedQuery)
  | OPERATOR => formatOperator f token formattedQuery
  | _ =>
      let formattedQuery :=
        match aliasAs (cfg f) with
        | alias_never => formattedQuery
        | _ => formatAliases f token formattedQuery
        end in
      Ret (formatWithSpaces f token formattedQuery preserve_both, f)
  end.

(** One turn of the loop of [getFormattedQueryFromTokens], at
    [this.index]. *)
Definition formatToken (f : Formatter) (formattedQuery : jsstring)
    : outcome (jsstring * Formatter) :=
  match nth_error (tokens f) (index f) with
  | None => Throw TypeError
  | Some token =>
    let token := tokenOverride f token in
    let '(token, f) := markReserved f token in
    dispatch f token formattedQuery
  end.

(** The [for] loop: [n] turns are left, [this.index] is advanced after
    each. *)
Fixpoint formatTokens (n : nat) (f : Formatter) (formattedQuery : jsstring)
    : outcome (jsstring * Formatter) :=
  match n with
  | O => Ret (formattedQuery, f)
  | S n' =>
      '(formattedQuery, f) <- formatToken f formattedQuery ;;
      formatTokens n' (set_index (S (index f)) f) formattedQuery
  end.

(** [s.replace(new RegExp(ZWS, 'ugim'), ' ')]. *)
Definition replaceZWS (s : jsstring) : jsstring :=
  map (fun c => if N.eqb c ZWS then SPACE else c) s.

Definition getFormattedQueryFromTokens (f : Formatter)
    : outcome (jsstring * Formatter) :=
  '(formattedQuery, f) <-
     formatTokens (length (tokens f)) (set_index 0 f) [] ;;
  Ret (replaceZWS formattedQuery, f).

(* ------------------------------------------------------------------ *)
(** *** The post-format passes *)

(** [line.match(/.*,$/)]: the pattern is not anchored at the start, so it
    asks for a last code unit that is a comma. *)
Definition endsWithComma (line : jsstring) : bool := endsWith line [COMMA].

(** [line.replace(/,$/, '')]. *)
Definition dropComma (line : jsstring) : jsstring :=
  if endsWithComma line then removelast line else line.

Fixpoint mapi_from {A B} (g : nat -> A -> outcome B) (j : nat) (l : list A)
    : outcome (list B) :=
  match l with
  | [] => Ret []
  | x :: l' =>
      y <- g j x ;;
      ys <- mapi_from g (S j) l' ;;
      Ret (y :: ys)
  end.

(** The scan of a run, shared by the two passes:
    [while (lines[i++].match(/.*,$/)) run.push(lines[i])], then the lines
    [process]ed are appended to [newQuery], then [newQuery.push(lines[i])]
    and the [for] loop goes on at the line after. [cur] is [lines[i]] at
    the test and [rest] what follows it; reading past the last line gives
    [undefined], whose [match] raises a TypeError. *)
Definition scanRun
    (process : list jsstring -> outcome (list jsstring))
    (continue : list jsstring -> outcome (list (option jsstring)))
    : jsstring -> list jsstring -> list jsstring ->
      outcome (list (option jsstring)) :=
  fix while (cur : jsstring) (run : list jsstring) (rest : list jsstring)
      {struct rest} :=
    if endsWithComma cur then
      match rest with
      | [] => Throw TypeError
      | next :: rest' => while next (run ++ [next]) rest'
      end
    else
      run' <- process run ;;
      match rest with
      | [] => Ret (map Some run' ++ [None])
      | next :: rest' =>
          newQuery <- continue rest' ;;
          Ret (map Some run' ++ Some next :: newQuery)
      end.

(** Modelled from the spec: [Tokenizer.WHITESPACE_REGEX], "the leading
    indentation of each continuation line": the pattern [/^(\s+)/], whose
    group is the white space a line starts with; [None] is the [null] of
    a line that starts with none. *)
Definition matchLeadingWhitespace (line : jsstring)
    : option (jsstring * jsstring) :=
  match takeWhile is_space line with
  | [] => None
  | ws => Some (ws, dropWhile is_space line)
  end.

(** [s.replace(/ {2}$/, ', ')]. *)
Definition commaForTwoSpaces (s : jsstring) : jsstring :=
  if endsWith s [SPACE; SPACE]
  then firstn (length s - 2) s ++ [COMMA; SPACE]
  else s.

(** [ws.replace(new RegExp(pat + '$'), by_)] for a pattern of literal code
    units, as an indent unit of white space is. *)
Definition replaceSuffix (ws pat by_ : jsstring) : jsstring :=
  if endsWith ws pat
  then firstn (length ws - length pat) ws ++ by_
  else ws.

Definition commaBefore (cfg : FormatOptions) (j : nat) (commaLine : jsstring)
    : outcome jsstring :=
  let isTabs := includes (indent cfg) [TAB] in
  match j with
  | O => Ret commaLine
  | S _ =>
      match matchLeadingWhitespace commaLine with
      | None => Throw TypeError
      | Some (ws, rest) =>
          Ret (replaceSuffix ws
                 (if isTabs then [TAB] else indent cfg)
                 (commaForTwoSpaces
                    (if isTabs then lit "    " else indent cfg))
               ++ rest)
      end
  end.

Definition commaTabular (commaLines : list jsstring) : list jsstring :=
  let commaLines := map dropComma commaLines in
  let commaMaxLength := maxLength commaLines in
  let last := (length commaLines - 1)%nat in
  let fix go (j : nat) (l : list jsstring) : list jsstring :=
    match l with
    | [] => []
    | commaLine :: l' =>
        (if (j <? last)%nat
         then commaLine
              ++ repeat_str [SPACE]
                   (Z.to_nat (commaMaxLength - len commaLine))
              ++ [COMMA]
         else commaLine) :: go (S j) l'
    end in
  go O commaLines.

Definition commaRun (cfg : FormatOptions) (commaLines : list jsstring)
    : outcome (list jsstring) :=
  match commaPosition cfg with
  | comma_tabular => Ret (commaTabular commaLines)
  | comma_before => mapi_from (commaBefore cfg) O (map dropComma commaLines)
  | comma_after => Ret commaLines
  end.

Fixpoint commaLoop (cfg : FormatOptions) (lines : list jsstring)
    : outcome (list (option jsstring)) :=
  match lines with
  | [] => Ret []
  | line :: rest =>
      if endsWithComma line
      then scanRun (commaRun cfg) (commaLoop cfg) line [line] rest
      else
        newQuery <- commaLoop cfg rest ;;
        Ret (Some line :: newQuery)
  end.

Definition formatCommaPositions (cfg : FormatOptions) (query : jsstring)
    : outcome jsstring :=
  newQuery <- commaLoop cfg (split_lines query) ;;
  Ret (join_lines newQuery).

(** [line.match(/^\s*SELECT/i)]. *)
Definition startsSelect (line : jsstring) : bool :=
  startsWith_by fold_i (dropWhile is_space line) (lit "SELECT").

(** The class [.]: any code unit but a line terminator. *)
Definition is_dot (c : char16) : bool :=
  negb ((c =? 10) || (c =? 13) || (c =? 8232) || (c =? 8233))%N.

(** A run of white space, possibly empty, and then a code unit of [.]. *)
Fixpoint dotAfterSpaces (s : jsstring) : bool :=
  match s with
  | [] => false
  | c :: s' => is_dot c || (is_space c && dotAfterSpaces s')
  end.

(** [line.match(/^\s*SELECT\s+.+(?!,$)/i)] for a line that starts SELECT:
    [.+] may always stop where the lookahead holds, so the pattern asks for
    white space after SELECT and one more code unit of [.]. *)
Definition selectWithBody (line : jsstring) : bool :=
  match skipn 6 (dropWhile is_space line) with
  | c :: s' => is_space c && dotAfterSpaces s'
  | [] => false
  end.

Definition allNonSpace (s : jsstring) : bool :=
  match s with
  | [] => false
  | _ => forallb (fun c => negb (is_space c)) s
  end.

(** [line.split(/(?<=[^\s]+) (AS )?(?=[^\s]+,?$)/i)]: the separator is a
    space after a code unit that is not white space, with an AS and its
    space when they follow, and what is left of the line is one word. At
    most one place of a line qualifies; [None] when none does (the array
    has the line only). The triple is [slugs[0]], the group, [slugs[2]]. *)
Fixpoint splitAlias (afterWord : bool) (before : jsstring) (s : jsstring)
    : option (jsstring * option jsstring * jsstring) :=
  match s with
  | [] => None
  | c :: s' =>
      if N.eqb c SPACE && afterWord then
        if startsWith_by fold_i s' (lit "AS ") && allNonSpace (skipn 3 s')
        then Some (before, Some (firstn 3 s'), skipn 3 s')
        else if allNonSpace s' then Some (before, None, s')
        else splitAlias (negb (is_space c)) (before ++ [c]) s'
      else splitAlias (negb (is_space c)) (before ++ [c]) s'
  end.

Record Slugs := {
  precedingText : jsstring;
  alias : option jsstring;
  as_ : option jsstring
}.

Definition slugsOf (line : jsstring) : Slugs :=
  match splitAlias false [] line with
  | Some (pre, a, al) =>
      {| precedingText := pre; alias := Some al; as_ := a |}
  | None => {| precedingText := line; alias := None; as_ := None |}
  end.

(** [text.replace(/\s*,\s*$/, '')]. *)
Definition dropCommaAndSpaces (text : jsstring) : jsstring :=
  let t := dropWhileEnd is_space text in
  if endsWithComma t then dropWhileEnd is_space (removelast t) else text.

Definition aliasLine (aliasMaxLength : Z) (s : Slugs) : outcome jsstring :=
  match alias s with
  | Some al =>
      let n := aliasMaxLength - len (precedingText s) + 1 in
      if n <? 0 then Throw RangeError
      else Ret (precedingText s ++ repeat_str [SPACE] (Z.to_nat n)
                ++ match as_ s with Some a => a | None => [] end ++ al)
  | None => Ret (precedingText s)
  end.

Definition aliasRun (aliasLines : list jsstring) : outcome (list jsstring) :=
  let splitLines := map slugsOf aliasLines in
  let aliasMaxLength :=
    maxLength (map (fun s => dropCommaAndSpaces (precedingText s))
                 splitLines) in
  mapi_from (fun _ => aliasLine aliasMaxLength) O splitLines.

Fixpoint aliasLoop (lines : list jsstring)
    : outcome (list (option jsstring)) :=
  match lines with
  | [] => Ret []
  | line :: rest =>
      if startsSelect line then
        if endsWithComma line
        then scanRun aliasRun aliasLoop line [line] rest
        else if selectWithBody line
        then
          newQuery <- aliasLoop rest ;;
          Ret (Some line :: newQuery)
        else
          match rest with
          | [] => Throw TypeError
          | next :: rest' =>
              newQuery <- scanRun aliasRun aliasLoop next [next] rest' ;;
              Ret (Some line :: newQuery)
          end
      else
        newQuery <- aliasLoop rest ;;
        Ret (Some line :: newQuery)
  end.

Definition formatAliasPositions (query : jsstring) : outcome jsstring :=
  newQuery <- aliasLoop (split_lines query) ;;
  Ret (join_lines newQuery).

Definition postFormat (f : Formatter) (query : jsstring) : outcome jsstring :=
  query <- (if tabulateAlias (cfg f) then formatAliasPositions query
            else Ret query) ;;
  match commaPosition (cfg f) with
  | comma_after => Ret query
  | _ => formatCommaPositions (cfg f) query
  end.

(** The SQL tokenizer of this formatter, provided by subclasses. *)
Variable tokenize : jsstring -> list Token.

(** Formats whitespace in a SQL string to make it easier to read. *)
Definition format (f : Formatter) (query : jsstring) : outcome jsstring :=
  let f := set_tokens (tokenize query) f in
  '(formattedQuery, f) <- getFormattedQueryFromTokens f ;;
  finalQuery <- postFormat f formattedQuery ;;
  Ret (trimEnd (stripLeadingNewlines finalQuery)).

End Formatter.

Arguments Formatter : clear implicits.

(* ================================================================== *)
(** ** The collaborators, from the design document

    The modules of [Indentation], [InlineBlock] and [Params] are not among
    the sources. The theorems on the formatter hold for every
    implementation of their operations; the runs on concrete token
    sequences below use these. *)
(* ================================================================== *)

Module Collaborators.

(** Modelled from the spec: the class [Indentation] is missing. "Two
    independent counters, top-level depth and block depth"; a new line
    emits the indent unit once per level of either; "decrease operations
    are saturating at zero"; the reset puts both to zero. *)
Record Indentation := {
  indentUnit : jsstring;
  topLevel : nat;
  blockLevel : nat
}.

#[export] Instance indentation_ops : IndentationOps Indentation := {|
  newIndentation u := {| indentUnit := u; topLevel := 0; blockLevel := 0 |};
  getIndent i := repeat_str (indentUnit i) (topLevel i + blockLevel i);
  increaseTopLevel i :=
    {| indentUnit := indentUnit i; topLevel := S (topLevel i);
       blockLevel := blockLevel i |};
  increaseBlockLevel i :=
    {| indentUnit := indentUnit i; topLevel := topLevel i;
       blockLevel := S (blockLevel i) |};
  decreaseTopLevel i :=
    {| indentUnit := indentUnit i; topLevel := pred (topLevel i);
       blockLevel := blockLevel i |};
  decreaseBlockLevel i :=
    {| indentUnit := indentUnit i; topLevel := topLevel i;
       blockLevel := pred (blockLevel i) |};
  resetIndentation i :=
    {| indentUnit := indentUnit i; topLevel := 0; blockLevel := 0 |}
|}.

(** Modelled from the spec: the class [InlineBlock] is missing. "A single
    optional active inline block record, start index and end index"; it is
    created at a block start whose span up to the matching block end
    (bracket matching with a depth counter) holds no top-level command,
    binary command or line comment and whose flattened width is within the
    line-width budget; nested brackets stay in the same run; it is cleared
    at the end. *)
Record InlineBlock := {
  maxColumnWidth : Z;
  active : option (nat * nat)
}.

Definition forbidden (t : Token) : bool :=
  TokenType_eqb (type t) RESERVED_COMMAND
  || TokenType_eqb (type t) RESERVED_BINARY_COMMAND
  || TokenType_eqb (type t) LINE_COMMENT.

(** The span from a block start to its matching block end, both included,
    as a number of tokens: [depth] brackets are open before [ts]. *)
Fixpoint matchingEnd (depth : nat) (ts : list Token) : option nat :=
  match ts with
  | [] => None
  | t :: ts' =>
      match type t with
      | BLOCK_START => option_map S (matchingEnd (S depth) ts')
      | BLOCK_END =>
          match depth with
          | 0%nat | 1%nat => Some 1%nat
          | S d => option_map S (matchingEnd d ts')
          end
      | _ => option_map S (matchingEnd depth ts')
      end
  end.

Definition eligible (width : Z) (tokens : list Token) (index : nat)
    : option (nat * nat) :=
  match matchingEnd 0 (skipn index tokens) with
  | None => None
  | Some n =>
      let span := firstn n (skipn index tokens) in
      if negb (existsb forbidden span)
         && (len (concat (map value span)) <=? width)
      then Some (index, (index + n - 1)%nat)
      else None
  end.

#[export] Instance inlineBlock_ops : InlineBlockOps InlineBlock := {|
  newInlineBlock w := {| maxColumnWidth := w; active := None |};
  beginIfPossible tokens index b :=
    match active b with
    | Some _ => b
    | None => {| maxColumnWidth := maxColumnWidth b;
                 active := eligible (maxColumnWidth b) tokens index |}
    end;
  isActive b := match active b with Some _ => true | None => false end;
  inlineBlock_end b := {| maxColumnWidth := maxColumnWidth b; active := None |}
|}.

(** Modelled from the spec: the class [Params] is missing. Positional
    placeholders consume the values in encounter order, a placeholder with
    a key is looked up by it; one with no supplied value keeps its text. *)
Record Params := {
  items : ParamItems;
  position : nat
}.

Fixpoint lookup (k : jsstring) (entries : list (jsstring * jsstring))
    : option jsstring :=
  match entries with
  | [] => None
  | (k', v) :: rest => if eqs k k' then Some v else lookup k rest
  end.

#[export] Instance params_ops : ParamsOps Params := {|
  newParams it := {| items := it; position := 0 |};
  params_get token p :=
    match key token, items p with
    | Some k, params_table entries =>
        (match lookup k entries with Some v => v | None => value token end, p)
    | None, params_list values =>
        (nth (position p) values (value token),
         {| items := items p; position := S (position p) |})
    | _, _ => (value token, p)
    end
|}.

Definition SqlFormatter := Formatter Indentation InlineBlock Params.

End Collaborators.

Import Collaborators.

(** The configuration of the examples of the design document. *)
Definition exampleOptions : FormatOptions := {|
  indent := lit "  ";
  uppercase := true;
  keywordPosition := standard;
  breakBeforeBooleanOperator := true;
  aliasAs := alias_select;
  tabulateAlias := false;
  commaPosition := comma_after;
  newline := newline_always;
  parenOptions := {| openParenNewline := true; closeParenNewline := true |};
  lineWidth := 50;
  linesBetweenQueries := 1;
  denseOperators := false;
  semicolonNewline := false;
  cfg_params := params_none
|}.

(* ================================================================== *)
(** ** The design document's words for the newline decision *)
(* ================================================================== *)

(** The elements of [l] before the first one that satisfies [p]. *)
Fixpoint takeUntil {A} (p : A -> bool) (l : list A) : list A :=
  match l with
  | [] => []
  | x :: l' => if p x then [] else x :: takeUntil p l'
  end.

(** "Scan forward to the next top-level command, binary command or
    statement separator (exclusive) to obtain the clause's token span." *)
Definition clauseSpan (tokens : list Token) (index : nat) : list Token :=
  takeUntil clauseEnd (skipn (index + 1) tokens).

(** The clause is closed by a command, a binary command or a separator, or
    nothing at all follows the command token. *)
Definition terminated (tokens : list Token) (index : nat) : Prop :=
  skipn (index + 1) tokens = []
  \/ existsb clauseEnd (skipn (index + 1) tokens) = true.

(** "Item count = 1 + count of top-level commas in the span (commas inside
    nested parens do not count, tracked with a paren-depth counter over the
    span)." The counter does not go below zero. *)
Record DepthAcc := { items : Z; depth : nat }.

Definition countAtDepth (acc : DepthAcc) (t : Token) : DepthAcc :=
  if isComma t && (depth acc =? 0)%nat
  then {| items := items acc + 1; depth := depth acc |}
  else if TokenType_eqb (type t) BLOCK_START
  then {| items := items acc; depth := S (depth acc) |}
  else if TokenType_eqb (type t) BLOCK_END
  then {| items := items acc; depth := pred (depth acc) |}
  else acc.

Definition itemCount (span : list Token) : Z :=
  items (fold_left countAtDepth span {| items := 1; depth := 0 |}).

(** No bracket of the span opens inside another one: the counter, at [d]
    before the span, stays at most 1. *)
Fixpoint shallow (d : nat) (span : list Token) : bool :=
  match span with
  | [] => true
  | t :: span' =>
      let d' := depth (countAtDepth {| items := 0; depth := d |} t) in
      (d' <=? 1)%nat && shallow d' span'
  end.

(** The span holds a CASE block. *)
Definition hasCase (span : list Token) : bool :=
  existsb (fun t => isToken.CASE (Some t)) span.

(* ================================================================== *)
(** ** Token sequences of the examples

    Each is the tokenizer's result on the query in its comment: the kinds
    are those of the keyword tables, [whitespaceBefore] is the white space
    the query has in front of the token. *)
(* ================================================================== *)

(** [where a = case when b then c end;] *)
Definition whereCase : list Token :=
  [ tok RESERVED_COMMAND "" "where"; tok WORD " " "a"; tok OPERATOR " " "=";
    tok BLOCK_START " " "case"; tok RESERVED_KEYWORD " " "when";
    tok WORD " " "b"; tok RESERVED_KEYWORD " " "then"; tok WORD " " "c";
    tok BLOCK_END " " "end"; tok OPERATOR "" ";" ].

(** [select case when a then b end from t] *)
Definition selectCase : list Token :=
  [ tok RESERVED_COMMAND "" "select"; tok BLOCK_START " " "case";
    tok RESERVED_KEYWORD " " "when"; tok WORD " " "a";
    tok RESERVED_KEYWORD " " "then"; tok WORD " " "b";
    tok BLOCK_END " " "end"; tok RESERVED_COMMAND " " "from";
    tok WORD " " "t" ].

(** [select a, f(b, c) from t] *)
Definition selectCall : list Token :=
  [ tok RESERVED_COMMAND "" "select"; tok WORD " " "a"; tok OPERATOR "" ",";
    tok WORD " " "f"; tok BLOCK_START "" "("; tok WORD "" "b";
    tok OPERATOR "" ","; tok WORD " " "c"; tok BLOCK_END "" ")";
    tok RESERVED_COMMAND " " "from"; tok WORD " " "t" ].

(** [select a,b from t] *)
Definition selectTwo : list Token :=
  [ tok RESERVED_COMMAND "" "select"; tok WORD " " "a"; tok OPERATOR "" ",";
    tok WORD "" "b"; tok RESERVED_COMMAND " " "from"; tok WORD " " "t" ].

(** [select * from t where a between 1 and 2] *)
Definition betweenQuery : list Token :=
  [ tok RESERVED_COMMAND "" "select"; tok OPERATOR " " "*";
    tok RESERVED_COMMAND " " "from"; tok WORD " " "t";
    tok RESERVED_COMMAND " " "where"; tok WORD " " "a";
    tok RESERVED_KEYWORD " " "between"; tok NUMBER " " "1";
    tok RESERVED_LOGICAL_OPERATOR " " "and"; tok NUMBER " " "2" ].

(** [select * from t where a between b + 1 and 2] *)
Definition betweenSum : list Token :=
  [ tok RESERVED_COMMAND "" "select"; tok OPERATOR " " "*";
    tok RESERVED_COMMAND " " "from"; tok WORD " " "t";
    tok RESERVED_COMMAND " " "where"; tok WORD " " "a";
    tok RESERVED_KEYWORD " " "between"; tok WORD " " "b";
    tok OPERATOR " " "+"; tok NUMBER " " "1";
    tok RESERVED_LOGICAL_OPERATOR " " "and"; tok NUMBER " " "2" ].

(** [select 1; select 2] *)
Definition twoStatements : list Token :=
  [ tok RESERVED_COMMAND "" "select"; tok NUMBER " " "1";
    tok OPERATOR "" ";"; tok RESERVED_COMMAND " " "select";
    tok NUMBER " " "2" ].

Definition withNewline (n : Newline) (o : FormatOptions) : FormatOptions :=
  Build_FormatOptions (indent o) (uppercase o) (keywordPosition o)
    (breakBeforeBooleanOperator o) (aliasAs o) (tabulateAlias o)
    (commaPosition o) n (parenOptions o) (lineWidth o)
    (linesBetweenQueries o) (denseOperators o) (semicolonNewline o)
    (cfg_params o).

Definition withKeywordPosition (k : KeywordMode) (o : FormatOptions)
    : FormatOptions :=
  Build_FormatOptions (indent o) (uppercase o) k
    (breakBeforeBooleanOperator o) (aliasAs o) (tabulateAlias o)
    (commaPosition o) (newline o) (parenOptions o) (lineWidth o)
    (linesBetweenQueries o) (denseOperators o) (semicolonNewline o)
    (cfg_params o).

Definition withCommaPosition (c : CommaPosition) (o : FormatOptions)
    : FormatOptions :=
  Build_FormatOptions (indent o) (uppercase o) (keywordPosition o)
    (breakBeforeBooleanOperator o) (aliasAs o) (tabulateAlias o)
    c (newline o) (parenOptions o) (lineWidth o)
    (linesBetweenQueries o) (denseOperators o) (semicolonNewline o)
    (cfg_params o).

Definition withLinesBetweenQueries (n : Z) (o : FormatOptions)
    : FormatOptions :=
  Build_FormatOptions (indent o) (uppercase o) (keywordPosition o)
    (breakBeforeBooleanOperator o) (aliasAs o) (tabulateAlias o)
    (commaPosition o) (newline o) (parenOptions o) (lineWidth o)
    n (denseOperators o) (semicolonNewline o) (cfg_params o).

(** A formatter on an array of tokens, as [format] has it after the
    tokenizer's call. *)
Definition formatterOn (o : FormatOptions) (ts : list Token) : SqlFormatter :=
  set_tokens ts (constructor o).

(** The text of a run and the token array it leaves. *)
Definition formatted (o : FormatOptions) (ts : list Token)
    : outcome jsstring :=
  '(q, _) <- getFormattedQueryFromTokens (formatterOn o ts) ;; Ret q.

(** What the loop stores in [this.currentNewline] when it meets the
    command at the head of [ts]. *)
Definition decisionAtHead (o : FormatOptions) (ts : list Token)
    : option bool :=
  match formatToken (formatterOn o ts) [] with
  | Ret (_, f) => Some (currentNewline f)
  | Throw _ => None
  end.

(** The tokenizer on a query whose tokens are [ts]. *)
Definition tokenizerGiving (ts : list Token) : jsstring -> list Token :=
  fun _ => ts.

Abbreviation formatExample o ts query :=
  (format (tokenizerGiving ts) (@constructor Indentation InlineBlock Params
                                  _ _ _ o) (lit query)).

Definition selectTwoFormatted : jsstring := lit "SELECT
  a,
  b
FROM
  t".

(** The formatted queries of the examples. *)
Definition betweenFormatted : jsstring := lit "SELECT
  *
FROM
  t
WHERE
  a BETWEEN 1 AND 2".

Definition betweenSumFormatted : jsstring := lit "SELECT
  *
FROM
  t
WHERE
  a BETWEEN b + 1
  AND 2".

Definition twoStatementsFormatted : jsstring := lit "SELECT
  1;

SELECT
  2".

(* ================================================================== *)
(** ** Predicates of the properties *)
(* ================================================================== *)

Definition isSmallLetter (c : char16) : bool := ((97 <=? c) && (c <=? 122))%N.
Definition isCapitalLetter (c : char16) : bool := ((65 <=? c) && (c <=? 90))%N.

(** No small letter in [s]; [s.toUpperCase() === s]. *)
Definition isUpperCase (s : jsstring) : bool :=
  forallb (fun c => negb (isSmallLetter c)) s.
Definition isLowerCase (s : jsstring) : bool :=
  forallb (fun c => negb (isCapitalLetter c)) s.

(** The kinds [show] changes the case of. *)
Definition cased (t : Token) : bool :=
  isReserved t
  || TokenType_eqb (type t) BLOCK_START
  || TokenType_eqb (type t) BLOCK_END.

Section TokenArrayDefinitions.

Context {I B P : Type}.
Context {io : IndentationOps I} {bo : InlineBlockOps B} {po : ParamsOps P}.

(** What the loop leaves in the array at the place of [t]: the token that
    [tenSpacedToken] assigned to when [t] is reserved and not a plain
    keyword, [t] as it was otherwise. *)
Definition padded (f : Formatter I B P) (t : Token) : Token :=
  if isReserved t && negb (TokenType_eqb (type t) RESERVED_KEYWORD)
  then tenSpacedToken f t
  else t.

(** [g] has the configuration, the index and the token array of [f]. *)
Definition sameArray (f g : Formatter I B P) : Prop :=
  cfg g = cfg f /\ index g = index f /\ tokens g = tokens f.

End TokenArrayDefinitions.

(* ================================================================== *)
(** ** The runs of the post-format passes *)
(* ================================================================== *)

(** The lines a scan takes after [cur] and the lines it leaves: the lines
    of [rest] up to and with the first one that does not end in a comma;
    [None] when the scan reads past the last line. *)
Fixpoint collect (cur : jsstring) (rest : list jsstring)
    : option (list jsstring * list jsstring) :=
  if endsWithComma cur then
    match rest with
    | [] => None
    | next :: rest' =>
        match collect next rest' with
        | Some (more, after) => Some (next :: more, after)
        | None => None
        end
    end
  else Some ([], rest).

(** The text of an array of lines, a hole read as the empty line. *)
Definition lineTexts (ls : list (option jsstring)) : list jsstring :=
  map (fun l => match l with Some s => s | None => [] end) ls.

(** Every line of an array of lines is made of code units that satisfy
    [Q]. *)
Definition linesSatisfy (Q : char16 -> Prop) (out : list (option jsstring))
    : Prop :=
  Forall (Forall Q) (lineTexts out).

(** A line of a tabular run, padded to the width [M] and with its comma
    back. *)
Definition padComma (M : Z) (commaLine : jsstring) : jsstring :=
  commaLine ++ repeat_str [SPACE] (Z.to_nat (M - len commaLine)) ++ [COMMA].

(** The lines of a tabular run of width [M]: each but the last one is
    padded. *)
Fixpoint tabulate (M : Z) (commaLines : list jsstring) : list jsstring :=
  match commaLines with
  | [] => []
  | commaLine :: rest =>
      match rest with
      | [] => [commaLine]
      | _ :: _ => padComma M commaLine :: tabulate M rest
      end
  end.

(** A line the alias pass copies: it does not start with SELECT, or it is
    a SELECT with its first column on the line and no comma at its end. *)
Definition outsideAliasRun (line : jsstring) : bool :=
  negb (startsSelect line)
  || (negb (endsWithComma line) && selectWithBody line).

(** Texts for the passes. *)
Definition selectAliases : jsstring := lit "SELECT
  a AS x,
  bb AS yy
FROM".

Definition selectAliasesOnce : jsstring := lit "SELECT
  a  AS x,
  bb AS yy
FROM".

Definition selectAliasesTwice : jsstring := lit "SELECT
  a  AS x,
  bb    AS yy
FROM".

Definition twoRuns : jsstring := lit "  a,
  b
  c,
  d".

Definition twoRunsOnce : jsstring := lit "  a
, b
  c,
  d".

Definition twoRunsTwice : jsstring := lit "  a
, b
  c
, d
".

Definition selectColumns : jsstring := lit "SELECT
  a,
  bbb,
  c
FROM".

Definition selectColumnsTabular : jsstring := lit "SELECT
  a  ,
  bbb,
  c
FROM".

(* ================================================================== *)
(** ** The tokenizer, from the design document *)
(* ================================================================== *)

(** Modelled from the spec: the module of [Tokenizer] is missing, and so
    are the keyword tables of the dialects. "Scans left to right"; "each
    emitted token records the exact original leading whitespace (including
    newlines)"; reserved words are "case-insensitive, matched against a
    per-dialect keyword list partitioned into the RESERVED_* kinds";
    "unmatched input is classified as a plain WORD". The model reads
    queries made of words and white space, with the keyword list
    [keywords] in lower case; the other lexical rules (comments, strings,
    placeholders, numbers, operators, brackets) are not in it. *)
Definition classify (keywords : list (string * TokenType)) (word : jsstring)
    : TokenType :=
  match find (fun k => eqs (lit (fst k)) (toLowerCase word)) keywords with
  | Some k => snd k
  | None => WORD
  end.

Definition emit (keywords : list (string * TokenType)) (ws word : jsstring)
    : Token :=
  mkToken word (classify keywords word) None (Some ws).

(** [ws] is the white space read since the last token and [word] the word
    being read. *)
Fixpoint scanWords (keywords : list (string * TokenType))
    (ws word : jsstring) (s : jsstring) : list Token :=
  match s with
  | [] =>
      match word with
      | [] => []
      | _ :: _ => [emit keywords ws word]
      end
  | c :: s' =>
      if is_space c then
        match word with
        | [] => scanWords keywords (ws ++ [c]) [] s'
        | _ :: _ => emit keywords ws word :: scanWords keywords [c] [] s'
        end
      else scanWords keywords ws (word ++ [c]) s'
  end.

Definition tokenizeWords (keywords : list (string * TokenType))
    (query : jsstring) : list Token :=
  scanWords keywords [] [] query.

(** The commands of the examples. *)
Definition exampleKeywords : list (string * TokenType) :=
  [ ("select", RESERVED_COMMAND); ("from", RESERVED_COMMAND);
    ("where", RESERVED_COMMAND) ]%string.

Definition withLineWidth (w : Z) (o : FormatOptions) : FormatOptions :=
  Build_FormatOptions (indent o) (uppercase o) (keywordPosition o)
    (breakBeforeBooleanOperator o) (aliasAs o) (tabulateAlias o)
    (commaPosition o) (newline o) (parenOptions o) w
    (linesBetweenQueries o) (denseOperators o) (semicolonNewline o)
    (cfg_params o).

(** [format] of the formatter of a dialect with the keywords above. *)
Abbreviation formatWords o query :=
  (format (tokenizeWords exampleKeywords)
     (@constructor Indentation InlineBlock Params _ _ _ o) query).

Definition wideQuery : jsstring := lit "select a      from t where b".

Definition wideQueryOnce : jsstring := lit "SELECT a
FROM
  t
WHERE b".

Definition wideQueryTwice : jsstring := lit "SELECT a
FROM t
WHERE b".

Definition plainQuery : jsstring := lit "select a from t where b".

Definition plainQueryFormatted : jsstring := lit "SELECT
  a
FROM
  t
WHERE
  b".

(* ================================================================== *)
(** ** Tokens up to white space and the case of keywords *)
(* ================================================================== *)

(** A token without its recorded white space and, when [show] adjusts its
    case, with its text in lower case. *)
Definition norm (t : Token) : Token :=
  mkToken (if cased t then toLowerCase (value t) else value t)
    (type t) (key t) None.

(** Neither a block start nor a placeholder. *)
Definition plainKind (t : Token) : bool :=
  negb (TokenType_eqb (type t) BLOCK_START)
  && negb (TokenType_eqb (type t) PLACEHOLDER).

(** The modes in which the newline decision does not measure widths. *)
Definition plainMode (n : Newline) : bool :=
  match n with
  | newline_always | newline_never => true
  | _ => false
  end.

Definition noLetter (c : char16) : bool :=
  negb (isSmallLetter c) && negb (isCapitalLetter c).

Section Normalized.

Context {I B P : Type}.
Context {io : IndentationOps I} {bo : InlineBlockOps B} {po : ParamsOps P}.

(** The formatter on the normalized array. *)
Definition normalized (f : Formatter I B P) : Formatter I B P :=
  set_tokens (map norm (tokens f)) f.

Definition mapState (g : Formatter I B P -> Formatter I B P)
    (r : outcome (jsstring * Formatter I B P))
    : outcome (jsstring * Formatter I B P) :=
  match r with
  | Ret (q, f) => Ret (q, g f)
  | Throw e => Throw e
  end.

End Normalized.

(** The text that [tenSpacedToken] assigns to the value [v] of a token in
    the ten-space modes. *)
Definition tenSpacedValue (cfg : FormatOptions) (v : jsstring) : jsstring :=
  let '(bufferItem, tail) :=
    if (10 <=? len v) && includes v [SPACE]
    then match split_space v with
         | b :: tl => (b, tl)
         | [] => (v, [])
         end
    else (v, []) in
  match keywordPosition cfg with
  | tenSpaceLeft => bufferItem ++ addBuffer bufferItem
  | _ => addBuffer bufferItem ++ bufferItem
  end ++ join_space ([] :: tail).

(* ================================================================== *)
(** ** Vocabulary of the further properties *)
(* ================================================================== *)

(** The code units of [s] that are not zero-width spaces. *)
Definition withoutZWS (s : jsstring) : jsstring :=
  filter (fun c => negb (N.eqb c ZWS)) s.

(** No white space in [s] but single spaces: no code unit of [\s] other
    than a space, and no space right after a space. *)
Fixpoint singleSpaced_from (afterSpace : bool) (s : jsstring) : bool :=
  match s with
  | [] => true
  | c :: s' =>
      if is_space c
      then N.eqb c SPACE && negb afterSpace && singleSpaced_from true s'
      else singleSpaced_from false s'
  end.

Definition singleSpaced (s : jsstring) : bool := singleSpaced_from false s.

(** No code unit of the class [spaces] of [testToken]. *)
Definition noSpaces (s : jsstring) : bool :=
  forallb (fun c => negb (is_spaces c)) s.

(** The token of a statement separator: an operator whose text is [;]. *)
Definition isSeparator (t : Token) : bool :=
  TokenType_eqb (type t) OPERATOR && eqs (value t) (lit ";").

(** What is left of a text without its white space (zero-width spaces
    too) and with its letters in lower case. *)
Definition content (s : jsstring) : jsstring :=
  filter (fun c => negb (is_spaces c)) (toLowerCase s).

(** What a turn of the loop adds to the content of the text for the token
    [t]: the token's own; nothing, for an AS that the mode of aliases
    leaves out; an AS in front of the token's own, for a word that the
    mode of aliases gives one; for a placeholder, what [params.get]
    returns. *)
Inductive written (cfg : FormatOptions) (t : Token) : jsstring -> Prop :=
| written_as_it_is :
    (aliasAs cfg = alias_never -> isToken.AS (Some t) = false) ->
    written cfg t (content (value t))
| written_AS_left_out :
    aliasAs cfg <> alias_always -> isToken.AS (Some t) = true ->
    written cfg t []
| written_AS_put_in :
    aliasAs cfg <> alias_never -> type t = WORD ->
    written cfg t (content (lit "AS") ++ content (value t))
| written_parameter (text : jsstring) :
    type t = PLACEHOLDER -> written cfg t (content text).

(** A property of indentations that the operations of the class keep and
    under which the indentation of a new line is white space. *)
Definition keepsWhite {I : Type} {io : IndentationOps I}
    (white : I -> Prop) : Prop :=
  (forall i, white i -> forallb is_spaces (getIndent i) = true)
  /\ (forall i, white i ->
        white (increaseTopLevel i) /\ white (increaseBlockLevel i)
        /\ white (decreaseTopLevel i) /\ white (decreaseBlockLevel i)
        /\ white (resetIndentation i)).

(** The indentations of the examples whose unit is white space. *)
Definition whiteUnit (i : Indentation) : Prop :=
  forallb is_spaces (indentUnit i) = true.

Definition withAliasAs (a : AliasMode) (o : FormatOptions) : FormatOptions :=
  Build_FormatOptions (indent o) (uppercase o) (keywordPosition o)
    (breakBeforeBooleanOperator o) a (tabulateAlias o) (commaPosition o)
    (newline o) (parenOptions o) (lineWidth o) (linesBetweenQueries o)
    (denseOperators o) (semicolonNewline o) (cfg_params o).

(** The text of a token that is not an AS keyword. *)
Definition notAS (t : Token) : bool := negb (isToken.AS (Some t)).

(** The line starts with a code unit of white space: [WHITESPACE_REGEX]
    matches it. *)
Definition startsWithSpace (line : jsstring) : bool :=
  match line with
  | c :: _ => is_space c
  | [] => false
  end.

Definition withIndent (i : jsstring) (o : FormatOptions) : FormatOptions :=
  Build_FormatOptions i (uppercase o) (keywordPosition o)
    (breakBeforeBooleanOperator o) (aliasAs o) (tabulateAlias o)
    (commaPosition o) (newline o) (parenOptions o) (lineWidth o)
    (linesBetweenQueries o) (denseOperators o) (semicolonNewline o)
    (cfg_params o).

(** The index of the last reserved token among [ts], which are the tokens
    from the index [i] on; [r] when there is none. *)
Fixpoint lastReserved (i : nat) (ts : list Token) (r : option nat)
    : option nat :=
  match ts with
  | [] => r
  | t :: ts' => lastReserved (S i) ts' (if isReserved t then Some i else r)
  end.

(** Whether the last command among [ts] is a SELECT; [b] when there is no
    command. *)
Fixpoint lastCommandIsSelect (ts : list Token) (b : bool) : bool :=
  match ts with
  | [] => b
  | t :: ts' =>
      lastCommandIsSelect ts'
        (if TokenType_eqb (type t) RESERVED_COMMAND
         then isToken.SELECT (Some t) else b)
  end.

(** The contents of the lines of a text, one after the other. *)
Definition contents (lines : list jsstring) : jsstring :=
  concat (map content lines).

Definition withTabulateAlias (b : bool) (o : FormatOptions) : FormatOptions :=
  Build_FormatOptions (indent o) (uppercase o) (keywordPosition o)
    (breakBeforeBooleanOperator o) (aliasAs o) b (commaPosition o)
    (newline o) (parenOptions o) (lineWidth o) (linesBetweenQueries o)
    (denseOperators o) (semicolonNewline o) (cfg_params o).

(* ================================================================== *)
(** ** The editor extension

    [provideDocumentFormattingEdits] builds the options of [format] from
    the settings and the formatting options of the editor. *)
(* ================================================================== *)

Module Extension.

(** [const indent = insertSpaces ? ' '.repeat(tabSize) : '\t'], for an
    integer [tabSize]; [repeat] raises a RangeError on a negative count. *)
Definition indentOf (insertSpaces : bool) (tabSize : Z) : outcome jsstring :=
  if insertSpaces
  then if tabSize <? 0 then Throw RangeError
       else Ret (repeat_str [SPACE] (Z.to_nat tabSize))
  else Ret [TAB].

End Extension.

(* ================================================================== *)
(** ** The newline decision: proofs *)
(* ================================================================== *)

Section Lists.

Context {A : Type} (p : A -> bool).

Lemma findIndex_found (l : list A) :
  existsb p l = true ->
  findIndex p l = Z.of_nat (length (takeUntil p l)).
Proof.
  induction l as [|x l IH]; simpl; [discriminate|].
  destruct (p x); simpl; [reflexivity|].
  intros H. rewrite (IH H).
  destruct (Z.ltb_spec (Z.of_nat (length (takeUntil p l))) 0); lia.
Qed.

Lemma firstn_takeUntil (l : list A) :
  firstn (length (takeUntil p l)) l = takeUntil p l.
Proof.
  induction l as [|x l IH]; simpl; [reflexivity|].
  destruct (p x); simpl; [reflexivity|]. now rewrite IH.
Qed.

Lemma takeUntil_length (l : list A) :
  (length (takeUntil p l) <= length l)%nat.
Proof.
  induction l as [|x l IH]; simpl; [lia|]. destruct (p x); simpl; lia.
Qed.

End Lists.

Lemma nextTokens_clauseSpan (tokens : list Token) (index : nat) :
  terminated tokens index ->
  nextTokens tokens index = clauseSpan tokens index.
Proof.
  unfold terminated, nextTokens, clauseSpan.
  destruct (skipn (index + 1) tokens) as [|t tail] eqn:E.
  - reflexivity.
  - intros [H|H]; [discriminate|].
    unfold slice0. rewrite (findIndex_found _ _ H).
    pose proof (takeUntil_length clauseEnd (t :: tail)) as L.
    destruct (Z.ltb_spec (Z.of_nat (length (takeUntil clauseEnd (t :: tail)))) 0);
      [lia|].
    rewrite Z.min_l by lia. rewrite Nat2Z.id. apply firstn_takeUntil.
Qed.

(** The flag of [numItems] and the depth counter agree as long as no
    bracket opens inside another one. *)
Lemma countItem_countAtDepth (span : list Token) :
  forall (acc : ItemAcc) (dacc : DepthAcc),
    count acc = items dacc ->
    inParen acc = negb (depth dacc =? 0)%nat ->
    (depth dacc <= 1)%nat ->
    shallow (depth dacc) span = true ->
    count (fold_left countItem span acc)
    = items (fold_left countAtDepth span dacc).
Proof.
  induction span as [|t span IH]; intros acc dacc Hc Hp Hd Hs; simpl.
  - exact Hc.
  - simpl in Hs. apply andb_true_iff in Hs. destruct Hs as [Hle Hs].
    apply Nat.leb_le in Hle.
    assert (Hdep : depth (countAtDepth {| items := 0; depth := depth dacc |} t)
                   = depth (countAtDepth dacc t)).
    { unfold countAtDepth; simpl.
      destruct (isComma t && (depth dacc =? 0)%nat); [reflexivity|].
      destruct (TokenType_eqb (type t) BLOCK_START); [reflexivity|].
      destruct (TokenType_eqb (type t) BLOCK_END); reflexivity. }
    rewrite Hdep in Hle, Hs.
    apply IH; try assumption.
    + unfold countItem, countAtDepth. rewrite Hp, negb_involutive.
      destruct (isComma t && (depth dacc =? 0)%nat); simpl; [lia|].
      destruct (TokenType_eqb (type t) BLOCK_START); simpl; [assumption|].
      destruct (TokenType_eqb (type t) BLOCK_END); simpl; assumption.
    + unfold countItem, countAtDepth. rewrite Hp, negb_involutive.
      destruct (isComma t && (depth dacc =? 0)%nat); simpl; [reflexivity|].
      destruct (TokenType_eqb (type t) BLOCK_START); simpl; [reflexivity|].
      destruct (TokenType_eqb (type t) BLOCK_END); simpl.
      * destruct (depth dacc) as [|[|d]]; simpl; try reflexivity; lia.
      * assumption.
Qed.

Lemma numItems_itemCount (span : list Token) :
  shallow 0 span = true -> numItems span = itemCount span.
Proof.
  intros H. unfold numItems, itemCount.
  apply countItem_countAtDepth; simpl; auto.
Qed.

(** A CASE is a block start of more than one code unit. *)
Lemma CASE_longBlockStart (t : Token) :
  isToken.CASE (Some t) = true -> longBlockStart t = true.
Proof.
  unfold isToken.CASE, testToken, longBlockStart.
  intros H. apply andb_true_iff in H. destruct H as [Ht Hv].
  rewrite Ht. simpl.
  unfold dropWhileEnd in Hv.
  assert (L : forall q s, (length (dropWhile q s) <= length s)%nat).
  { intros q s. induction s as [|c s IH]; simpl; [lia|].
    destruct (q c); simpl; lia. }
  pose proof (L is_spaces (value t)) as L1.
  pose proof (L is_spaces (rev (dropWhile is_spaces (value t)))) as L2.
  rewrite length_rev in L2.
  remember (rev (dropWhile is_spaces (rev (dropWhile is_spaces (value t)))))
    as core eqn:Ec.
  assert (Lc : (length core <= length (value t))%nat).
  { subst core. rewrite length_rev. lia. }
  destruct core as [|c1 [|c2 core]]; simpl in Hv;
    try discriminate;
    try (rewrite andb_false_r in Hv; discriminate).
  simpl in Lc. unfold len. apply Z.ltb_lt. lia.
Qed.

(** The decision in the mode [never], whatever the span. *)
Lemma checkNewline_never (tokens : list Token) (ws : bool) (lw : Z)
    (index : nat) :
  checkNewline tokens newline_never ws lw index
  = Ret (ws && existsb longBlockStart (nextTokens tokens index)).
Proof.
  unfold checkNewline. simpl.
  destruct (ws && existsb longBlockStart (nextTokens tokens index));
    reflexivity.
Qed.

(** C2, as the code has it: in the mode [never] the heuristic decides to
    wrap a clause exactly when the clause is the one of a SELECT
    ([withinSelect]) and its span, up to the command, binary command or
    separator that closes it, holds a block start of more than one code
    unit, as CASE is; every other clause is not wrapped. *)
Theorem never_wraps_only_select_with_case
    (tokens : list Token) (ws : bool) (lw : Z) (index : nat) :
  terminated tokens index ->
  checkNewline tokens newline_never ws lw index
  = Ret (ws && existsb longBlockStart (clauseSpan tokens index)).
Proof.
  intros H. rewrite checkNewline_never.
  now rewrite (nextTokens_clauseSpan H).
Qed.

Lemma never_wraps_only_select_with_case_witness :
  terminated selectCase 0
  /\ checkNewline selectCase newline_never true 50 0
     = Ret (true && existsb longBlockStart (clauseSpan selectCase 0)).
Proof.
  assert (H : terminated selectCase 0) by (right; reflexivity).
  split; [exact H|].
  exact (@never_wraps_only_select_with_case selectCase true 50 0%nat H).
Defined.

(** C2 as stated fails: the clause of a WHERE holds a CASE block and the
    mode [never] still decides not to wrap it. *)
Lemma never_mode_ignores_case_outside_select :
  hasCase (clauseSpan whereCase 0) = true
  /\ decisionAtHead (withNewline newline_never exampleOptions) whereCase
     = Some false.
Proof. split; vm_compute; reflexivity. Qed.




(* ================================================================== *)
(** ** The output contract of [format] *)
(* ================================================================== *)

Lemma dropWhile_head (p : char16 -> bool) (s t : jsstring) (c : char16) :
  dropWhile p s = c :: t -> p c = false.
Proof.
  induction s as [|x s IH]; simpl; [discriminate|].
  destruct (p x) eqn:E; [exact IH|].
  intros H. injection H as -> _. exact E.
Qed.

Lemma dropWhile_suffix (p : char16 -> bool) (s : jsstring) :
  exists pre, s = pre ++ dropWhile p s.
Proof.
  induction s as [|x s [pre IH]]; simpl.
  - now exists [].
  - destruct (p x).
    + exists (x :: pre). simpl. now f_equal.
    + now exists [].
Qed.

Lemma dropWhileEnd_prefix (p : char16 -> bool) (s : jsstring) :
  exists post, s = dropWhileEnd p s ++ post.
Proof.
  unfold dropWhileEnd.
  destruct (dropWhile_suffix p (rev s)) as [pre H].
  exists (rev pre).
  rewrite <- rev_app_distr, <- H. symmetry. apply rev_involutive.
Qed.

Lemma dropWhileEnd_last (p : char16 -> bool) (s t : jsstring) (c : char16) :
  dropWhileEnd p s = t ++ [c] -> p c = false.
Proof.
  unfold dropWhileEnd. intros H.
  apply (f_equal (@rev char16)) in H.
  rewrite rev_involutive, rev_app_distr in H. simpl in H.
  exact (dropWhile_head _ _ H).
Qed.

(** C4: the string [format] returns does not start with a line break and
    does not end with white space, so with no line break either: leading
    blank lines and trailing white space are stripped and no trailing
    newline is added. *)
Theorem format_output_is_stripped
    {I B P : Type} {io : IndentationOps I} {bo : InlineBlockOps B}
    {po : ParamsOps P} (tokenize : jsstring -> list Token)
    (f : Formatter I B P) (query r : jsstring) :
  format tokenize f query = Ret r ->
  (forall s, r <> LF :: s)
  /\ (forall s c, r = s ++ [c] -> is_space c = false)
  /\ stripLeadingNewlines r = r
  /\ trimEnd r = r.
Proof.
  unfold format. intros H.
  destruct (getFormattedQueryFromTokens (set_tokens (tokenize query) f))
    as [[q f']|e]; simpl in H; [|discriminate].
  destruct (postFormat f' q) as [final|e]; simpl in H; [|discriminate].
  injection H as <-.
  set (y := stripLeadingNewlines final).
  assert (Hhead : forall s, trimEnd y <> LF :: s).
  { intros s E.
    destruct (dropWhileEnd_prefix is_space y) as [post Hy].
    fold (trimEnd y) in Hy. rewrite E in Hy. simpl in Hy.
    unfold y, stripLeadingNewlines in Hy.
    apply dropWhile_head in Hy. now rewrite N.eqb_refl in Hy. }
  assert (Hlast : forall s c, trimEnd y = s ++ [c] -> is_space c = false).
  { intros s c E. eapply dropWhileEnd_last. exact E. }
  split; [exact Hhead|]. split; [exact Hlast|]. split.
  - unfold stripLeadingNewlines.
    destruct (trimEnd y) as [|c s] eqn:E; [reflexivity|].
    cbn [dropWhile].
    destruct (N.eqb_spec LF c) as [<-|]; [|reflexivity].
    now destruct (Hhead s).
  - unfold trimEnd at 1, dropWhileEnd.
    destruct (rev (trimEnd y)) as [|c s] eqn:E.
    + apply (f_equal (@rev char16)) in E. rewrite rev_involutive in E.
      now rewrite E.
    + apply (f_equal (@rev char16)) in E. rewrite rev_involutive in E.
      simpl in E. cbn [dropWhile]. rewrite (Hlast _ _ E).
      simpl. now rewrite E.
Qed.

Lemma format_output_is_stripped_witness :
  formatExample exampleOptions selectTwo "select a,b from t"
  = Ret selectTwoFormatted
  /\ stripLeadingNewlines selectTwoFormatted = selectTwoFormatted
  /\ trimEnd selectTwoFormatted = selectTwoFormatted.
Proof.
  assert (H : formatExample exampleOptions selectTwo "select a,b from t"
              = Ret selectTwoFormatted) by (vm_compute; reflexivity).
  split; [exact H|].
  exact (proj2 (proj2 (format_output_is_stripped _ _ _ H))).
Defined.

(* ================================================================== *)
(** ** Casing *)
(* ================================================================== *)

Lemma toUpperCase_isUpperCase (s : jsstring) :
  isUpperCase (toUpperCase s) = true.
Proof.
  induction s as [|c s IH]; simpl; [reflexivity|].
  rewrite IH, andb_true_r.
  unfold upper_char, isSmallLetter.
  destruct ((97 <=? c) && (c <=? 122))%N eqn:E.
  - apply andb_true_iff in E. destruct E as [E1 E2].
    apply N.leb_le in E1, E2.
    apply negb_true_iff, andb_false_iff. left. apply N.leb_gt. lia.
  - now rewrite E.
Qed.

Lemma toLowerCase_isLowerCase (s : jsstring) :
  isLowerCase (toLowerCase s) = true.
Proof.
  induction s as [|c s IH]; simpl; [reflexivity|].
  rewrite IH, andb_true_r.
  unfold lower_char, isCapitalLetter.
  destruct ((65 <=? c) && (c <=? 90))%N eqn:E.
  - apply andb_true_iff in E. destruct E as [E1 E2].
    apply N.leb_le in E1, E2.
    apply negb_true_iff, andb_false_iff. right. apply N.leb_gt. lia.
  - now rewrite E.
Qed.

Lemma isUpperCase_fixed (s : jsstring) :
  isUpperCase s = true -> toUpperCase s = s.
Proof.
  induction s as [|c s IH]; simpl; [reflexivity|].
  intros H. apply andb_true_iff in H. destruct H as [Hc Hs].
  rewrite (IH Hs). unfold upper_char. unfold isSmallLetter in Hc.
  apply negb_true_iff in Hc. now rewrite Hc.
Qed.

Lemma isLowerCase_fixed (s : jsstring) :
  isLowerCase s = true -> toLowerCase s = s.
Proof.
  induction s as [|c s IH]; simpl; [reflexivity|].
  intros H. apply andb_true_iff in H. destruct H as [Hc Hs].
  rewrite (IH Hs). unfold lower_char. unfold isCapitalLetter in Hc.
  apply negb_true_iff in Hc. now rewrite Hc.
Qed.

Lemma equalizeWhitespace_forallb (p : char16 -> bool) (s : jsstring) :
  p SPACE = true -> forallb p s = true ->
  forallb p (equalizeWhitespace s) = true.
Proof.
  intros Hp. unfold equalizeWhitespace. generalize false.
  induction s as [|c s IH]; intros b H; simpl; [reflexivity|].
  simpl in H. apply andb_true_iff in H. destruct H as [Hc Hs].
  destruct (is_space c).
  - destruct b; simpl; rewrite ?Hp; now apply IH.
  - simpl. rewrite Hc. now apply IH.
Qed.


(* ================================================================== *)
(** ** AND after BETWEEN *)
(* ================================================================== *)

(** C6, as the code has it: when BETWEEN is the token two places before
    the AND, that is when its first operand is one token, the AND is
    appended to the text as it stands, case-adjusted and followed by one
    space: no white space is trimmed, no line break is written and the
    indentation is left alone. The query of the example is formatted with
    [BETWEEN 1 AND 2] on its last line. *)
Theorem and_after_between_operand_is_inline :
  (forall (I B P : Type) (io : IndentationOps I) (bo : InlineBlockOps B)
          (po : ParamsOps P) (f : Formatter I B P) (token : Token)
          (query : jsstring),
      isToken.AND (Some token) = true ->
      isToken.BETWEEN (tokenLookBehind f 2) = true ->
      formatLogicalOperator f token query
      = (query ++ show f token ++ [SPACE], f))
  /\ formatExample exampleOptions betweenQuery
       "select * from t where a between 1 and 2"
     = Ret betweenFormatted.
Proof.
  split.
  - intros I B P io bo po f token query Hand Hbetween.
    unfold formatLogicalOperator. now rewrite Hand, Hbetween.
  - vm_compute; reflexivity.
Qed.

(** The AND of the example, met by the loop at index 8 with the text of
    the seven tokens before it already written. *)
Lemma and_after_between_operand_is_inline_witness :
  let f : SqlFormatter := set_index 8 (formatterOn exampleOptions betweenQuery) in
  let token := tok RESERVED_LOGICAL_OPERATOR " " "and" in
  isToken.AND (Some token) = true
  /\ isToken.BETWEEN (tokenLookBehind f 2) = true
  /\ formatLogicalOperator f token (lit "a BETWEEN 1 ")
     = (lit "a BETWEEN 1 AND ", f).
Proof.
  intros f token.
  assert (H1 : isToken.AND (Some token) = true) by reflexivity.
  assert (H2 : isToken.BETWEEN (tokenLookBehind f 2) = true) by reflexivity.
  split; [exact H1|]. split; [exact H2|].
  exact (proj1 and_after_between_operand_is_inline _ _ _ _ _ _
           f token (lit "a BETWEEN 1 ") H1 H2).
Defined.

(** C6 as stated fails: the first operand [b + 1] is three tokens, BETWEEN
    is four places before the AND, and the AND starts a new line. *)
Lemma and_after_longer_operand_breaks_line :
  isToken.BETWEEN (nth_error betweenSum 6) = true
  /\ isToken.AND (nth_error betweenSum 10) = true
  /\ formatExample exampleOptions betweenSum
       "select * from t where a between b + 1 and 2"
     = Ret betweenSumFormatted
  /\ includes betweenSumFormatted (lit "BETWEEN b + 1 AND 2") = false.
Proof. repeat split; vm_compute; reflexivity. Qed.

(* ================================================================== *)
(** ** The statement separator *)
(* ================================================================== *)




(* ================================================================== *)
(** ** The token array during a run *)
(* ================================================================== *)

Section TokenArray.

Context {I B P : Type}.
Context {io : IndentationOps I} {bo : InlineBlockOps B} {po : ParamsOps P}.

Local Abbreviation Formatter := (Formatter I B P).

Lemma Ret_snd {X Y : Type} (x : X * Y) (a : X) (b : Y) :
  Ret x = Ret (a, b) -> b = snd x.
Proof. now intros [= ->]. Qed.

Lemma sameArray_refl (f : Formatter) : sameArray f f.
Proof. repeat split. Qed.

Lemma sameArray_trans (f g h : Formatter) :
  sameArray f g -> sameArray g h -> sameArray f h.
Proof.
  intros (a & b & c) (a' & b' & c'). repeat split; congruence.
Qed.

Lemma formatCommand_frame (f : Formatter) (t : Token) (q : jsstring) :
  sameArray f (snd (formatCommand f t q)).
Proof.
  unfold formatCommand, on_indentation, tokenLookAhead. simpl.
  destruct (tenSpace (cfg f)); simpl.
  - destruct (negb _); simpl; repeat split.
  - destruct (negb _); simpl; destruct (currentNewline f); repeat split.
Qed.

Lemma formatBinaryCommand_frame (f : Formatter) (t : Token) (q : jsstring) :
  sameArray f (snd (formatBinaryCommand f t q)).
Proof.
  unfold formatBinaryCommand, on_indentation. simpl.
  destruct (negb _ || _); simpl; repeat split.
Qed.

Lemma formatLogicalOperator_frame (f : Formatter) (t : Token)
    (q : jsstring) :
  sameArray f (snd (formatLogicalOperator f t q)).
Proof.
  unfold formatLogicalOperator, on_indentation.
  destruct (isToken.AND (Some t) && _); simpl; [repeat split|].
  destruct (tenSpace (cfg f)); simpl;
    destruct (breakBeforeBooleanOperator (cfg f)); simpl; repeat split.
Qed.

Lemma formatBlockStart_frame (f : Formatter) (t : Token) (q : jsstring) :
  sameArray f (snd (formatBlockStart f t q)).
Proof.
  unfold formatBlockStart, on_indentation.
  destruct (isToken.CASE (Some t)); simpl.
  - destruct (negb (isActive (inlineBlock f))); simpl; [|repeat split].
    destruct (match newline (cfg f) with newline_always => true | _ => false end);
      repeat split.
  - destruct (negb (isActive _)); simpl; repeat split.
Qed.

Lemma formatBlockEnd_frame (f : Formatter) (t : Token) (q : jsstring) :
  sameArray f (snd (formatBlockEnd f t q)).
Proof.
  unfold formatBlockEnd, on_indentation.
  destruct (isActive (inlineBlock f)); simpl; repeat split.
Qed.

Lemma formatPlaceholder_frame (f : Formatter) (t : Token) (q : jsstring) :
  sameArray f (snd (formatPlaceholder f t q)).
Proof.
  unfold formatPlaceholder. destruct (params_get t (params f)).
  simpl. repeat split.
Qed.

Lemma formatOperator_frame (f : Formatter) (t : Token) (q q' : jsstring)
    (f' : Formatter) :
  formatOperator f t q = Ret (q', f') -> sameArray f f'.
Proof.
  unfold formatOperator, formatQuerySeparator, on_indentation.
  destruct (eqs (value t) (lit ","));
    [intros [= _ <-]; apply sameArray_refl|].
  destruct (eqs (value t) (lit ";")).
  - destruct (separatorNewlines _); simpl; [|discriminate].
    intros [= _ <-]. repeat split.
  - repeat match goal with
           | |- context [if ?b then _ else _] => destruct b
           end;
      intros [= _ <-]; apply sameArray_refl.
Qed.

Lemma tenSpacedToken_type (f : Formatter) (t : Token) :
  type (tenSpacedToken f t) = type t.
Proof.
  unfold tenSpacedToken. destruct (tenSpace (cfg f)); [|reflexivity].
  destruct ((10 <=? len (value t)) && includes (value t) [SPACE]);
    [destruct (split_space (value t))|]; reflexivity.
Qed.

Lemma padded_type (f : Formatter) (t : Token) : type (padded f t) = type t.
Proof.
  unfold padded. destruct (isReserved t && _); [|reflexivity].
  apply tenSpacedToken_type.
Qed.

Lemma padded_cfg (f g : Formatter) (t : Token) :
  cfg g = cfg f -> padded g t = padded f t.
Proof.
  intros E. unfold padded, tenSpacedToken. now rewrite E.
Qed.

Lemma padded_standard (f : Formatter) (t : Token) :
  tenSpace (cfg f) = false -> padded f t = t.
Proof.
  intros E. unfold padded, tenSpacedToken. rewrite E.
  now destruct (isReserved t && _).
Qed.

Lemma store_same (ts : list Token) (i : nat) (t : Token) :
  nth_error ts i = Some t -> store ts i t = ts.
Proof.
  revert i. induction ts as [|x ts IH]; intros [|i]; simpl;
    try discriminate.
  - now intros [= ->].
  - intros H. now rewrite (IH _ H).
Qed.

Lemma store_split (ts : list Token) (i : nat) (t x : Token) :
  nth_error ts i = Some t ->
  store ts i x = firstn i ts ++ x :: skipn (S i) ts.
Proof.
  revert i. induction ts as [|y ts IH]; intros [|i]; simpl;
    try discriminate.
  - reflexivity.
  - intros H. now rewrite (IH _ H).
Qed.

Lemma nth_error_split (ts : list Token) (i : nat) (t : Token) :
  nth_error ts i = Some t ->
  ts = firstn i ts ++ t :: skipn (S i) ts.
Proof.
  intros H. rewrite <- (@store_split ts i t t H). symmetry.
  now apply store_same.
Qed.

Lemma store_app (done todo : list Token) (t x : Token) :
  store (done ++ t :: todo) (length done) x = done ++ x :: todo.
Proof.
  induction done as [|y done IH]; simpl; [reflexivity|]. now rewrite IH.
Qed.

(** One turn of the loop writes [padded f t] at the index and nothing
    else to the array. *)
Lemma formatToken_frame (f f' : Formatter) (q q' : jsstring) :
  formatToken f q = Ret (q', f') ->
  cfg f' = cfg f /\ index f' = index f
  /\ exists t, nth_error (tokens f) (index f) = Some t
               /\ tokens f' = store (tokens f) (index f) (padded f t).
Proof.
  unfold formatToken, dispatch, markReserved.
  destruct (nth_error (tokens f) (index f)) as [t|] eqn:Ht; [|discriminate].
  unfold tokenOverride.
  (* the state and the token after the test on [isReserved] *)
  set (pre := if isReserved t then _ else _).
  assert (Hpre : cfg (snd pre) = cfg f /\ index (snd pre) = index f
                 /\ tokens (snd pre) = store (tokens f) (index f) (padded f t)
                 /\ fst pre = padded f t).
  { subst pre. unfold padded.
    destruct (isReserved t); simpl.
    - destruct (negb (TokenType_eqb (type t) RESERVED_KEYWORD)); simpl.
      + rewrite tenSpacedToken_type.
        assert (E : tenSpacedToken
                      (set_previousReservedToken (Some (index f)) f) t
                    = tenSpacedToken f t) by reflexivity.
        rewrite E.
        destruct (TokenType_eqb (type t) RESERVED_COMMAND); simpl;
          repeat split.
      + destruct (TokenType_eqb (type t) RESERVED_COMMAND); simpl;
          repeat split; symmetry; now apply store_same.
    - repeat split. symmetry. now apply store_same. }
  destruct pre as [token g]. simpl in Hpre.
  destruct Hpre as (Hc & Hi & Hts & ->).
  intros H.
  assert (S : sameArray g f').
  { destruct (type (padded f t)); simpl in H;
      try (apply Ret_snd in H; subst f').
    - apply sameArray_refl.
    - apply sameArray_refl.
    - repeat split.
    - apply formatLogicalOperator_frame.
    - apply sameArray_refl.
    - apply formatBinaryCommand_frame.
    - destruct (checkNewline _ _ _ _ _); simpl in H; [|discriminate].
      apply Ret_snd in H. subst f'.
      eapply sameArray_trans; [|apply formatCommand_frame].
      repeat split.
    - eapply formatOperator_frame. exact H.
    - apply formatBlockStart_frame.
    - apply formatBlockEnd_frame.
    - apply sameArray_refl.
    - apply sameArray_refl.
    - apply sameArray_refl.
    - apply formatPlaceholder_frame. }
  destruct S as (Sc & Si & St).
  split; [congruence|]. split; [congruence|].
  exists t. split; [reflexivity|]. congruence.
Qed.

Lemma formatTokens_frame (n : nat) :
  forall (f f' : Formatter) (q q' : jsstring) (done todo : list Token),
    tokens f = done ++ todo ->
    index f = length done ->
    formatTokens n f q = Ret (q', f') ->
    cfg f' = cfg f
    /\ tokens f' = done ++ map (padded f) (firstn n todo) ++ skipn n todo.
Proof.
  induction n as [|n IH]; intros f f' q q' done todo Hts Hi H; simpl in H.
  - injection H as _ <-. now split.
  - destruct (formatToken f q) as [[q1 f1]|e] eqn:E; simpl in H;
      [|discriminate].
    destruct (formatToken_frame _ _ E) as (Hc & Hi1 & t & Ht & Hts1).
    rewrite Hts, Hi in Ht, Hts1.
    rewrite nth_error_app2, Nat.sub_diag in Ht by lia.
    destruct todo as [|t0 todo]; [discriminate|].
    injection Ht as ->. rewrite store_app in Hts1.
    apply (IH _ _ _ _ (done ++ [padded f t]) todo) in H.
    + destruct H as [Hc' Hts']. simpl in Hc'. split; [congruence|].
      rewrite Hts'. simpl. rewrite <- app_assoc. simpl.
      do 3 f_equal. apply map_ext. intros a. apply padded_cfg.
      simpl. exact Hc.
    + simpl. rewrite Hts1, <- app_assoc. reflexivity.
    + simpl. rewrite length_app. simpl. lia.
Qed.

(** The array after a run. *)
Lemma getFormattedQueryFromTokens_frame (f f' : Formatter) (q : jsstring) :
  getFormattedQueryFromTokens f = Ret (q, f') ->
  cfg f' = cfg f /\ tokens f' = map (padded f) (tokens f).
Proof.
  unfold getFormattedQueryFromTokens. intros H.
  destruct (formatTokens _ _ _) as [[q1 f1]|e] eqn:E; simpl in H;
    [|discriminate].
  injection H as _ <-.
  apply (formatTokens_frame _ _ _ [] (tokens f)) in E;
    [|reflexivity|reflexivity].
  destruct E as [Hc Hts]. simpl in Hc, Hts. split; [exact Hc|].
  rewrite Hts, firstn_all, skipn_all, app_nil_r.
  apply map_ext. intros a. now apply padded_cfg.
Qed.

Lemma nth_error_store (ts : list Token) (i : nat) (t x : Token) :
  nth_error ts i = Some t -> nth_error (store ts i x) i = Some x.
Proof.
  revert i. induction ts as [|y ts IH]; intros [|i]; simpl;
    try discriminate; auto.
Qed.

Lemma checkNewline_returns (ts : list Token) (nl : Newline) (ws : bool)
    (lw : Z) (i : nat) (t : Token) :
  nth_error ts i = Some t -> exists b, checkNewline ts nl ws lw i = Ret b.
Proof.
  intros H. unfold checkNewline. rewrite H.
  destruct (_ || _); [eauto|]. destruct nl; eauto.
Qed.

Lemma formatOperator_returns (f : Formatter) (t : Token) (q : jsstring) :
  -1 <= linesBetweenQueries (cfg f) ->
  exists r, formatOperator f t q = Ret r.
Proof.
  intros H. unfold formatOperator, formatQuerySeparator, separatorNewlines.
  simpl.
  destruct (eqs (value t) (lit ",")); [eauto|].
  destruct (eqs (value t) (lit ";")).
  - destruct (Z.ltb_spec
                ((if linesBetweenQueries (cfg f) =? 0 then 1
                  else linesBetweenQueries (cfg f)) + 1) 0) as [L|L].
    + destruct (Z.eqb_spec (linesBetweenQueries (cfg f)) 0); lia.
    + simpl. eauto.
  - repeat match goal with
           | |- context [if ?b then _ else _] => destruct b
           end; eauto.
Qed.

(** A turn of the loop at an index of the array returns, for a count of
    lines between queries that [repeat] accepts. *)
Lemma formatToken_returns (f : Formatter) (q : jsstring) :
  (index f < length (tokens f))%nat ->
  -1 <= linesBetweenQueries (cfg f) ->
  exists r, formatToken f q = Ret r.
Proof.
  intros Hi Hn.
  destruct (nth_error (tokens f) (index f)) as [t|] eqn:Ht;
    [|apply nth_error_None in Ht; lia].
  unfold formatToken, dispatch, markReserved. rewrite Ht.
  unfold tokenOverride.
  set (pre := if isReserved t then _ else _).
  assert (Hpre : cfg (snd pre) = cfg f /\ index (snd pre) = index f
                 /\ exists x, nth_error (tokens (snd pre)) (index f) = Some x).
  { subst pre.
    destruct (isReserved t); simpl.
    - destruct (negb (TokenType_eqb (type t) RESERVED_KEYWORD)); simpl.
      + rewrite tenSpacedToken_type.
        destruct (TokenType_eqb (type t) RESERVED_COMMAND); simpl;
          repeat split; eexists; eapply nth_error_store; exact Ht.
      + destruct (TokenType_eqb (type t) RESERVED_COMMAND); simpl;
          repeat split; eauto.
    - repeat split; eauto. }
  destruct pre as [token g]. simpl in Hpre.
  destruct Hpre as (Hc & Hi' & x & Hx).
  destruct (type token); eauto.
  - rewrite Hi'.
    destruct (@checkNewline_returns (tokens g) (newline (cfg g))
                (withinSelect g) (lineWidth (cfg g)) _ _ Hx) as [b ->].
    simpl. eauto.
  - apply formatOperator_returns. now rewrite Hc.
Qed.

Lemma formatTokens_returns (n : nat) :
  forall (f : Formatter) (q : jsstring),
    (index f + n <= length (tokens f))%nat ->
    -1 <= linesBetweenQueries (cfg f) ->
    exists r, formatTokens n f q = Ret r.
Proof.
  induction n as [|n IH]; intros f q Hi Hn; simpl; [eauto|].
  destruct (@formatToken_returns f q) as [[q1 f1] E]; [lia|assumption|].
  rewrite E. simpl.
  destruct (formatToken_frame _ _ E) as (Hc & Hi1 & t & Ht & Hts).
  apply IH; simpl.
  - rewrite Hi1, Hts.
    assert (L : length (store (tokens f) (index f) (padded f t))
                = length (tokens f)).
    { rewrite (@store_split _ _ t _ Ht).
      rewrite (@nth_error_split _ _ t Ht) at 3.
      now rewrite !length_app. }
    lia.
  - now rewrite Hc.
Qed.

End TokenArray.

(** C8, as the code has it: a run never changes the kind, the key or the
    recorded white space of a token, and with the standard keyword position
    it leaves the token array as the tokenizer made it; in the ten-space
    modes the array holds, for each reserved token that is not a plain
    keyword, the padded text that [tenSpacedToken] assigned to its
    [value]. *)
Theorem run_keeps_token_kinds
    {I B P : Type} {io : IndentationOps I} {bo : InlineBlockOps B}
    {po : ParamsOps P} (f f' : Formatter I B P) (q : jsstring) :
  getFormattedQueryFromTokens f = Ret (q, f') ->
  tokens f' = map (padded f) (tokens f)
  /\ map type (tokens f') = map type (tokens f)
  /\ map key (tokens f') = map key (tokens f)
  /\ map whitespaceBefore (tokens f') = map whitespaceBefore (tokens f)
  /\ (tenSpace (cfg f) = false -> tokens f' = tokens f).
Proof.
  intros H. destruct (getFormattedQueryFromTokens_frame _ H) as [_ Hts].
  split; [exact Hts|]. rewrite Hts, !map_map.
  assert (K : forall t, key (padded f t) = key t
                        /\ whitespaceBefore (padded f t) = whitespaceBefore t).
  { intros t. unfold padded, tenSpacedToken.
    destruct (isReserved t && _); [|now split].
    destruct (tenSpace (cfg f)); [|now split].
    destruct ((10 <=? len (value t)) && includes (value t) [SPACE]);
      [destruct (split_space (value t))|]; now split. }
  repeat split.
  - apply map_ext. intros t. apply padded_type.
  - apply map_ext. intros t. apply K.
  - apply map_ext. intros t. apply K.
  - intros E. rewrite <- (map_id (tokens f)) at 2.
    apply map_ext. intros t. now apply padded_standard.
Qed.

Lemma run_keeps_token_kinds_witness :
  match getFormattedQueryFromTokens (formatterOn exampleOptions selectTwo) with
  | Ret (_, f') => map type (tokens f') = map type selectTwo
  | Throw _ => False
  end.
Proof.
  destruct (getFormattedQueryFromTokens (formatterOn exampleOptions selectTwo))
    as [[q f']|e] eqn:E.
  - exact (proj1 (proj2 (run_keeps_token_kinds _ E))).
  - vm_compute in E. discriminate E.
Defined.

(** C8 as stated fails: in the ten-space modes the tokens of the array are
    written to. After the run on [select a,b from t] the values of SELECT
    and FROM in the array carry their padding of zero-width spaces. *)
Lemma ten_space_run_writes_token_values :
  match getFormattedQueryFromTokens
          (formatterOn (withKeywordPosition tenSpaceLeft exampleOptions)
             selectTwo) with
  | Ret (_, f') => map value (tokens f')
  | Throw _ => []
  end
  = [ lit "select" ++ [ZWS; ZWS; ZWS]; lit "a"; lit ","; lit "b";
      lit "from" ++ [ZWS; ZWS; ZWS; ZWS; ZWS]; lit "t" ]
  /\ map value selectTwo
     = [ lit "select"; lit "a"; lit ","; lit "b"; lit "from"; lit "t" ].
Proof. split; vm_compute; reflexivity. Qed.

(* ================================================================== *)
(** ** The post-format passes: proofs *)
(* ================================================================== *)

Section ScanRun.

Variable process : list jsstring -> outcome (list jsstring).
Variable continue : list jsstring -> outcome (list (option jsstring)).

(** The scan of a run, by the lines it takes. *)
Lemma scanRun_collect (rest : list jsstring) :
  forall (cur : jsstring) (run : list jsstring),
    scanRun process continue cur run rest
    = match collect cur rest with
      | None => Throw TypeError
      | Some (more, after) =>
          run' <- process (run ++ more) ;;
          match after with
          | [] => Ret (map Some run' ++ [None])
          | next :: rest' =>
              newQuery <- continue rest' ;;
              Ret (map Some run' ++ Some next :: newQuery)
          end
      end.
Proof.
  induction rest as [|next rest IH]; intros cur run; simpl.
  - destruct (endsWithComma cur); [reflexivity|]. now rewrite app_nil_r.
  - destruct (endsWithComma cur).
    + rewrite IH. destruct (collect next rest) as [[more after]|];
        [|reflexivity].
      now rewrite <- app_assoc.
    + now rewrite app_nil_r.
Qed.

End ScanRun.

Lemma collect_split (rest : list jsstring) :
  forall (cur : jsstring) (more after : list jsstring),
    collect cur rest = Some (more, after) -> rest = more ++ after.
Proof.
  induction rest as [|next rest IH]; intros cur more after; simpl.
  - destruct (endsWithComma cur); [discriminate|]. now intros [= <- <-].
  - destruct (endsWithComma cur).
    + destruct (collect next rest) as [[m a]|] eqn:E; [|discriminate].
      intros [= <- <-]. simpl. f_equal. eapply IH. exact E.
    + now intros [= <- <-].
Qed.

(** Code units that a pass keeps out of its result: when the space and the
    comma satisfy [Q], and the indent unit does where it is written, every
    line of the result satisfies [Q] if every line of the text does. *)
Ltac list_lia := unfold jsstring in *; lia.

Section Preservation.

Variable Q : char16 -> Prop.
Hypothesis Q_space : Q SPACE.
Hypothesis Q_comma : Q COMMA.

Lemma Forall_firstn {A} (R : A -> Prop) (n : nat) (l : list A) :
  Forall R l -> Forall R (firstn n l).
Proof.
  intros H. rewrite <- (firstn_skipn n l) in H.
  now apply Forall_app in H.
Qed.

Lemma Forall_skipn {A} (R : A -> Prop) (n : nat) (l : list A) :
  Forall R l -> Forall R (skipn n l).
Proof.
  intros H. rewrite <- (firstn_skipn n l) in H.
  now apply Forall_app in H.
Qed.

Lemma Forall_removelast {A} (R : A -> Prop) (l : list A) :
  Forall R l -> Forall R (removelast l).
Proof.
  induction l as [|x l IH]; simpl; [auto|].
  intros H. inversion H; subst. destruct l; [constructor|].
  constructor; auto.
Qed.

Lemma Forall_dropWhile (R : char16 -> Prop) (p : char16 -> bool)
    (s : jsstring) :
  Forall R s -> Forall R (dropWhile p s).
Proof.
  induction s as [|c s IH]; simpl; [auto|].
  intros H. destruct (p c); [|exact H]. inversion H; auto.
Qed.

Lemma Forall_takeWhile (R : char16 -> Prop) (p : char16 -> bool)
    (s : jsstring) :
  Forall R s -> Forall R (takeWhile p s).
Proof.
  induction s as [|c s IH]; simpl; [auto|].
  intros H. inversion H; subst. destruct (p c); constructor; auto.
Qed.

Lemma Forall_dropWhileEnd (R : char16 -> Prop) (p : char16 -> bool)
    (s : jsstring) :
  Forall R s -> Forall R (dropWhileEnd p s).
Proof.
  intros H. unfold dropWhileEnd.
  apply Forall_rev, Forall_dropWhile, Forall_rev, H.
Qed.

Lemma Forall_repeat_str (R : char16 -> Prop) (s : jsstring) (n : nat) :
  Forall R s -> Forall R (repeat_str s n).
Proof.
  intros H. induction n as [|n IH]; simpl; [constructor|].
  apply Forall_app. now split.
Qed.

Lemma dropComma_Forall (line : jsstring) :
  Forall Q line -> Forall Q (dropComma line).
Proof.
  intros H. unfold dropComma.
  destruct (endsWithComma line); [now apply Forall_removelast|exact H].
Qed.

Lemma commaTabular_Forall (commaLines : list jsstring) :
  Forall (Forall Q) commaLines -> Forall (Forall Q) (commaTabular commaLines).
Proof.
  intros H. unfold commaTabular.
  assert (H' : Forall (Forall Q) (map dropComma commaLines)).
  { apply Forall_map. eapply Forall_impl; [|exact H].
    intros l. apply dropComma_Forall. }
  generalize (maxLength (map dropComma commaLines)).
  generalize (length (map dropComma commaLines) - 1)%nat.
  generalize 0%nat.
  induction H' as [|l ls Hl Hls IH]; intros j last m; [constructor|].
  constructor; [|apply IH].
  destruct (j <? last)%nat; [|exact Hl].
  apply Forall_app. split; [exact Hl|].
  apply Forall_app. split; [apply Forall_repeat_str|]; repeat constructor;
    assumption.
Qed.

Lemma mapi_from_Forall {A} (R : A -> Prop) (g : nat -> A -> outcome jsstring)
    (l : list A) :
  (forall j x y, R x -> g j x = Ret y -> Forall Q y) ->
  Forall R l ->
  forall j out, mapi_from g j l = Ret out -> Forall (Forall Q) out.
Proof.
  intros Hg H. induction H as [|x l Hx Hl IH]; intros j out; simpl.
  - intros [= <-]. constructor.
  - destruct (g j x) as [y|] eqn:E; simpl; [|discriminate].
    destruct (mapi_from g (S j) l) as [ys|] eqn:E'; simpl; [|discriminate].
    intros [= <-]. constructor; eauto.
Qed.

Lemma commaForTwoSpaces_Forall (s : jsstring) :
  Forall Q s -> Forall Q (commaForTwoSpaces s).
Proof.
  intros H. unfold commaForTwoSpaces.
  destruct (endsWith s [SPACE; SPACE]); [|exact H].
  apply Forall_app. split; [now apply Forall_firstn|].
  repeat constructor; assumption.
Qed.

Lemma commaBefore_Forall (cfg : FormatOptions) (j : nat)
    (line out : jsstring) :
  Forall Q (indent cfg) ->
  Forall Q line -> commaBefore cfg j line = Ret out -> Forall Q out.
Proof.
  intros Hind H. unfold commaBefore. destruct j as [|j].
  - now intros [= <-].
  - unfold matchLeadingWhitespace.
    destruct (takeWhile is_space line) as [|c ws] eqn:E; [discriminate|].
    intros [= <-].
    assert (Hws : Forall Q (c :: ws)).
    { rewrite <- E. now apply Forall_takeWhile. }
    apply Forall_app. split; [|now apply Forall_dropWhile].
    unfold replaceSuffix.
    destruct (endsWith (c :: ws) _); [|exact Hws].
    apply Forall_app. split; [now apply Forall_firstn|].
    apply commaForTwoSpaces_Forall.
    destruct (includes (indent cfg) [TAB]); [|exact Hind].
    repeat constructor; assumption.
Qed.

Lemma commaRun_Forall (cfg : FormatOptions) (run out : list jsstring) :
  (commaPosition cfg = comma_before -> Forall Q (indent cfg)) ->
  Forall (Forall Q) run -> commaRun cfg run = Ret out ->
  Forall (Forall Q) out.
Proof.
  intros Hind H. unfold commaRun.
  destruct (commaPosition cfg).
  - apply (mapi_from_Forall (R := Forall Q)).
    + intros j x y. apply commaBefore_Forall. now apply Hind.
    + apply Forall_map. eapply Forall_impl; [|exact H].
      intros l. apply dropComma_Forall.
  - now intros [= <-].
  - intros [= <-]. now apply commaTabular_Forall.
Qed.

Lemma splitAlias_Forall (s : jsstring) :
  forall (afterWord : bool) (before pre al : jsstring) (a : option jsstring),
    Forall Q before -> Forall Q s ->
    splitAlias afterWord before s = Some (pre, a, al) ->
    Forall Q pre /\ Forall Q al
    /\ match a with Some x => Forall Q x | None => True end.
Proof.
  induction s as [|c s IH]; intros aw before pre al a Hb Hs;
    cbn [splitAlias]; [discriminate|].
  inversion Hs as [|? ? Hc Hs']; subst.
  assert (Hnext : Forall Q (before ++ [c])).
  { apply Forall_app. split; [assumption|]. now constructor. }
  destruct (N.eqb c SPACE && aw).
  - destruct (startsWith_by fold_i s (lit "AS ") && allNonSpace (skipn 3 s)).
    + intros [= <- <- <-]. split; [assumption|]. split.
      * now apply (Forall_skipn 3).
      * now apply (Forall_firstn 3).
    + destruct (allNonSpace s).
      * intros [= <- <- <-]. repeat split; auto.
      * now apply IH.
  - now apply IH.
Qed.

Lemma aliasRun_Forall (run out : list jsstring) :
  Forall (Forall Q) run -> aliasRun run = Ret out -> Forall (Forall Q) out.
Proof.
  intros H. unfold aliasRun.
  apply (mapi_from_Forall
           (R := fun s => Forall Q (precedingText s)
                          /\ match alias s with
                             | Some x => Forall Q x | None => True end
                          /\ match as_ s with
                             | Some x => Forall Q x | None => True end)).
  - intros _ s y (Hp & Ha & Has). unfold aliasLine.
    destruct (alias s) as [al|]; [|now intros [= <-]].
    destruct (_ <? 0); [discriminate|]. intros [= <-].
    repeat (apply Forall_app; split); auto.
    + apply Forall_repeat_str. now repeat constructor.
    + destruct (as_ s); auto.
  - apply Forall_map. eapply Forall_impl; [|exact H].
    intros l Hl. unfold slugsOf.
    destruct (splitAlias false [] l) as [[[pre a] al]|] eqn:E; simpl.
    + destruct (@splitAlias_Forall l false [] pre al a (Forall_nil Q) Hl E)
        as (? & ? & ?).
      auto.
    + auto.
Qed.

Local Abbreviation goodResult := (linesSatisfy Q).

Lemma scanRun_Forall
    (process : list jsstring -> outcome (list jsstring))
    (continue : list jsstring -> outcome (list (option jsstring)))
    (cur : jsstring) (run rest : list jsstring)
    (out : list (option jsstring)) :
  (forall r o, Forall (Forall Q) r -> process r = Ret o ->
               Forall (Forall Q) o) ->
  (forall l o, (length l < length (cur :: rest))%nat ->
               Forall (Forall Q) l -> continue l = Ret o -> goodResult o) ->
  Forall (Forall Q) run -> Forall (Forall Q) rest ->
  scanRun process continue cur run rest = Ret out -> goodResult out.
Proof.
  intros Hp Hk Hrun Hrest. rewrite scanRun_collect.
  destruct (collect cur rest) as [[more after]|] eqn:E; [|discriminate].
  pose proof (collect_split _ _ E) as S. subst rest.
  apply Forall_app in Hrest. destruct Hrest as [Hmore Hafter].
  destruct (process (run ++ more)) as [run'|] eqn:E'; simpl; [|discriminate].
  assert (Hrun' : Forall (Forall Q) run').
  { eapply Hp; [|exact E']. apply Forall_app. now split. }
  assert (G : forall tl, goodResult tl -> goodResult (map Some run' ++ tl)).
  { intros tl Htl. unfold linesSatisfy, lineTexts. rewrite map_app, map_map.
    rewrite map_id. apply Forall_app. now split. }
  destruct after as [|next rest'].
  - intros [= <-]. apply G. repeat constructor.
  - destruct (continue rest') as [nq|] eqn:E''; simpl; [|discriminate].
    intros [= <-]. apply G. inversion Hafter; subst.
    constructor; [assumption|].
    eapply Hk; [|eassumption|exact E''].
    simpl. rewrite length_app. simpl. unfold jsstring. lia.
Qed.

Lemma commaLoop_Forall (cfg : FormatOptions) :
  (commaPosition cfg = comma_before -> Forall Q (indent cfg)) ->
  forall (n : nat) (lines : list jsstring) (out : list (option jsstring)),
    (length lines <= n)%nat ->
    Forall (Forall Q) lines -> commaLoop cfg lines = Ret out ->
    goodResult out.
Proof.
  intros Hind. induction n as [|n IH]; intros lines out Hn H.
  - destruct lines; [|simpl in Hn; lia]. intros [= <-]. constructor.
  - destruct lines as [|line rest]; [intros [= <-]; constructor|].
    inversion H; subst. simpl in Hn. simpl.
    destruct (endsWithComma line).
    + apply scanRun_Forall; auto.
      * intros r o. now apply commaRun_Forall.
      * intros l o Hl. apply IH. simpl in Hl. list_lia.
    + destruct (commaLoop cfg rest) as [nq|] eqn:E; simpl; [|discriminate].
      intros [= <-]. constructor; [assumption|].
      eapply IH; [|eassumption|exact E]. list_lia.
Qed.

Lemma aliasLoop_Forall :
  forall (n : nat) (lines : list jsstring) (out : list (option jsstring)),
    (length lines <= n)%nat ->
    Forall (Forall Q) lines -> aliasLoop lines = Ret out -> goodResult out.
Proof.
  induction n as [|n IH]; intros lines out Hn H.
  - destruct lines; [|simpl in Hn; lia]. intros [= <-]. constructor.
  - destruct lines as [|line rest]; [intros [= <-]; constructor|].
    inversion H as [|? ? Hline Hrest]; subst. simpl in Hn. simpl.
    assert (Step : forall nq, aliasLoop rest = Ret nq ->
                              goodResult (Some line :: nq)).
    { intros nq E. constructor; [assumption|].
      eapply IH; [|eassumption|exact E]. list_lia. }
    destruct (startsSelect line).
    + destruct (endsWithComma line).
      * apply scanRun_Forall; auto.
        -- apply aliasRun_Forall.
        -- intros l o Hl. apply IH. simpl in Hl. list_lia.
      * destruct (selectWithBody line).
        -- destruct (aliasLoop rest) as [nq|] eqn:E; simpl; [|discriminate].
           intros [= <-]. now apply Step.
        -- destruct rest as [|next rest']; [discriminate|].
           inversion Hrest; subst.
           destruct (scanRun aliasRun aliasLoop next [next] rest')
             as [nq|] eqn:E; simpl; [|discriminate].
           intros [= <-]. constructor; [assumption|].
           eapply scanRun_Forall; [apply aliasRun_Forall| | | |exact E];
             auto.
           intros l o Hl. apply IH. simpl in Hl, Hn. list_lia.
    + destruct (aliasLoop rest) as [nq|] eqn:E; simpl; [|discriminate].
      intros [= <-]. now apply Step.
Qed.

Lemma split_lines_Forall (s : jsstring) :
  Forall Q s -> Forall (Forall Q) (split_lines s).
Proof.
  induction s as [|c s IH]; simpl; [repeat constructor|].
  intros H. inversion H; subst.
  destruct (N.eqb c LF); [constructor; auto|].
  specialize (IH H3). destruct (split_lines s) as [|l ls].
  - repeat constructor. assumption.
  - inversion IH; subst. repeat constructor; assumption.
Qed.

Lemma join_lines_Forall (out : list (option jsstring)) :
  Q LF -> goodResult out -> Forall Q (join_lines out).
Proof.
  intros Q_lf. unfold linesSatisfy, lineTexts.
  induction out as [|l out IH]; simpl; [constructor|].
  intros H. inversion H; subst.
  destruct out as [|l' out]; [assumption|].
  apply Forall_app. split; [assumption|]. constructor; auto.
Qed.

Lemma formatCommaPositions_Forall (cfg : FormatOptions) (q r : jsstring) :
  Q LF ->
  (commaPosition cfg = comma_before -> Forall Q (indent cfg)) ->
  Forall Q q -> formatCommaPositions cfg q = Ret r -> Forall Q r.
Proof.
  intros Q_lf Hind H. unfold formatCommaPositions.
  destruct (commaLoop cfg (split_lines q)) as [out|] eqn:E; simpl;
    [|discriminate].
  intros [= <-]. apply join_lines_Forall; [assumption|].
  eapply commaLoop_Forall; [exact Hind|apply Nat.le_refl| |exact E].
  now apply split_lines_Forall.
Qed.

Lemma formatAliasPositions_Forall (q r : jsstring) :
  Q LF -> Forall Q q -> formatAliasPositions q = Ret r -> Forall Q r.
Proof.
  intros Q_lf H. unfold formatAliasPositions.
  destruct (aliasLoop (split_lines q)) as [out|] eqn:E; simpl;
    [|discriminate].
  intros [= <-]. apply join_lines_Forall; [assumption|].
  eapply aliasLoop_Forall; [apply Nat.le_refl| |exact E].
  now apply split_lines_Forall.
Qed.

End Preservation.

(* ================================================================== *)
(** ** No zero-width space in the result *)
(* ================================================================== *)

Lemma replaceZWS_clean (s : jsstring) :
  Forall (fun c => c <> ZWS) (replaceZWS s).
Proof.
  induction s as [|c s IH]; simpl; constructor; auto.
  destruct (N.eqb_spec c ZWS); [discriminate|assumption].
Qed.

Lemma white_space_clean (s : jsstring) :
  forallb is_space s = true -> Forall (fun c => c <> ZWS) s.
Proof.
  intros H. apply Forall_forall. intros c Hc ->.
  rewrite forallb_forall in H. specialize (H _ Hc). discriminate H.
Qed.

(** C10: the text of a run holds no zero-width space, whatever the tokens
    and the configuration: the padding of the ten-space modes, and any
    other zero-width space of the text, is replaced by a space at the end
    of the loop. The passes after it write none, for an indent unit of
    white space where the comma pass rewrites the indentation with it, so
    the string [format] returns holds none. *)
Theorem format_result_has_no_ZWS
    {I B P : Type} {io : IndentationOps I} {bo : InlineBlockOps B}
    {po : ParamsOps P} (tokenize : jsstring -> list Token)
    (f : Formatter I B P) :
  (forall q f', getFormattedQueryFromTokens f = Ret (q, f') -> ~ In ZWS q)
  /\ (forall query r,
         (commaPosition (cfg f) = comma_before ->
          forallb is_space (indent (cfg f)) = true) ->
         format tokenize f query = Ret r -> ~ In ZWS r).
Proof.
  assert (Run : forall (g g' : Formatter I B P) q,
             getFormattedQueryFromTokens g = Ret (q, g') ->
             Forall (fun c => c <> ZWS) q).
  { intros g g' q. unfold getFormattedQueryFromTokens.
    destruct (formatTokens _ _ _) as [[q1 g1]|]; simpl; [|discriminate].
    intros [= <- _]. apply replaceZWS_clean. }
  split.
  - intros q f' H Hin. apply Run in H.
    rewrite Forall_forall in H. now apply (H _ Hin).
  - intros query r Hind. unfold format.
    destruct (getFormattedQueryFromTokens (set_tokens (tokenize query) f))
      as [[q f']|] eqn:E; simpl; [|discriminate].
    pose proof (Run _ _ _ E) as Hq.
    destruct (getFormattedQueryFromTokens_frame _ E) as [Hc _].
    simpl in Hc.
    unfold postFormat. rewrite Hc.
    assert (Hind' : commaPosition (cfg f) = comma_before ->
                    Forall (fun c => c <> ZWS) (indent (cfg f))).
    { intros H. now apply white_space_clean, Hind. }
    destruct (if tabulateAlias (cfg f) then formatAliasPositions q else Ret q)
      as [q1|] eqn:E1; simpl; [|discriminate].
    assert (Hq1 : Forall (fun c => c <> ZWS) q1).
    { destruct (tabulateAlias (cfg f)).
      - apply formatAliasPositions_Forall with (q := q);
          first [discriminate | assumption].
      - now injection E1 as <-. }
    destruct (match commaPosition (cfg f) with
              | comma_after => Ret q1
              | _ => formatCommaPositions (cfg f) q1
              end) as [q2|] eqn:E2; simpl; [|discriminate].
    assert (Hq2 : Forall (fun c => c <> ZWS) q2).
    { destruct (commaPosition (cfg f)) eqn:Ecp.
      - apply formatCommaPositions_Forall with (cfg := cfg f) (q := q1);
          first [discriminate | assumption | (intros _; now apply Hind')].
      - now injection E2 as <-.
      - apply formatCommaPositions_Forall with (cfg := cfg f) (q := q1);
          first [discriminate | assumption | (intros X; congruence)]. }
    intros [= <-] Hin.
    assert (Hr : Forall (fun c => c <> ZWS)
                   (trimEnd (stripLeadingNewlines q2))).
    { apply Forall_dropWhileEnd, Forall_dropWhile, Hq2. }
    rewrite Forall_forall in Hr. now apply (Hr _ Hin).
Qed.

Lemma format_result_has_no_ZWS_witness :
  (commaPosition (withKeywordPosition tenSpaceLeft exampleOptions)
   = comma_before ->
   forallb is_space (indent (withKeywordPosition tenSpaceLeft exampleOptions))
   = true)
  /\ formatExample (withKeywordPosition tenSpaceLeft exampleOptions)
       selectTwo "select a,b from t"
     = Ret (lit "SELECT    a,
  b
FROM      t")
  /\ ~ In ZWS (lit "SELECT    a,
  b
FROM      t").
Proof.
  assert (H1 : commaPosition (withKeywordPosition tenSpaceLeft exampleOptions)
               = comma_before ->
               forallb is_space
                 (indent (withKeywordPosition tenSpaceLeft exampleOptions))
               = true) by (intros _; reflexivity).
  assert (H2 : formatExample (withKeywordPosition tenSpaceLeft exampleOptions)
                 selectTwo "select a,b from t"
               = Ret (lit "SELECT    a,
  b
FROM      t")) by (vm_compute; reflexivity).
  split; [exact H1|]. split; [exact H2|].
  exact (proj2 (format_result_has_no_ZWS (tokenizerGiving selectTwo)
                  (@constructor Indentation InlineBlock Params _ _ _
                     (withKeywordPosition tenSpaceLeft exampleOptions)))
           _ _ H1 H2).
Defined.

(* ================================================================== *)
(** ** The passes on their own result *)
(* ================================================================== *)

Lemma endsWithComma_app (s : jsstring) : endsWithComma (s ++ [COMMA]) = true.
Proof.
  unfold endsWithComma, endsWith. rewrite length_app. cbn [length].
  replace (length s + 1 - 1)%nat with (length s) by lia.
  rewrite skipn_app, skipn_all, Nat.sub_diag. cbn [skipn app eqs].
  rewrite N.eqb_refl. cbn [andb].
  apply Nat.leb_le. lia.
Qed.

Lemma dropComma_app (s : jsstring) : dropComma (s ++ [COMMA]) = s.
Proof.
  unfold dropComma. rewrite endsWithComma_app. apply removelast_last.
Qed.

Lemma dropComma_none (s : jsstring) :
  endsWithComma s = false -> dropComma s = s.
Proof. intros H. unfold dropComma. now rewrite H. Qed.

Lemma maxLength_from_bounds (l : list jsstring) :
  forall a : Z,
    a <= fold_left (fun m s => Z.max m (len s)) l a
    /\ (forall x, In x l -> len x <= fold_left (fun m s => Z.max m (len s)) l a)
    /\ (forall b, a <= b -> (forall x, In x l -> len x <= b) ->
                  fold_left (fun m s => Z.max m (len s)) l a <= b).
Proof.
  induction l as [|y l IH]; intros a; simpl.
  - repeat split; [lia | intros x [] | intros; assumption].
  - destruct (IH (Z.max a (len y))) as (H1 & H2 & H3). repeat split.
    + lia.
    + intros x [<-|Hx]; [lia|]. now apply H2.
    + intros b Hab Hb. apply H3.
      * specialize (Hb y (or_introl eq_refl)). lia.
      * intros x Hx. apply Hb. now right.
Qed.

Lemma maxLength_ge (l : list jsstring) (x : jsstring) :
  In x l -> len x <= maxLength l.
Proof. intros H. now apply (maxLength_from_bounds l 0). Qed.

Lemma maxLength_le (l : list jsstring) (b : Z) :
  0 <= b -> (forall x, In x l -> len x <= b) -> maxLength l <= b.
Proof. intros H0 H. now apply (maxLength_from_bounds l 0). Qed.

Lemma commaTabular_tabulate (commaLines : list jsstring) :
  commaTabular commaLines
  = tabulate (maxLength (map dropComma commaLines))
      (map dropComma commaLines).
Proof.
  unfold commaTabular.
  generalize (maxLength (map dropComma commaLines)). intros M.
  set (l := map dropComma commaLines).
  assert (G : forall (l : list jsstring) (j last : nat),
             (j + length l = last + 1)%nat \/ l = [] ->
             (fix go (j : nat) (l : list jsstring) : list jsstring :=
                match l with
                | [] => []
                | commaLine :: l' =>
                    (if (j <? last)%nat
                     then commaLine
                          ++ repeat_str [SPACE] (Z.to_nat (M - len commaLine))
                          ++ [COMMA]
                     else commaLine) :: go (S j) l'
                end) j l = tabulate M l).
  { clear. induction l as [|x l IH]; intros j last H; [reflexivity|].
    destruct H as [H|H]; [|discriminate]. simpl in H.
    rewrite (IH (S j) last).
    - destruct l as [|y l]; simpl.
      + destruct (Nat.ltb_spec j last); [simpl in H; lia|reflexivity].
      + destruct (Nat.ltb_spec j last); [reflexivity|simpl in H; lia].
    - destruct l; [now right|left; simpl in *; lia]. }
  apply G. destruct l; [now right|left; simpl; lia].
Qed.

Lemma tabulate_app_last (M : Z) (xs : list jsstring) (y : jsstring) :
  tabulate M (xs ++ [y]) = map (padComma M) xs ++ [y].
Proof.
  induction xs as [|x xs IH]; simpl; [reflexivity|].
  rewrite IH. destruct (xs ++ [y]) eqn:E; [|reflexivity].
  now destruct xs.
Qed.

(** A run as the scan takes it: lines that end in a comma and then one
    that does not. *)
Lemma collect_shape (rest : list jsstring) :
  forall (cur : jsstring) (more after : list jsstring),
    collect cur rest = Some (more, after) ->
    exists xs y, cur :: more = xs ++ [y]
                 /\ Forall (fun x => endsWithComma x = true) xs
                 /\ endsWithComma y = false.
Proof.
  induction rest as [|next rest IH]; intros cur more after; simpl.
  - destruct (endsWithComma cur) eqn:E; [discriminate|].
    intros [= <- <-]. exists [], cur. now repeat split.
  - destruct (endsWithComma cur) eqn:E.
    + destruct (collect next rest) as [[m a]|] eqn:E'; [|discriminate].
      intros [= <- <-].
      destruct (IH _ _ _ E') as (xs & y & H1 & H2 & H3).
      exists (cur :: xs), y. simpl. rewrite H1. repeat split; auto.
    + intros [= <- <-]. exists [], cur. now repeat split.
Qed.

Lemma collect_of_shape (xs : list jsstring) :
  forall (y cur : jsstring) (more after : list jsstring),
    cur :: more = xs ++ [y] ->
    Forall (fun x => endsWithComma x = true) xs ->
    endsWithComma y = false ->
    collect cur (more ++ after) = Some (more, after).
Proof.
  induction xs as [|x xs IH]; intros y cur more after E Hxs Hy.
  - assert (E' : cur = y /\ more = []) by (now injection E).
    destruct E' as [-> ->]. simpl.
    destruct after; simpl; now rewrite Hy.
  - assert (E' : cur = x /\ more = xs ++ [y]) by (now injection E).
    destruct E' as [-> ->]. inversion Hxs as [|? ? Hx Hxs']; subst.
    destruct xs as [|x2 xs2]; simpl; rewrite Hx.
    + pose proof (IH y y [] after eq_refl Hxs' Hy) as R. simpl in R.
      now rewrite R.
    + pose proof (IH y x2 (xs2 ++ [y]) after eq_refl Hxs' Hy) as R.
      simpl in R. now rewrite R.
Qed.

(** The tabular run of a run of that shape has the same shape and is its
    own tabular run. *)
Lemma commaTabular_shape (xs : list jsstring) (y : jsstring) :
  Forall (fun x => endsWithComma x = true) xs ->
  endsWithComma y = false ->
  exists xs', commaTabular (xs ++ [y]) = xs' ++ [y]
              /\ length xs' = length xs
              /\ Forall (fun x => endsWithComma x = true) xs'
              /\ commaTabular (xs' ++ [y]) = xs' ++ [y].
Proof.
  intros Hxs Hy.
  set (ss := map dropComma xs).
  set (M := maxLength (ss ++ [y])).
  exists (map (padComma M) ss).
  assert (E1 : map dropComma (xs ++ [y]) = ss ++ [y]).
  { rewrite map_app. simpl. now rewrite (dropComma_none _ Hy). }
  assert (Hshape : Forall (fun x => endsWithComma x = true)
                     (map (padComma M) ss)).
  { apply Forall_map, Forall_forall. intros s _. unfold padComma.
    rewrite app_assoc. apply endsWithComma_app. }
  split; [|split; [|split]].
  - rewrite commaTabular_tabulate, E1. apply tabulate_app_last.
  - unfold ss. now rewrite !length_map.
  - exact Hshape.
  - rewrite commaTabular_tabulate, map_app. simpl.
    rewrite (dropComma_none _ Hy), map_map.
    set (padded := map (fun s => dropComma (padComma M s)) ss).
    assert (Hlen : forall s, In s ss ->
                     len (dropComma (padComma M s)) = M
                     /\ padComma M (dropComma (padComma M s)) = padComma M s).
    { intros s Hs. unfold padComma. rewrite app_assoc, dropComma_app.
      assert (L : len s <= M).
      { apply maxLength_ge. apply in_or_app. now left. }
      assert (Lr : forall n, length (repeat_str [SPACE] n) = n).
      { induction n as [|n IHn]; simpl; auto. }
      assert (L2 : len (s ++ repeat_str [SPACE] (Z.to_nat (M - len s))) = M).
      { unfold len in *. rewrite length_app, Lr. lia. }
      split; [exact L2|]. rewrite L2, Z.sub_diag. simpl.
      now rewrite <- app_assoc. }
    assert (EM : maxLength (padded ++ [y]) = M).
    { assert (Ly : len y <= M).
      { apply maxLength_ge. apply in_or_app. right. now left. }
      assert (M0 : 0 <= M).
      { unfold len in Ly. lia. }
      apply Z.le_antisymm.
      - apply maxLength_le; [exact M0|]. intros x Hx.
        apply in_app_or in Hx. destruct Hx as [Hx|[<-|[]]]; [|exact Ly].
        unfold padded in Hx. apply in_map_iff in Hx.
        destruct Hx as (s & <- & Hs). destruct (Hlen s Hs) as [-> _]. lia.
      - destruct ss as [|s ss'] eqn:Ess.
        + simpl. unfold M, maxLength. simpl. lia.
        + destruct (Hlen s (or_introl eq_refl)) as [Hl _].
          rewrite <- Hl. apply maxLength_ge. unfold padded. simpl. now left. }
    rewrite EM, tabulate_app_last. f_equal.
    unfold padded. rewrite map_map. apply map_ext_in.
    intros s Hs. now apply Hlen.
Qed.

Lemma lineTexts_app (a b : list (option jsstring)) :
  lineTexts (a ++ b) = lineTexts a ++ lineTexts b.
Proof. apply map_app. Qed.

Lemma lineTexts_Some (ls : list jsstring) : lineTexts (map Some ls) = ls.
Proof. unfold lineTexts. rewrite map_map. apply map_id. Qed.

(** A tabular comma pass maps the lines of its result to themselves. *)
Lemma Ret_inj {X : Type} (a b : X) : Ret a = Ret b -> a = b.
Proof. now intros [= ->]. Qed.

Lemma commaLoop_tabular_fixed (cfg : FormatOptions) :
  commaPosition cfg = comma_tabular ->
  forall (n : nat) (lines : list jsstring) (out : list (option jsstring)),
    (length lines <= n)%nat ->
    commaLoop cfg lines = Ret out ->
    commaLoop cfg (lineTexts out) = Ret (map Some (lineTexts out)).
Proof.
  intros Hcp.
  assert (Hrun : forall r, commaRun cfg r = Ret (commaTabular r)).
  { intros r. unfold commaRun. now rewrite Hcp. }
  induction n as [|n IH]; intros lines out Hn.
  - destruct lines; [|simpl in Hn; lia]. now intros [= <-].
  - destruct lines as [|line rest]; [now intros [= <-]|].
    simpl in Hn. cbn [commaLoop].
    destruct (endsWithComma line) eqn:Eline.
    + rewrite scanRun_collect.
      destruct (collect line rest) as [[more after]|] eqn:E; [|discriminate].
      rewrite Hrun. cbn [bind app].
      destruct (collect_shape _ _ E) as (xs & y & Exs & Hxs & Hy).
      destruct (@commaTabular_shape xs y Hxs Hy) as (xs' & Etab & Hlen & Hxs' & Efix).
      rewrite Exs, Etab.
      destruct xs as [|x xs].
      { simpl in Exs. injection Exs as -> _. congruence. }
      destruct xs' as [|x' xs']; [discriminate|].
      inversion Hxs' as [|? ? Hx' _]; subst.
      assert (Again : forall (T : list jsstring) tl,
                 match T with
                 | [] => Ret (map Some ((x' :: xs') ++ [y]) ++ [None])
                 | next :: rest' =>
                     newQuery <- commaLoop cfg rest' ;;
                     Ret (map Some ((x' :: xs') ++ [y]) ++ Some next :: newQuery)
                 end = Ret tl ->
                 commaLoop cfg (((x' :: xs') ++ [y]) ++ T) = Ret tl).
      { intros T tl HT. cbn [app commaLoop]. rewrite Hx'.
        rewrite scanRun_collect.
        rewrite (@collect_of_shape (x' :: xs') y x' (xs' ++ [y]) T
                   eq_refl Hxs' Hy).
        rewrite Hrun. cbn [bind app]. change (x' :: xs' ++ [y]) with ((x' :: xs') ++ [y]).
        rewrite Efix. exact HT. }
      destruct after as [|next rest'].
      * intros H. apply Ret_inj in H. subst out.
        rewrite lineTexts_app, lineTexts_Some. cbn [lineTexts map].
        apply Again. cbn [commaLoop bind].
        now rewrite (map_app Some ((x' :: xs') ++ [y])).
      * destruct (commaLoop cfg rest') as [nq|] eqn:Enq; cbn [bind];
          [|discriminate].
        intros H. apply Ret_inj in H. subst out.
        rewrite lineTexts_app, lineTexts_Some. cbn [lineTexts map].
        fold (lineTexts nq). apply Again.
        assert (L : (length rest' <= n)%nat).
        { pose proof (collect_split _ _ E) as S.
          apply (f_equal (@length jsstring)) in S.
          rewrite length_app in S. simpl in S. list_lia. }
        rewrite (IH _ _ L Enq). cbn [bind].
        now rewrite (map_app Some ((x' :: xs') ++ [y])).
    + destruct (commaLoop cfg rest) as [nq|] eqn:Enq; simpl; [|discriminate].
      intros [= <-]. simpl. rewrite Eline.
      fold (lineTexts nq).
      assert (L : (length rest <= n)%nat) by lia.
      now rewrite (IH _ _ L Enq).
Qed.

Lemma split_lines_nonempty (s : jsstring) : split_lines s <> [].
Proof.
  destruct s as [|c s]; simpl; [discriminate|].
  destruct (N.eqb c LF); [discriminate|].
  destruct (split_lines s); discriminate.
Qed.

Lemma join_lines_texts (out : list (option jsstring)) :
  join_lines (map Some (lineTexts out)) = join_lines out.
Proof.
  induction out as [|l out IH]; [reflexivity|].
  destruct out as [|l' out]; [now destruct l|].
  cbn [lineTexts map join_lines] in *. now rewrite IH.
Qed.

Lemma join_split_lines (s : jsstring) :
  join_lines (map Some (split_lines s)) = s.
Proof.
  induction s as [|c s IH]; [reflexivity|]. cbn [split_lines].
  pose proof (split_lines_nonempty s) as N.
  destruct (N.eqb_spec c LF) as [->|Hc].
  - destruct (split_lines s) as [|l ls]; [contradiction|].
    cbn [map join_lines app] in *. now rewrite IH.
  - destruct (split_lines s) as [|l ls]; [contradiction|].
    destruct ls as [|l2 ls]; cbn [map join_lines app] in *;
      now rewrite <- IH.
Qed.

Lemma split_lines_line (l : jsstring) :
  Forall (fun c => c <> LF) l -> split_lines l = [l].
Proof.
  induction 1 as [|c l Hc Hl IH]; [reflexivity|]. cbn [split_lines].
  destruct (N.eqb_spec c LF); [contradiction|]. now rewrite IH.
Qed.

Lemma split_lines_app (l s : jsstring) :
  Forall (fun c => c <> LF) l ->
  split_lines (l ++ LF :: s) = l :: split_lines s.
Proof.
  induction 1 as [|c l Hc Hl IH]; [reflexivity|].
  cbn [app split_lines].
  destruct (N.eqb_spec c LF); [contradiction|]. now rewrite IH.
Qed.

Lemma split_join_lines (ls : list jsstring) :
  ls <> [] -> Forall (Forall (fun c => c <> LF)) ls ->
  split_lines (join_lines (map Some ls)) = ls.
Proof.
  induction ls as [|l ls IH]; [contradiction|]. intros _ H.
  inversion H as [|? ? Hl Hls]; subst.
  destruct ls as [|l2 ls].
  - simpl. now apply split_lines_line.
  - cbn [map join_lines]. rewrite split_lines_app by assumption.
    f_equal. apply IH; [discriminate|assumption].
Qed.

Lemma split_lines_no_LF (s : jsstring) :
  Forall (Forall (fun c => c <> LF)) (split_lines s).
Proof.
  induction s as [|c s IH]; [repeat constructor|]. cbn [split_lines].
  destruct (N.eqb_spec c LF) as [->|Hc]; [constructor; auto|].
  destruct (split_lines s) as [|l ls]; [repeat constructor; auto|].
  inversion IH; subst. repeat constructor; auto.
Qed.

Lemma commaLoop_nonempty (cfg : FormatOptions) (lines : list jsstring)
    (out : list (option jsstring)) :
  lines <> [] -> commaLoop cfg lines = Ret out -> out <> [].
Proof.
  destruct lines as [|line rest]; [contradiction|]. intros _. simpl.
  destruct (endsWithComma line).
  - rewrite scanRun_collect.
    destruct (collect line rest) as [[more after]|]; [|discriminate].
    destruct (commaRun cfg _) as [run'|]; simpl; [|discriminate].
    destruct after as [|next rest'].
    + intros [= <-]. now destruct (map Some run').
    + destruct (commaLoop cfg rest'); simpl; [|discriminate].
      intros [= <-]. now destruct (map Some run').
  - destruct (commaLoop cfg rest); simpl; [|discriminate].
    now intros [= <-].
Qed.

(** The comma pass in the tabular mode returns its own result
    unchanged. *)
Lemma formatCommaPositions_tabular_idempotent (cfg : FormatOptions)
    (q r : jsstring) :
  commaPosition cfg = comma_tabular ->
  formatCommaPositions cfg q = Ret r ->
  formatCommaPositions cfg r = Ret r.
Proof.
  intros Hcp. unfold formatCommaPositions.
  destruct (commaLoop cfg (split_lines q)) as [out|] eqn:E; simpl;
    [|discriminate].
  intros [= <-].
  assert (Hout : split_lines (join_lines out) = lineTexts out).
  { rewrite <- join_lines_texts. apply split_join_lines.
    - pose proof (commaLoop_nonempty _ (split_lines_nonempty q) E) as N.
      destruct out; [contradiction|discriminate].
    - apply (commaLoop_Forall (Q := fun c => c <> LF)) with (cfg := cfg)
        (n := length (split_lines q)) (lines := split_lines q);
        try discriminate; auto.
      + intros X. congruence.
      + apply split_lines_no_LF. }
  rewrite Hout.
  rewrite (@commaLoop_tabular_fixed cfg Hcp _ _ _ (Nat.le_refl _) E). simpl.
  now rewrite join_lines_texts.
Qed.

Lemma bind_Ret {X : Type} (c : outcome X) : (x <- c ;; Ret x) = c.
Proof. now destruct c. Qed.

(** Lines in front of the first run are copied. *)
Lemma commaLoop_outside (cfg : FormatOptions) (pre rest : list jsstring) :
  Forall (fun l => endsWithComma l = false) pre ->
  commaLoop cfg (pre ++ rest)
  = (newQuery <- commaLoop cfg rest ;; Ret (map Some pre ++ newQuery)).
Proof.
  induction 1 as [|l pre Hl Hpre IH]; cbn [app map].
  - symmetry. apply bind_Ret.
  - cbn [commaLoop]. rewrite Hl, IH.
    now destruct (commaLoop cfg rest).
Qed.

Lemma aliasLoop_outside (pre rest : list jsstring) :
  Forall (fun l => outsideAliasRun l = true) pre ->
  aliasLoop (pre ++ rest)
  = (newQuery <- aliasLoop rest ;; Ret (map Some pre ++ newQuery)).
Proof.
  induction 1 as [|l pre Hl Hpre IH]; cbn [app map].
  - symmetry. apply bind_Ret.
  - cbn [aliasLoop]. rewrite IH. unfold outsideAliasRun in Hl.
    destruct (startsSelect l); simpl in Hl.
    + apply andb_true_iff in Hl. destruct Hl as [Hc Hb].
      apply negb_true_iff in Hc. rewrite Hc, Hb.
      now destruct (aliasLoop rest).
    + now destruct (aliasLoop rest).
Qed.




(** [format] returns when no pass follows the run: the loop raises no
    error for a count of lines between queries that [repeat] accepts. *)
Lemma format_returns
    {I B P : Type} {io : IndentationOps I} {bo : InlineBlockOps B}
    {po : ParamsOps P} (tokenize : jsstring -> list Token)
    (f : Formatter I B P) (query : jsstring) :
  tabulateAlias (cfg f) = false ->
  commaPosition (cfg f) = comma_after ->
  -1 <= linesBetweenQueries (cfg f) ->
  exists r, format tokenize f query = Ret r.
Proof.
  intros Ha Hc Hn. unfold format, getFormattedQueryFromTokens.
  destruct (@formatTokens_returns I B P io bo po
              (length (tokens (set_tokens (tokenize query) f)))
              (set_index 0 (set_tokens (tokenize query) f)) [])
    as [[q f'] E]; [simpl; lia|exact Hn|].
  simpl in E. simpl. rewrite E. simpl.
  apply (formatTokens_frame _ _ _ [] (tokenize query)) in E;
    [|reflexivity|reflexivity].
  destruct E as [Hcfg _].
  simpl in Hcfg. unfold postFormat. rewrite Hcfg, Ha, Hc. simpl. eauto.
Qed.

(* ================================================================== *)
(** ** The run does not read the white space of the tokens *)
(* ================================================================== *)

Unset Implicit Arguments.

Lemma lower_char_idem (c : char16) : lower_char (lower_char c) = lower_char c.
Proof.
  unfold lower_char.
  destruct ((65 <=? c) && (c <=? 90))%N eqn:E; [|now rewrite E].
  apply andb_true_iff in E. destruct E as [E1 E2]. apply N.leb_le in E1, E2.
  rewrite (proj2 (N.leb_gt (c + 32) 90)) by lia.
  now rewrite andb_false_r.
Qed.

Lemma upper_lower_char (c : char16) : upper_char (lower_char c) = upper_char c.
Proof.
  unfold lower_char, upper_char.
  destruct ((65 <=? c) && (c <=? 90))%N eqn:E; [|reflexivity].
  apply andb_true_iff in E. destruct E as [E1 E2]. apply N.leb_le in E1, E2.
  rewrite (proj2 (N.leb_le 97 (c + 32))) by lia.
  rewrite (proj2 (N.leb_le (c + 32) 122)) by lia.
  rewrite (proj2 (N.leb_gt 97 c)) by lia. simpl. lia.
Qed.

Lemma letter_is_no_space (c : char16) :
  (65 <= c <= 122)%N -> is_spaces c = false.
Proof.
  intros H. unfold is_spaces, is_space, ZWS.
  repeat match goal with
         | |- context [N.eqb c ?k] =>
             rewrite (proj2 (N.eqb_neq c k)) by lia
         end.
  rewrite (proj2 (N.leb_gt c 13)) by lia.
  rewrite (proj2 (N.leb_gt 8192 c)) by lia.
  now rewrite !andb_false_r.
Qed.

Lemma is_spaces_lower (c : char16) : is_spaces (lower_char c) = is_spaces c.
Proof.
  unfold lower_char.
  destruct ((65 <=? c) && (c <=? 90))%N eqn:E; [|reflexivity].
  apply andb_true_iff in E. destruct E as [E1 E2]. apply N.leb_le in E1, E2.
  rewrite !letter_is_no_space by lia. reflexivity.
Qed.

Lemma fold_iu_lower (c : char16) : fold_iu (lower_char c) = fold_iu c.
Proof.
  unfold fold_iu. rewrite lower_char_idem. unfold lower_char at 1 2.
  destruct ((65 <=? c) && (c <=? 90))%N eqn:E; [|reflexivity].
  apply andb_true_iff in E. destruct E as [E1 E2]. apply N.leb_le in E1, E2.
  rewrite (proj2 (N.eqb_neq (c + 32) 383)) by lia.
  rewrite (proj2 (N.eqb_neq (c + 32) 8490)) by lia.
  rewrite (proj2 (N.eqb_neq c 383)) by lia.
  rewrite (proj2 (N.eqb_neq c 8490)) by lia.
  reflexivity.
Qed.

Lemma toLowerCase_idem (s : jsstring) : toLowerCase (toLowerCase s) = toLowerCase s.
Proof.
  unfold toLowerCase. rewrite map_map. apply map_ext, lower_char_idem.
Qed.

Lemma toUpperCase_lower (s : jsstring) :
  toUpperCase (toLowerCase s) = toUpperCase s.
Proof.
  unfold toUpperCase, toLowerCase. rewrite map_map.
  apply map_ext, upper_lower_char.
Qed.

Lemma len_lower (s : jsstring) : len (toLowerCase s) = len s.
Proof. unfold len, toLowerCase. now rewrite length_map. Qed.

Lemma dropWhile_spaces_lower (s : jsstring) :
  dropWhile is_spaces (toLowerCase s) = toLowerCase (dropWhile is_spaces s).
Proof.
  induction s as [|c s IH]; simpl; [reflexivity|].
  rewrite is_spaces_lower. now destruct (is_spaces c).
Qed.

Lemma dropWhileEnd_spaces_lower (s : jsstring) :
  dropWhileEnd is_spaces (toLowerCase s)
  = toLowerCase (dropWhileEnd is_spaces s).
Proof.
  unfold dropWhileEnd, toLowerCase.
  rewrite <- map_rev. fold (toLowerCase (rev s)).
  rewrite dropWhile_spaces_lower. unfold toLowerCase. now rewrite map_rev.
Qed.

Lemma eqs_by_fold_iu_lower (p s : jsstring) :
  eqs_by fold_iu p (toLowerCase s) = eqs_by fold_iu p s.
Proof.
  revert s. induction p as [|x p IH]; intros [|c s]; simpl; try reflexivity.
  now rewrite fold_iu_lower, IH.
Qed.

Lemma startsWith_by_fold_i_lower (p s : jsstring) :
  startsWith_by fold_i (toLowerCase s) p = startsWith_by fold_i s p.
Proof.
  revert s. induction p as [|x p IH]; intros [|c s]; simpl; try reflexivity.
  unfold fold_i at 2 4. now rewrite lower_char_idem, IH.
Qed.

Lemma includes_by_fold_i_lower (p s : jsstring) :
  includes_by fold_i (toLowerCase s) p = includes_by fold_i s p.
Proof.
  induction s as [|c s IH].
  - reflexivity.
  - cbn [includes_by toLowerCase map]. fold (toLowerCase s).
    rewrite IH. f_equal.
    exact (startsWith_by_fold_i_lower p (c :: s)).
Qed.

Lemma lower_char_noLetter (c x : char16) :
  noLetter x = true -> N.eqb (lower_char c) x = N.eqb c x.
Proof.
  unfold noLetter, isSmallLetter, isCapitalLetter, lower_char. intros H.
  apply andb_true_iff in H. destruct H as [H1 H2].
  apply negb_true_iff in H1, H2.
  destruct ((65 <=? c) && (c <=? 90))%N eqn:E; [|reflexivity].
  apply andb_true_iff in E. destruct E as [E1 E2]. apply N.leb_le in E1, E2.
  rewrite (proj2 (N.eqb_neq (c + 32) x)), (proj2 (N.eqb_neq c x));
    [reflexivity| |].
  - intros <-.
    rewrite (proj2 (N.leb_le 65 c)), (proj2 (N.leb_le c 90)) in H2 by lia.
    discriminate.
  - intros <-.
    rewrite (proj2 (N.leb_le 97 (c + 32))),
      (proj2 (N.leb_le (c + 32) 122)) in H1 by lia.
    discriminate.
Qed.

Lemma eqs_lower_noLetter (p v : jsstring) :
  forallb noLetter p = true -> eqs (toLowerCase v) p = eqs v p.
Proof.
  revert v. induction p as [|x p IH]; intros [|c v] H; simpl;
    try reflexivity.
  simpl in H. apply andb_true_iff in H. destruct H as [Hx Hp].
  now rewrite (lower_char_noLetter c x Hx), (IH v Hp).
Qed.

Lemma startsWith_lower_noLetter (p s : jsstring) :
  forallb noLetter p = true ->
  startsWith (toLowerCase s) p = startsWith s p.
Proof.
  revert s. induction p as [|x p IH]; intros [|c s] H; simpl;
    try reflexivity.
  simpl in H. apply andb_true_iff in H. destruct H as [Hx Hp].
  rewrite (N.eqb_sym x (lower_char c)), (N.eqb_sym x c).
  now rewrite (lower_char_noLetter c x Hx), (IH s Hp).
Qed.

Lemma includes_lower_noLetter (p s : jsstring) :
  forallb noLetter p = true ->
  includes (toLowerCase s) p = includes s p.
Proof.
  intros H. induction s as [|c s IH].
  - reflexivity.
  - cbn [includes toLowerCase map]. fold (toLowerCase s). rewrite IH.
    f_equal. exact (startsWith_lower_noLetter p (c :: s) H).
Qed.

Lemma toLowerCase_app (a b : jsstring) :
  toLowerCase (a ++ b) = toLowerCase a ++ toLowerCase b.
Proof. apply map_app. Qed.

Lemma split_space_lower (s : jsstring) :
  split_space (toLowerCase s) = map toLowerCase (split_space s).
Proof.
  induction s as [|c s IH]; [reflexivity|].
  cbn [toLowerCase map split_space]. fold (toLowerCase s).
  rewrite (lower_char_noLetter c SPACE eq_refl), IH.
  destruct (N.eqb c SPACE); [reflexivity|].
  now destruct (split_space s).
Qed.

Lemma join_space_lower (l : list jsstring) :
  join_space (map toLowerCase l) = toLowerCase (join_space l).
Proof.
  induction l as [|x l IH]; [reflexivity|].
  destruct l as [|y l]; [reflexivity|].
  cbn [map join_space] in *. rewrite IH, toLowerCase_app. reflexivity.
Qed.

Lemma repeat_ZWS_lower (n : nat) :
  toLowerCase (repeat_str [ZWS] n) = repeat_str [ZWS] n.
Proof.
  induction n as [|n IH]; [reflexivity|]. simpl in *. now rewrite IH.
Qed.

Lemma addBuffer_lower (s : jsstring) :
  addBuffer (toLowerCase s) = addBuffer s
  /\ toLowerCase (addBuffer s) = addBuffer s.
Proof.
  unfold addBuffer. rewrite len_lower. split; [reflexivity|].
  apply repeat_ZWS_lower.
Qed.

Lemma show_norm {I B P : Type} (f : Formatter I B P) (t : Token) :
  show f (norm t) = show f t.
Proof.
  unfold show. fold (cased (norm t)). fold (cased t).
  change (cased (norm t)) with (cased t). unfold norm; simpl.
  destruct (cased t); [|reflexivity].
  now rewrite toUpperCase_lower, toLowerCase_idem.
Qed.

Lemma testToken_norm (kw : string) (ty : TokenType) (t : Token) :
  testToken kw ty (Some (norm t)) = testToken kw ty (Some t).
Proof.
  unfold testToken, norm; simpl. f_equal.
  destruct (cased t); [|reflexivity].
  now rewrite dropWhile_spaces_lower, dropWhileEnd_spaces_lower,
    eqs_by_fold_iu_lower.
Qed.

Lemma value_norm_noLetter (p : jsstring) (t : Token) :
  forallb noLetter p = true -> eqs (value (norm t)) p = eqs (value t) p.
Proof.
  intros H. unfold norm; simpl. destruct (cased t); [|reflexivity].
  now apply eqs_lower_noLetter.
Qed.

Lemma tenSpacedToken_value {I B P : Type} (f : Formatter I B P) (t : Token) :
  tenSpacedToken f t
  = if tenSpace (cfg f)
    then mkToken (tenSpacedValue (cfg f) (value t)) (type t) (key t)
           (whitespaceBefore t)
    else t.
Proof.
  unfold tenSpacedToken, tenSpacedValue.
  destruct (tenSpace (cfg f)); [|reflexivity].
  destruct ((10 <=? len (value t)) && includes (value t) [SPACE]);
    [destruct (split_space (value t))|]; reflexivity.
Qed.

Lemma tenSpacedValue_lower (cfg : FormatOptions) (v : jsstring) :
  tenSpacedValue cfg (toLowerCase v) = toLowerCase (tenSpacedValue cfg v).
Proof.
  unfold tenSpacedValue.
  rewrite len_lower, (includes_lower_noLetter [SPACE] v eq_refl),
    split_space_lower.
  assert (E : forall b tl,
             match keywordPosition cfg with
             | tenSpaceLeft => toLowerCase b ++ addBuffer (toLowerCase b)
             | _ => addBuffer (toLowerCase b) ++ toLowerCase b
             end ++ join_space ([] :: map toLowerCase tl)
             = toLowerCase
                 (match keywordPosition cfg with
                  | tenSpaceLeft => b ++ addBuffer b
                  | _ => addBuffer b ++ b
                  end ++ join_space ([] :: tl))).
  { intros b tl. destruct (addBuffer_lower b) as [E1 E2].
    change ([] :: map toLowerCase tl) with (map toLowerCase ([] :: tl)).
    rewrite join_space_lower, E1.
    destruct (keywordPosition cfg); now rewrite !toLowerCase_app, E2. }
  destruct ((10 <=? len v) && includes v [SPACE]).
  - destruct (split_space v) as [|b tl]; cbn [map]; [apply (E v [])|apply E].
  - apply (E v []).
Qed.

Lemma tenSpacedToken_norm {I B P : Type} (f : Formatter I B P) (t : Token) :
  tenSpacedToken f (norm t) = norm (tenSpacedToken f t).
Proof.
  rewrite !tenSpacedToken_value.
  destruct (tenSpace (cfg f)); [|reflexivity].
  unfold norm. cbn [value type key whitespaceBefore].
  change (cased (mkToken _ (type t) (key t) (whitespaceBefore t)))
    with (cased t).
  destruct (cased t); [|reflexivity].
  now rewrite tenSpacedValue_lower.
Qed.

Lemma store_norm (ts : list Token) (i : nat) (x : Token) :
  store (map norm ts) i (norm x) = map norm (store ts i x).
Proof.
  revert i. induction ts as [|y ts IH]; intros [|i]; simpl;
    try reflexivity. now rewrite IH.
Qed.

Lemma value_is_norm (o : option Token) (p : string) :
  forallb noLetter (lit p) = true ->
  value_is (option_map norm o) p = value_is o p.
Proof.
  intros H. destruct o as [t|]; [|reflexivity]. simpl.
  now apply value_norm_noLetter.
Qed.

Lemma value_in_norm (t : Token) (l : list string) :
  forallb (fun p => forallb noLetter (lit p)) l = true ->
  value_in (norm t) l = value_in t l.
Proof.
  unfold value_in. induction l as [|p l IH]; [reflexivity|].
  intros H. simpl in H. apply andb_true_iff in H. destruct H as [Hp Hl].
  cbn [existsb]. now rewrite (value_norm_noLetter _ t Hp), (IH Hl).
Qed.

Lemma type_is_norm (o : option Token) (ty : TokenType) :
  type_is (option_map norm o) ty = type_is o ty.
Proof. now destruct o. Qed.

Lemma isCommand_norm (o : option Token) :
  isCommand (option_map norm o) = isCommand o.
Proof. now destruct o. Qed.

Lemma testToken_option_norm (kw : string) (ty : TokenType)
    (o : option Token) :
  testToken kw ty (option_map norm o) = testToken kw ty o.
Proof. destruct o as [t|]; [apply testToken_norm|reflexivity]. Qed.

Lemma clauseEnd_norm (t : Token) : clauseEnd (norm t) = clauseEnd t.
Proof.
  unfold clauseEnd. cbn [type norm].
  now rewrite (value_norm_noLetter (lit ";") t eq_refl).
Qed.

Lemma longBlockStart_norm (t : Token) :
  longBlockStart (norm t) = longBlockStart t.
Proof.
  unfold longBlockStart, norm. cbn [type value].
  destruct (cased t); [|reflexivity]. now rewrite len_lower.
Qed.

Lemma findIndex_norm (p : Token -> bool) (l : list Token) :
  (forall t, p (norm t) = p t) ->
  findIndex p (map norm l) = findIndex p l.
Proof.
  intros H. induction l as [|t l IH]; [reflexivity|].
  simpl. now rewrite H, IH.
Qed.

Lemma nextTokens_norm (ts : list Token) (i : nat) :
  nextTokens (map norm ts) i = map norm (nextTokens ts i).
Proof.
  unfold nextTokens. rewrite skipn_map.
  destruct (skipn (i + 1) ts) as [|t tail] eqn:E; [reflexivity|].
  change (map norm (t :: tail)) with (norm t :: map norm tail) at 2.
  cbv iota. change (norm t :: map norm tail) with (map norm (t :: tail)).
  rewrite (findIndex_norm _ _ clauseEnd_norm).
  unfold slice0. rewrite length_map.
  now rewrite firstn_map.
Qed.

Lemma existsb_norm (p : Token -> bool) (l : list Token) :
  (forall t, p (norm t) = p t) ->
  existsb p (map norm l) = existsb p l.
Proof.
  intros H. induction l as [|t l IH]; [reflexivity|].
  simpl. now rewrite H, IH.
Qed.

(** In the modes [always] and [never] the decision is the same on the
    normalized array. *)
Lemma checkNewline_norm (ts : list Token) (nl : Newline) (ws : bool)
    (lw : Z) (i : nat) :
  plainMode nl = true ->
  checkNewline (map norm ts) nl ws lw i = checkNewline ts nl ws lw i.
Proof.
  intros H. unfold checkNewline.
  rewrite nextTokens_norm, (existsb_norm _ _ longBlockStart_norm).
  destruct nl; try discriminate; reflexivity.
Qed.

Section RunOnNormalized.

Context {I B P : Type}.
Context {io : IndentationOps I} {bo : InlineBlockOps B} {po : ParamsOps P}.

Local Abbreviation Formatter := (Formatter I B P).

Lemma tokenLookBehind_norm (f : Formatter) (n : nat) :
  tokenLookBehind (normalized f) n = option_map norm (tokenLookBehind f n).
Proof.
  unfold tokenLookBehind, normalized. cbn [index tokens set_tokens].
  destruct (n <=? index f)%nat; [apply nth_error_map|reflexivity].
Qed.

Lemma tokenLookAhead_norm (f : Formatter) (n : nat) :
  tokenLookAhead (normalized f) n = option_map norm (tokenLookAhead f n).
Proof. apply nth_error_map. Qed.

Lemma show_normalized (f : Formatter) (t : Token) :
  show (normalized f) (norm t) = show f t.
Proof. exact (show_norm f t). Qed.

Lemma tokenLookBehind_fields (c : FormatOptions) (nl : bool) (i : I)
    (b : B) (p : P) (r : option nat) (w : bool) (ts : list Token)
    (ix n : nat) :
  tokenLookBehind (mkFormatter c nl i b p r w (map norm ts) ix) n
  = option_map norm (tokenLookBehind (mkFormatter c nl i b p r w ts ix) n).
Proof. exact (tokenLookBehind_norm (mkFormatter c nl i b p r w ts ix) n). Qed.

Lemma tokenLookAhead_fields (c : FormatOptions) (nl : bool) (i : I)
    (b : B) (p : P) (r : option nat) (w : bool) (ts : list Token)
    (ix n : nat) :
  tokenLookAhead (mkFormatter c nl i b p r w (map norm ts) ix) n
  = option_map norm (tokenLookAhead (mkFormatter c nl i b p r w ts ix) n).
Proof. exact (tokenLookAhead_norm (mkFormatter c nl i b p r w ts ix) n). Qed.

Ltac normalize :=
  repeat first
    [ rewrite tokenLookBehind_norm
    | rewrite tokenLookAhead_norm
    | rewrite tokenLookBehind_fields
    | rewrite tokenLookAhead_fields
    | rewrite show_normalized
    | rewrite testToken_norm
    | rewrite testToken_option_norm
    | rewrite type_is_norm
    | rewrite isCommand_norm
    | rewrite value_is_norm by reflexivity
    | rewrite value_in_norm by reflexivity
    | rewrite (value_norm_noLetter (lit ",")) by reflexivity
    | rewrite (value_norm_noLetter (lit ";")) by reflexivity ].

Ltac fields :=
  unfold normalized, on_indentation, set_currentNewline, set_indentation,
    set_inlineBlock, set_params, set_previousReservedToken,
    set_withinSelect, set_tokens, set_index, addNewline, indentComment, isToken.AS, isToken.AND,
    isToken.BEGIN, isToken.BETWEEN, isToken.BY, isToken.CASE,
    isToken.DELIMITER, isToken.END_, isToken.FROM, isToken.LATERAL,
    isToken.LIMIT, isToken.SELECT, isToken.SET, isToken.WINDOW;
  repeat match goal with
         | |- context [type (norm ?x)] =>
             change (type (norm x)) with (type x)
         end;
  cbn [cfg currentNewline indentation inlineBlock params
       previousReservedToken withinSelect tokens index fst snd].

Ltac projections :=
  cbn [cfg currentNewline indentation inlineBlock params
       previousReservedToken withinSelect tokens index fst snd].

Ltac cases :=
  repeat (match goal with
          | |- context [if ?c then _ else _] =>
              lazymatch c with
              | context [if _ then _ else _] => fail
              | _ => destruct c
              end
          end; projections).

Ltac by_fields f :=
  destruct f; cbv zeta; rewrite ?show_norm; unfold show; fields;
  rewrite ?nth_error_map; normalize; fields; cases; reflexivity.

Lemma formatWithSpaces_norm (f : Formatter) (t : Token) (q : jsstring)
    (p : Preserve) :
  formatWithSpaces (normalized f) (norm t) q p = formatWithSpaces f t q p.
Proof. unfold formatWithSpaces. now rewrite show_norm. Qed.

Lemma formatWithoutSpaces_norm (f : Formatter) (t : Token) (q : jsstring) :
  formatWithoutSpaces (normalized f) (norm t) q = formatWithoutSpaces f t q.
Proof. unfold formatWithoutSpaces. now rewrite show_norm. Qed.

Lemma formatLineComment_norm (f : Formatter) (t : Token) (q : jsstring) :
  formatLineComment (normalized f) (norm t) q = formatLineComment f t q.
Proof. unfold formatLineComment. now rewrite show_norm. Qed.

Lemma formatBlockComment_norm (f : Formatter) (t : Token) (q : jsstring) :
  type t = BLOCK_COMMENT ->
  formatBlockComment (normalized f) (norm t) q = formatBlockComment f t q.
Proof.
  intros H. unfold formatBlockComment, norm. cbn [value].
  unfold cased, isReserved. now rewrite H.
Qed.

Lemma formatCommand_norm (f : Formatter) (t : Token) (q : jsstring) :
  formatCommand (normalized f) (norm t) q
  = (fst (formatCommand f t q), normalized (snd (formatCommand f t q))).
Proof. unfold formatCommand. by_fields f. Qed.

Lemma formatBinaryCommand_norm (f : Formatter) (t : Token) (q : jsstring) :
  formatBinaryCommand (normalized f) (norm t) q
  = (fst (formatBinaryCommand f t q),
     normalized (snd (formatBinaryCommand f t q))).
Proof.
  unfold formatBinaryCommand.
  replace (includes_by fold_i (value (norm t)) (lit "JOIN"))
    with (includes_by fold_i (value t) (lit "JOIN")).
  - by_fields f.
  - unfold norm. destruct (cased t); [|reflexivity]. cbn [value].
    symmetry. apply includes_by_fold_i_lower.
Qed.

Lemma formatKeyword_norm (f : Formatter) (t : Token) (q : jsstring) :
  formatKeyword (normalized f) (norm t) q = formatKeyword f t q.
Proof. unfold formatKeyword, formatWithSpaces. by_fields f. Qed.

Lemma formatDependentClause_norm (f : Formatter) (t : Token) (q : jsstring) :
  formatDependentClause (normalized f) (norm t) q
  = formatDependentClause f t q.
Proof. unfold formatDependentClause. by_fields f. Qed.

Lemma formatLogicalOperator_norm (f : Formatter) (t : Token) (q : jsstring) :
  formatLogicalOperator (normalized f) (norm t) q
  = (fst (formatLogicalOperator f t q),
     normalized (snd (formatLogicalOperator f t q))).
Proof. unfold formatLogicalOperator, formatWithSpaces. by_fields f. Qed.

Lemma formatBlockEnd_norm (f : Formatter) (t : Token) (q : jsstring) :
  formatBlockEnd (normalized f) (norm t) q
  = (fst (formatBlockEnd f t q), normalized (snd (formatBlockEnd f t q))).
Proof. unfold formatBlockEnd, formatWithSpaces. by_fields f. Qed.

Lemma formatAliases_norm (f : Formatter) (t : Token) (q : jsstring) :
  formatAliases (normalized f) (norm t) q = formatAliases f t q.
Proof. unfold formatAliases, formatWithSpaces. by_fields f. Qed.

Lemma formatComma_norm (f : Formatter) (t : Token) (q : jsstring) :
  formatComma (normalized f) (norm t) q = formatComma f t q.
Proof.
  unfold formatComma. destruct f as [c nl i b p [r|] w ts ix]; cbv zeta;
    rewrite ?show_norm; unfold show; fields; rewrite ?nth_error_map;
    normalize; fields; cases; reflexivity.
Qed.

Lemma formatQuerySeparator_norm (f : Formatter) (t : Token) (q : jsstring) :
  formatQuerySeparator (normalized f) (norm t) q
  = mapState normalized (formatQuerySeparator f t q).
Proof.
  unfold formatQuerySeparator. destruct f; cbv zeta; rewrite ?show_norm;
    unfold show; fields.
  destruct (separatorNewlines cfg0); reflexivity.
Qed.

Lemma formatOperator_norm (f : Formatter) (t : Token) (q : jsstring) :
  formatOperator (normalized f) (norm t) q
  = mapState normalized (formatOperator f t q).
Proof.
  unfold formatOperator.
  rewrite formatComma_norm, formatQuerySeparator_norm,
    !formatWithSpaces_norm, !formatWithoutSpaces_norm.
  normalize. change (cfg (normalized f)) with (cfg f).
  cases; reflexivity.
Qed.

Lemma isReserved_norm (t : Token) : isReserved (norm t) = isReserved t.
Proof. reflexivity. Qed.

Lemma markReserved_norm (f : Formatter) (t : Token) :
  markReserved (normalized f) (norm t)
  = (norm (fst (markReserved f t)), normalized (snd (markReserved f t))).
Proof.
  unfold markReserved. rewrite isReserved_norm, !tenSpacedToken_value.
  destruct f; cbv zeta; fields.
  destruct (isReserved t); [|reflexivity].
  destruct (negb (TokenType_eqb (type t) RESERVED_KEYWORD)).
  - destruct (tenSpace cfg0).
    + cbn [type value key whitespaceBefore norm].
      destruct (TokenType_eqb (type t) RESERVED_COMMAND) eqn:Ety.
      * assert (Hc : cased t = true).
        { unfold cased, isReserved.
          destruct (type t); try discriminate; reflexivity. }
        rewrite Hc, tenSpacedValue_lower.
        set (t' := mkToken (tenSpacedValue cfg0 (value t)) (type t) (key t)
                     (whitespaceBefore t)).
        assert (Hc' : cased t' = true) by exact Hc.
        assert (Hn : norm t'
                     = mkToken (toLowerCase (tenSpacedValue cfg0 (value t)))
                         (type t) (key t) None).
        { unfold norm. now rewrite Hc'. }
        rewrite <- Hn, store_norm. cbn [fst snd]. fields.
        now rewrite testToken_norm.
      * set (t' := mkToken (tenSpacedValue cfg0 (value t)) (type t) (key t)
                     (whitespaceBefore t)).
        assert (Hn : norm t'
                     = mkToken
                         (tenSpacedValue cfg0
                            (if cased t then toLowerCase (value t)
                             else value t))
                         (type t) (key t) None).
        { unfold norm. change (cased t') with (cased t).
          destruct (cased t); [|reflexivity].
          now rewrite tenSpacedValue_lower. }
        rewrite <- Hn, store_norm. reflexivity.
    + rewrite store_norm. fields.
      destruct (TokenType_eqb (type t) RESERVED_COMMAND); cbn [fst snd];
        fields; rewrite ?testToken_norm; reflexivity.
  - fields.
    destruct (TokenType_eqb (type t) RESERVED_COMMAND); cbn [fst snd];
      fields; rewrite ?testToken_norm; reflexivity.
Qed.

Lemma markReserved_type (f : Formatter) (t : Token) :
  type (fst (markReserved f t)) = type t.
Proof.
  unfold markReserved.
  destruct (isReserved t); [|reflexivity].
  destruct (negb (TokenType_eqb (type t) RESERVED_KEYWORD)); cbv zeta.
  - rewrite tenSpacedToken_type.
    destruct (TokenType_eqb (type t) RESERVED_COMMAND);
      apply tenSpacedToken_type.
  - destruct (TokenType_eqb (type t) RESERVED_COMMAND); reflexivity.
Qed.

Lemma markReserved_cfg (f : Formatter) (t : Token) :
  cfg (snd (markReserved f t)) = cfg f.
Proof.
  unfold markReserved.
  destruct (isReserved t); [|reflexivity].
  destruct (negb (TokenType_eqb (type t) RESERVED_KEYWORD)); cbv zeta;
    [rewrite tenSpacedToken_type|];
    destruct (TokenType_eqb (type t) RESERVED_COMMAND); reflexivity.
Qed.

(** The chain of tests on the normalized array makes the same text and
    leaves the normalized state. *)
Lemma dispatch_norm (f : Formatter) (t : Token) (q : jsstring) :
  plainMode (newline (cfg f)) = true ->
  plainKind t = true ->
  dispatch (normalized f) (norm t) q = mapState normalized (dispatch f t q).
Proof.
  intros Hm Hk. unfold dispatch.
  change (type (norm t)) with (type t).
  unfold plainKind in Hk.
  destruct (type t) eqn:Ety; simpl in Hk; try discriminate Hk.
  all: try (rewrite formatOperator_norm; reflexivity).
  all: try (change (tokens (normalized f)) with (map norm (tokens f));
            change (cfg (normalized f)) with (cfg f);
            change (withinSelect (normalized f)) with (withinSelect f);
            change (index (normalized f)) with (index f);
            rewrite (checkNewline_norm _ _ _ _ _ Hm);
            destruct (checkNewline _ _ _ _ _) as [b|e]; [|reflexivity];
            cbn [bind];
            change (set_currentNewline b (normalized f))
              with (normalized (set_currentNewline b f));
            rewrite formatCommand_norm;
            destruct (formatCommand _ t q); reflexivity).
  all: rewrite ?formatLineComment_norm, ?(formatBlockComment_norm _ _ _ Ety),
         ?formatBinaryCommand_norm, ?formatDependentClause_norm,
         ?formatLogicalOperator_norm, ?formatKeyword_norm,
         ?formatBlockEnd_norm, ?formatAliases_norm, ?formatWithSpaces_norm.
  all: try reflexivity.
  all: try (destruct (formatBinaryCommand f t q); reflexivity).
  all: try (destruct (formatLogicalOperator f t q); reflexivity).
  all: try (destruct (formatBlockEnd f t q); reflexivity).
  all: change (cfg (normalized f)) with (cfg f);
       destruct (aliasAs (cfg f));
       rewrite ?formatAliases_norm, ?formatWithSpaces_norm; reflexivity.
Qed.

Lemma plainKind_norm (t : Token) : plainKind (norm t) = plainKind t.
Proof. reflexivity. Qed.

Lemma forallb_plainKind_norm (ts : list Token) :
  forallb plainKind (map norm ts) = forallb plainKind ts.
Proof.
  induction ts as [|t ts IH]; [reflexivity|].
  cbn [map forallb]. now rewrite plainKind_norm, IH.
Qed.

Lemma forallb_store (p : Token -> bool) (ts : list Token) (i : nat)
    (x : Token) :
  forallb p ts = true -> p x = true -> forallb p (store ts i x) = true.
Proof.
  revert i. induction ts as [|y ts IH]; intros [|i] H Hx; simpl in *;
    try reflexivity; apply andb_true_iff in H; destruct H as [Hy Hts];
    apply andb_true_iff; split; auto.
Qed.

Lemma forallb_nth_error (p : Token -> bool) (ts : list Token) (i : nat)
    (t : Token) :
  forallb p ts = true -> nth_error ts i = Some t -> p t = true.
Proof.
  intros H Ht. rewrite forallb_forall in H.
  apply H. now apply nth_error_In with i.
Qed.

(** One turn of the loop on the normalized array. *)
Lemma formatToken_norm (f : Formatter) (q : jsstring) :
  plainMode (newline (cfg f)) = true ->
  forallb plainKind (tokens f) = true ->
  formatToken (normalized f) q = mapState normalized (formatToken f q).
Proof.
  intros Hm Hk. unfold formatToken.
  change (tokens (normalized f)) with (map norm (tokens f)).
  change (index (normalized f)) with (index f).
  rewrite nth_error_map.
  destruct (nth_error (tokens f) (index f)) as [t|] eqn:Ht; [|reflexivity].
  cbn [option_map]. unfold tokenOverride. rewrite markReserved_norm.
  pose proof (markReserved_type f t) as Hty.
  pose proof (markReserved_cfg f t) as Hc.
  destruct (markReserved f t) as [t' f']. cbn [fst snd] in *.
  apply dispatch_norm.
  - now rewrite Hc.
  - unfold plainKind. rewrite Hty. fold (plainKind t).
    eapply forallb_nth_error; eassumption.
Qed.

Lemma formatTokens_norm (n : nat) :
  forall (f : Formatter) (q : jsstring),
    plainMode (newline (cfg f)) = true ->
    forallb plainKind (tokens f) = true ->
    formatTokens n (normalized f) q
    = mapState normalized (formatTokens n f q).
Proof.
  induction n as [|n IH]; intros f q Hm Hk; [reflexivity|].
  cbn [formatTokens]. rewrite (formatToken_norm _ _ Hm Hk).
  destruct (formatToken f q) as [[q1 f1]|e] eqn:E; [|reflexivity].
  cbn [mapState bind].
  change (set_index (S (index (normalized f1))) (normalized f1))
    with (normalized (set_index (S (index f1)) f1)).
  destruct (formatToken_frame _ _ E) as (Hc & _ & t & Ht & Hts).
  apply IH.
  - cbn [set_index cfg]. now rewrite Hc.
  - cbn [set_index tokens]. rewrite Hts. apply forallb_store; [exact Hk|].
    unfold plainKind. rewrite padded_type. fold (plainKind t).
    eapply forallb_nth_error; eassumption.
Qed.

(** The run on the normalized array makes the same text. *)
Lemma getFormattedQueryFromTokens_norm (f : Formatter) :
  plainMode (newline (cfg f)) = true ->
  forallb plainKind (tokens f) = true ->
  getFormattedQueryFromTokens (normalized f)
  = mapState normalized (getFormattedQueryFromTokens f).
Proof.
  intros Hm Hk. unfold getFormattedQueryFromTokens.
  change (tokens (normalized f)) with (map norm (tokens f)).
  rewrite length_map.
  change (set_index 0 (normalized f)) with (normalized (set_index 0 f)).
  rewrite formatTokens_norm by assumption.
  destruct (formatTokens _ _ _) as [[q1 f1]|e]; reflexivity.
Qed.

(** [format] makes the same of two strings whose token arrays differ in
    the recorded white space and in the case of the reserved words. *)
Lemma format_reads_normalized (tokenize : jsstring -> list Token)
    (f : Formatter) (x y : jsstring) :
  plainMode (newline (cfg f)) = true ->
  forallb plainKind (tokenize x) = true ->
  map norm (tokenize y) = map norm (tokenize x) ->
  format tokenize f y = format tokenize f x.
Proof.
  intros Hm Hk Hxy. unfold format. cbv zeta.
  assert (Hky : forallb plainKind (tokenize y) = true).
  { now rewrite <- forallb_plainKind_norm, Hxy, forallb_plainKind_norm. }
  assert (Hn : normalized (set_tokens (tokenize y) f)
               = normalized (set_tokens (tokenize x) f)).
  { unfold normalized, set_tokens.
    cbn [cfg currentNewline indentation inlineBlock params
         previousReservedToken withinSelect tokens index].
    now rewrite Hxy. }
  pose proof (getFormattedQueryFromTokens_norm
                (set_tokens (tokenize x) f) Hm Hk) as Hx.
  pose proof (getFormattedQueryFromTokens_norm
                (set_tokens (tokenize y) f) Hm Hky) as Hy.
  rewrite Hn, Hx in Hy. clear Hx Hn.
  destruct (getFormattedQueryFromTokens (set_tokens (tokenize x) f))
    as [[qx fx]|ex];
    destruct (getFormattedQueryFromTokens (set_tokens (tokenize y) f))
      as [[qy fy]|ey]; cbn [mapState] in Hy; try discriminate Hy.
  - assert (Hc : cfg fy = cfg fx).
    { change (cfg (normalized fy) = cfg (normalized fx)). congruence. }
    assert (Hq : qy = qx) by congruence. subst qy.
    cbn [bind]. unfold postFormat. now rewrite Hc.
  - now injection Hy as ->.
Qed.

End RunOnNormalized.




(* ================================================================== *)
(** * Further properties of the engine *)
(* ================================================================== *)

(* ------------------------------------------------------------------ *)
(** ** equalizeWhitespace *)

Lemma equalizeWhitespace_from_single (s : jsstring) :
  forall b : bool,
    singleSpaced_from b (equalizeWhitespace_from b s) = true.
Proof.
  induction s as [|c s IH]; intros b; cbn [equalizeWhitespace_from];
    [reflexivity|].
  destruct (is_space c) eqn:Ec.
  - destruct b; [apply IH|].
    cbn [singleSpaced_from]. change (is_space SPACE) with true. cbv iota.
    rewrite N.eqb_refl. cbn [andb negb]. apply IH.
  - cbn [singleSpaced_from]. rewrite Ec. apply IH.
Qed.

Lemma equalizeWhitespace_from_twice (s : jsstring) :
  equalizeWhitespace_from false (equalizeWhitespace_from false s)
  = equalizeWhitespace_from false s
  /\ equalizeWhitespace_from true (equalizeWhitespace_from true s)
     = equalizeWhitespace_from true s.
Proof.
  induction s as [|c s [IHf IHt]]; [split; reflexivity|].
  cbn [equalizeWhitespace_from].
  destruct (is_space c) eqn:Ec.
  - split; [|exact IHt].
    cbn [equalizeWhitespace_from]. change (is_space SPACE) with true.
    cbv iota. now rewrite IHt.
  - cbn [equalizeWhitespace_from]. rewrite Ec, IHf. now split.
Qed.

Lemma equalizeWhitespace_from_rest (s : jsstring) :
  forall b : bool,
    filter (fun c => negb (is_space c)) (equalizeWhitespace_from b s)
    = filter (fun c => negb (is_space c)) s.
Proof.
  induction s as [|c s IH]; intros b; cbn [equalizeWhitespace_from filter];
    [reflexivity|].
  destruct (is_space c) eqn:Ec; cbn [negb].
  - destruct b; [apply IH|].
    cbn [filter]. change (is_space SPACE) with true. cbn [negb]. apply IH.
  - cbn [filter]. rewrite Ec. cbn [negb]. now rewrite IH.
Qed.


(* ------------------------------------------------------------------ *)
(** ** indentComment *)

Lemma is_blank_not_LF (c : char16) : is_blank c = true -> N.eqb c LF = false.
Proof.
  unfold is_blank, LF. intros H.
  apply orb_true_iff in H. destruct H as [H|H]; apply N.eqb_eq in H;
    subst c; reflexivity.
Qed.

Lemma indentComment_from_blanks (ind blanks s : jsstring) :
  forallb is_blank blanks = true ->
  indentComment_from ind true (blanks ++ s) = indentComment_from ind true s.
Proof.
  induction blanks as [|c blanks IH]; intros H; [reflexivity|].
  cbn [forallb] in H. apply andb_true_iff in H. destruct H as [Hc Hb].
  cbn [app indentComment_from].
  now rewrite (is_blank_not_LF c Hc), Hc, (IH Hb).
Qed.

Lemma indentComment_from_twice (ind : jsstring) :
  forallb is_blank ind = true ->
  forall s : jsstring,
    indentComment_from ind false (indentComment_from ind false s)
    = indentComment_from ind false s
    /\ indentComment_from ind true (indentComment_from ind true s)
       = indentComment_from ind true s.
Proof.
  intros Hind.
  assert (Hline : forall s b,
            indentComment_from ind true s
            = indentComment_from ind true (indentComment_from ind true s) ->
            indentComment_from ind b
              (LF :: ind ++ SPACE :: indentComment_from ind true s)
            = LF :: ind ++ SPACE :: indentComment_from ind true s).
  { intros s b IH. cbn [indentComment_from]. rewrite N.eqb_refl.
    do 3 f_equal.
    replace (ind ++ SPACE :: indentComment_from ind true s)
      with ((ind ++ [SPACE]) ++ indentComment_from ind true s)
      by (now rewrite <- app_assoc).
    rewrite indentComment_from_blanks; [now symmetry|].
    rewrite forallb_app, Hind. reflexivity. }
  induction s as [|c s [IHf IHt]]; [split; reflexivity|].
  cbn [indentComment_from].
  destruct (N.eqb c LF) eqn:Ec.
  - split; apply Hline; now symmetry.
  - cbn [andb]. destruct (is_blank c) eqn:Eb.
    + split; [|exact IHt].
      cbn [indentComment_from]. rewrite Ec. cbn [andb]. now rewrite IHf.
    + cbn [indentComment_from]. rewrite Ec, Eb, andb_false_r, IHf.
      now split.
Qed.

Lemma indentComment_from_no_LF (ind s : jsstring) :
  forallb (fun c => negb (N.eqb c LF)) s = true ->
  indentComment_from ind false s = s.
Proof.
  induction s as [|c s IH]; intros H; [reflexivity|].
  cbn [forallb] in H. apply andb_true_iff in H. destruct H as [Hc Hs].
  cbn [indentComment_from]. apply negb_true_iff in Hc.
  rewrite Hc. cbn [andb]. now rewrite (IH Hs).
Qed.

(** X2: [indentComment] leaves a comment of one line as it is, and, when
    the current indentation is made of spaces and tabs, it changes nothing
    in a comment it has indented: the indentation it writes after a line
    break is the white space it replaces the next time. *)
Theorem indentComment_settles
    {I B P : Type} {io : IndentationOps I} (f : Formatter I B P)
    (comment : jsstring) :
  (forallb (fun c => negb (N.eqb c LF)) comment = true ->
   indentComment f comment = comment)
  /\ (forallb is_blank (getIndent (indentation f)) = true ->
      indentComment f (indentComment f comment) = indentComment f comment).
Proof.
  split; intros H.
  - now apply indentComment_from_no_LF.
  - now apply indentComment_from_twice.
Qed.

(* ------------------------------------------------------------------ *)
(** ** tenSpacedToken and the keyword tests *)

Lemma split_space_nonempty (s : jsstring) : split_space s <> [].
Proof.
  destruct s as [|c s]; cbn [split_space]; [discriminate|].
  destruct (N.eqb c SPACE); [discriminate|].
  destruct (split_space s); discriminate.
Qed.

Lemma join_space_cons (b : jsstring) (tl : list jsstring) :
  join_space (b :: tl) = b ++ join_space ([] :: tl).
Proof. destruct tl; cbn [join_space app]; [now rewrite app_nil_r|reflexivity]. Qed.

Lemma join_split_space (s : jsstring) : join_space (split_space s) = s.
Proof.
  induction s as [|c s IH]; [reflexivity|].
  cbn [split_space]. destruct (N.eqb c SPACE) eqn:Ec.
  - apply N.eqb_eq in Ec. subst c.
    destruct (split_space s) as [|l ls] eqn:E;
      [now destruct (split_space_nonempty s)|].
    cbn [join_space app] in *. now rewrite IH.
  - destruct (split_space s) as [|l ls] eqn:E;
      [now destruct (split_space_nonempty s)|].
    rewrite join_space_cons in IH |- *. cbn [app]. now rewrite IH.
Qed.

Lemma join_space_tail (tl : list jsstring) :
  join_space ([] :: tl) = []
  \/ exists r, join_space ([] :: tl) = SPACE :: r.
Proof. destruct tl; cbn [join_space app]; eauto. Qed.

(** The value that [tenSpacedToken] assigns is the old one with a block of
    zero-width spaces put after or before its first word. *)
Lemma tenSpacedValue_shape (cfg : FormatOptions) (v : jsstring) :
  exists b rest : jsstring,
    v = b ++ rest
    /\ (rest = [] \/ exists r, rest = SPACE :: r)
    /\ tenSpacedValue cfg v
       = match keywordPosition cfg with
         | tenSpaceLeft => b ++ addBuffer b
         | _ => addBuffer b ++ b
         end ++ rest.
Proof.
  unfold tenSpacedValue.
  destruct ((10 <=? len v) && includes v [SPACE]).
  - destruct (split_space v) as [|b tl] eqn:E;
      [now destruct (split_space_nonempty v)|].
    exists b, (join_space ([] :: tl)). split; [|split].
    + now rewrite <- join_space_cons, <- E, join_split_space.
    + apply join_space_tail.
    + reflexivity.
  - exists v, []. cbn [join_space]. rewrite app_nil_r. auto.
Qed.

Lemma withoutZWS_app (a b : jsstring) :
  withoutZWS (a ++ b) = withoutZWS a ++ withoutZWS b.
Proof. apply filter_app. Qed.

Lemma withoutZWS_addBuffer (s : jsstring) : withoutZWS (addBuffer s) = [].
Proof.
  unfold addBuffer. induction (Z.to_nat (Z.max (9 - len s) 0)) as [|n IH];
    [reflexivity|].
  cbn [repeat_str app withoutZWS filter]. rewrite N.eqb_refl. exact IH.
Qed.

Lemma len_app (a b : jsstring) : len (a ++ b) = len a + len b.
Proof. unfold len. rewrite length_app. lia. Qed.

Lemma len_repeat_unit (c : char16) (n : nat) :
  len (repeat_str [c] n) = Z.of_nat n.
Proof.
  unfold len. induction n as [|n IH]; [reflexivity|].
  cbn [repeat_str app length]. lia.
Qed.

Lemma len_addBuffer (s : jsstring) : len (addBuffer s) = Z.max (9 - len s) 0.
Proof. unfold addBuffer. rewrite len_repeat_unit. lia. Qed.

Lemma len_nonneg (s : jsstring) : 0 <= len s.
Proof. unfold len. lia. Qed.

(** X3: [tenSpacedToken] only adds zero-width spaces to the value of the
    token: without them the value is the old one, and the kind, the key and
    the recorded white space are kept. In the ten-space modes the value it
    assigns is at least nine code units long. *)
Theorem tenSpacedToken_adds_only_ZWS
    {I B P : Type} (f : Formatter I B P) (t : Token) :
  withoutZWS (value (tenSpacedToken f t)) = withoutZWS (value t)
  /\ type (tenSpacedToken f t) = type t
  /\ key (tenSpacedToken f t) = key t
  /\ whitespaceBefore (tenSpacedToken f t) = whitespaceBefore t
  /\ (tenSpace (cfg f) = true -> 9 <= len (value (tenSpacedToken f t))).
Proof.
  rewrite tenSpacedToken_value.
  destruct (tenSpace (cfg f)); cbn [value type key whitespaceBefore];
    [|repeat split; discriminate].
  destruct (tenSpacedValue_shape (cfg f) (value t))
    as (b & rest & Hv & _ & Hs).
  rewrite Hs. repeat split.
  - rewrite Hv.
    destruct (keywordPosition (cfg f));
      rewrite !withoutZWS_app, withoutZWS_addBuffer, ?app_nil_r;
      reflexivity.
  - intros _. pose proof (len_nonneg rest). pose proof (len_nonneg b).
    destruct (keywordPosition (cfg f));
      rewrite !len_app, len_addBuffer; lia.
Qed.

Lemma dropWhile_app (p : char16 -> bool) (a b : jsstring) :
  dropWhile p (a ++ b)
  = if forallb p a then dropWhile p b else dropWhile p a ++ b.
Proof.
  induction a as [|c a IH]; [reflexivity|].
  cbn [app dropWhile forallb]. destruct (p c); [exact IH|reflexivity].
Qed.

Lemma forallb_rev (p : char16 -> bool) (s : jsstring) :
  forallb p (rev s) = forallb p s.
Proof.
  induction s as [|c s IH]; [reflexivity|].
  cbn [rev forallb]. rewrite forallb_app, IH. cbn [forallb].
  rewrite andb_true_r. apply andb_comm.
Qed.

Lemma dropWhileEnd_app (p : char16 -> bool) (a b : jsstring) :
  dropWhileEnd p (a ++ b)
  = if forallb p b then dropWhileEnd p a else a ++ dropWhileEnd p b.
Proof.
  unfold dropWhileEnd. rewrite rev_app_distr, dropWhile_app, forallb_rev.
  destruct (forallb p b); [reflexivity|].
  now rewrite rev_app_distr, rev_involutive.
Qed.

Lemma fold_iu_spaces (x c : char16) :
  is_spaces c = true -> N.eqb (fold_iu x) (fold_iu c) = true ->
  is_spaces x = true.
Proof.
  intros Hc H. apply N.eqb_eq in H.
  assert (Ec : fold_iu c = c).
  { unfold fold_iu, lower_char.
    destruct (N.eqb c 383) eqn:E1;
      [apply N.eqb_eq in E1; subst c; discriminate Hc|].
    destruct (N.eqb c 8490) eqn:E2;
      [apply N.eqb_eq in E2; subst c; discriminate Hc|].
    destruct ((65 <=? c) && (c <=? 90))%N eqn:E3; [|reflexivity].
    apply andb_true_iff in E3. destruct E3 as [L U].
    apply N.leb_le in L, U. exfalso.
    unfold is_spaces, is_space, ZWS in Hc.
    repeat (apply orb_true_iff in Hc; destruct Hc as [Hc|Hc]);
      try (apply andb_true_iff in Hc; destruct Hc as [H1 H2];
           apply N.leb_le in H1, H2; lia);
      apply N.eqb_eq in Hc; lia. }
  rewrite Ec in H. subst c.
  unfold fold_iu, lower_char in Hc.
  destruct (N.eqb x 383) eqn:E1; [discriminate Hc|].
  destruct (N.eqb x 8490) eqn:E2; [discriminate Hc|].
  destruct ((65 <=? x) && (x <=? 90))%N eqn:E3; [|exact Hc].
  apply andb_true_iff in E3. destruct E3 as [L U].
  apply N.leb_le in L, U. exfalso.
  unfold is_spaces, is_space, ZWS in Hc.
  repeat (apply orb_true_iff in Hc; destruct Hc as [Hc|Hc]);
    try (apply andb_true_iff in Hc; destruct Hc as [H1 H2];
         apply N.leb_le in H1, H2; lia);
    apply N.eqb_eq in Hc; lia.
Qed.

(** A text with a code unit of [spaces] in it is no keyword that has
    none. *)
Lemma eqs_by_fold_iu_noSpaces (kw s : jsstring) :
  noSpaces kw = true -> eqs_by fold_iu kw s = true -> noSpaces s = true.
Proof.
  revert s. induction kw as [|x kw IH]; intros [|c s] Hk H;
    cbn [eqs_by] in H; try discriminate; [reflexivity|].
  cbn [noSpaces forallb] in Hk |- *.
  apply andb_true_iff in Hk. destruct Hk as [Hx Hk].
  apply andb_true_iff in H. destruct H as [Hxc H].
  apply andb_true_iff. split; [|exact (IH s Hk H)].
  apply negb_true_iff. destruct (is_spaces c) eqn:Ec; [|reflexivity].
  rewrite (fold_iu_spaces x c Ec Hxc) in Hx. discriminate Hx.
Qed.

Lemma noSpaces_middle (a b : jsstring) (c : char16) :
  is_spaces c = true -> noSpaces (a ++ c :: b) = false.
Proof.
  intros Hc. unfold noSpaces. rewrite forallb_app. cbn [forallb].
  rewrite Hc. cbn [negb andb]. apply andb_false_r.
Qed.

Lemma eqs_by_fold_iu_middle (kw a b : jsstring) (c : char16) :
  noSpaces kw = true -> is_spaces c = true ->
  eqs_by fold_iu kw (a ++ c :: b) = false.
Proof.
  intros Hk Hc. destruct (eqs_by fold_iu kw (a ++ c :: b)) eqn:E;
    [|reflexivity].
  apply (eqs_by_fold_iu_noSpaces _ _ Hk) in E.
  now rewrite (noSpaces_middle a b c Hc) in E.
Qed.

(** A block of [spaces] put in front of a space of the value, or at one of
    its ends, does not change what the pattern of [testToken] finds. *)
Lemma keyword_in_padded (kw x pad y : jsstring) :
  noSpaces kw = true ->
  forallb is_spaces pad = true ->
  (y = [] \/ exists r, y = SPACE :: r) ->
  eqs_by fold_iu kw
    (dropWhileEnd is_spaces (dropWhile is_spaces (x ++ pad ++ y)))
  = eqs_by fold_iu kw
      (dropWhileEnd is_spaces (dropWhile is_spaces (x ++ y))).
Proof.
  intros Hk Hpad Hy.
  rewrite !(dropWhile_app is_spaces x).
  destruct (forallb is_spaces x) eqn:Ex.
  - now rewrite dropWhile_app, Hpad.
  - rewrite !dropWhileEnd_app, forallb_app, Hpad. cbn [andb].
    destruct (forallb is_spaces y) eqn:Ey; [reflexivity|].
    destruct Hy as [->|[r ->]]; [discriminate Ey|].
    assert (Er : forallb is_spaces r = false) by exact Ey.
    change (SPACE :: r) with ([SPACE] ++ r).
    rewrite dropWhileEnd_app, Er. cbn [app].
    rewrite (eqs_by_fold_iu_middle kw (dropWhile is_spaces x)
               (dropWhileEnd is_spaces r) SPACE Hk eq_refl).
    rewrite app_assoc.
    apply (eqs_by_fold_iu_middle kw (dropWhile is_spaces x ++ pad)
             (dropWhileEnd is_spaces r) SPACE Hk eq_refl).
Qed.

Lemma addBuffer_spaces (s : jsstring) : forallb is_spaces (addBuffer s) = true.
Proof.
  unfold addBuffer. induction (Z.to_nat (Z.max (9 - len s) 0)) as [|n IH];
    [reflexivity|exact IH].
Qed.

Lemma keyword_in_tenSpacedValue (cfg : FormatOptions) (kw v : jsstring) :
  noSpaces kw = true ->
  eqs_by fold_iu kw
    (dropWhileEnd is_spaces (dropWhile is_spaces (tenSpacedValue cfg v)))
  = eqs_by fold_iu kw (dropWhileEnd is_spaces (dropWhile is_spaces v)).
Proof.
  intros Hk.
  destruct (tenSpacedValue_shape cfg v) as (b & rest & Hv & Hrest & Hs).
  rewrite Hs, Hv.
  assert (Right : eqs_by fold_iu kw
                    (dropWhileEnd is_spaces
                       (dropWhile is_spaces ((addBuffer b ++ b) ++ rest)))
                  = eqs_by fold_iu kw
                      (dropWhileEnd is_spaces
                         (dropWhile is_spaces (b ++ rest)))).
  { now rewrite <- app_assoc, (dropWhile_app is_spaces (addBuffer b)),
      addBuffer_spaces. }
  destruct (keywordPosition cfg); try exact Right.
  rewrite <- app_assoc.
  apply keyword_in_padded; [exact Hk|apply addBuffer_spaces|exact Hrest].
Qed.


(* ------------------------------------------------------------------ *)
(** ** The span and the errors of checkNewline *)

Lemma findIndex_none {A : Type} (p : A -> bool) (l : list A) :
  existsb p l = false -> findIndex p l = -1.
Proof.
  induction l as [|x l IH]; [reflexivity|].
  cbn [existsb findIndex]. destruct (p x); [discriminate|].
  cbn [orb]. intros H. now rewrite (IH H).
Qed.

Lemma removelast_firstn_pred {A : Type} (l : list A) :
  removelast l = firstn (pred (length l)) l.
Proof.
  induction l as [|x l IH]; [reflexivity|].
  destruct l as [|y l]; [reflexivity|].
  change (removelast (x :: y :: l)) with (x :: removelast (y :: l)).
  now rewrite IH.
Qed.

(** X5: the span that [checkNewline] looks at is made of the tokens after
    the command up to the next command, binary command or [;]; when none
    follows, it is what is left of the array without its last token (the
    index [-1] of [findIndex] is taken by [slice] from the end). *)
Theorem nextTokens_span (tokens : list Token) (index : nat) :
  nextTokens tokens index
  = if existsb clauseEnd (skipn (index + 1) tokens)
    then takeUntil clauseEnd (skipn (index + 1) tokens)
    else removelast (skipn (index + 1) tokens).
Proof.
  destruct (existsb clauseEnd (skipn (index + 1) tokens)) eqn:E.
  - apply nextTokens_clauseSpan. now right.
  - unfold nextTokens.
    destruct (skipn (index + 1) tokens) as [|t tail]; [reflexivity|].
    rewrite (findIndex_none clauseEnd (t :: tail) E).
    unfold slice0. rewrite removelast_firstn_pred.
    change (-1 <? 0) with true. cbv iota. f_equal.
    cbn [length]. lia.
Qed.

Lemma nextTokens_out_of_range (tokens : list Token) (index : nat) :
  (length tokens <= index)%nat -> nextTokens tokens index = [].
Proof.
  intros H. unfold nextTokens. now rewrite skipn_all2 by lia.
Qed.

(** X6: [checkNewline] raises an error only for an index outside the token
    array in a mode that measures the clause (the line width or a number
    of items): it is the TypeError of reading [whitespaceBefore] of
    [undefined]. In the modes [always] and [never] it answers for every
    index. *)
Theorem checkNewline_raises
    (tokens : list Token) (nl : Newline) (ws : bool) (lw : Z) (index : nat)
    (e : JsError) :
  checkNewline tokens nl ws lw index = Throw e
  <-> e = TypeError /\ (length tokens <= index)%nat /\ plainMode nl = false.
Proof.
  destruct (nth_error tokens index) as [t|] eqn:Ht.
  - split.
    + intros H.
      destruct (@checkNewline_returns tokens nl ws lw index t Ht) as [b Hb].
      rewrite Hb in H. discriminate H.
    + intros (_ & Hlen & _).
      apply nth_error_None in Hlen. rewrite Hlen in Ht. discriminate Ht.
  - pose proof Ht as Hlen. apply nth_error_None in Hlen.
    unfold checkNewline.
    rewrite (nextTokens_out_of_range tokens index Hlen), Ht.
    cbn [existsb]. rewrite andb_false_r, orb_false_r.
    destruct nl; cbn [plainMode]; split; intros H;
      try discriminate H;
      try (destruct H as (-> & _ & H); first [discriminate H|reflexivity]);
      injection H as <-; repeat split; assumption.
Qed.

(* ------------------------------------------------------------------ *)
(** ** The errors of a run *)

Lemma eqs_eq (a b : jsstring) : eqs a b = true -> a = b.
Proof.
  revert b. induction a as [|x a IH]; intros [|y b] H; cbn [eqs] in H;
    try discriminate; [reflexivity|].
  apply andb_true_iff in H. destruct H as [Hxy H].
  apply N.eqb_eq in Hxy. subst y. now rewrite (IH b H).
Qed.

Section RunErrors.

Context {I B P : Type}.
Context {io : IndentationOps I} {bo : InlineBlockOps B} {po : ParamsOps P}.

Local Abbreviation Formatter := (Formatter I B P).

Lemma separatorNewlines_outcome (cfg : FormatOptions) :
  (linesBetweenQueries cfg < -1 -> separatorNewlines cfg = Throw RangeError)
  /\ (-1 <= linesBetweenQueries cfg ->
      exists nl, separatorNewlines cfg = Ret nl).
Proof.
  unfold separatorNewlines. cbv zeta.
  split; intros H;
    destruct (Z.eqb_spec (linesBetweenQueries cfg) 0) as [E|E];
    try lia.
  - destruct (Z.ltb_spec (linesBetweenQueries cfg + 1) 0); [reflexivity|lia].
  - destruct (Z.ltb_spec (1 + 1) 0); [lia|eauto].
  - destruct (Z.ltb_spec (linesBetweenQueries cfg + 1) 0); [lia|eauto].
Qed.

Lemma formatOperator_separator (f : Formatter) (t : Token) (q : jsstring) :
  eqs (value t) (lit ";") = true ->
  linesBetweenQueries (cfg f) < -1 ->
  formatOperator f t q = Throw RangeError.
Proof.
  intros Hv Hn. unfold formatOperator.
  rewrite (eqs_eq _ _ Hv). change (eqs (lit ";") (lit ",")) with false.
  change (eqs (lit ";") (lit ";")) with true. cbv iota.
  unfold formatQuerySeparator. cbv zeta.
  change (cfg (on_indentation resetIndentation f)) with (cfg f).
  now rewrite (proj1 (separatorNewlines_outcome (cfg f)) Hn).
Qed.

Lemma formatOperator_other (f : Formatter) (t : Token) (q : jsstring) :
  eqs (value t) (lit ";") = false \/ -1 <= linesBetweenQueries (cfg f) ->
  exists r, formatOperator f t q = Ret r.
Proof.
  intros H. unfold formatOperator.
  destruct (eqs (value t) (lit ",")); [eauto|].
  destruct (eqs (value t) (lit ";")).
  - destruct H as [H|H]; [discriminate H|].
    unfold formatQuerySeparator. cbv zeta.
    change (cfg (on_indentation resetIndentation f)) with (cfg f).
    destruct (proj2 (separatorNewlines_outcome (cfg f)) H) as [nl ->].
    cbn [bind]. eauto.
  - repeat match goal with
           | |- context [if ?b then _ else _] => destruct b
           end; eauto.
Qed.

(** The token and the state after the block under [isReserved]. *)
Lemma markReserved_frame (f : Formatter) (t : Token) :
  nth_error (tokens f) (index f) = Some t ->
  cfg (snd (markReserved f t)) = cfg f
  /\ index (snd (markReserved f t)) = index f
  /\ nth_error (tokens (snd (markReserved f t))) (index f)
     = Some (fst (markReserved f t))
  /\ type (fst (markReserved f t)) = type t
  /\ (isReserved t = false -> fst (markReserved f t) = t).
Proof.
  intros Ht. unfold markReserved.
  destruct (isReserved t); cbv zeta.
  - destruct (negb (TokenType_eqb (type t) RESERVED_KEYWORD)).
    + rewrite tenSpacedToken_type.
      destruct (TokenType_eqb (type t) RESERVED_COMMAND);
        cbn [fst snd cfg index tokens set_withinSelect set_tokens
             set_previousReservedToken];
        repeat split; try discriminate;
        try apply tenSpacedToken_type;
        eapply nth_error_store; exact Ht.
    + destruct (TokenType_eqb (type t) RESERVED_COMMAND);
        cbn [fst snd cfg index tokens set_withinSelect set_tokens
             set_previousReservedToken];
        repeat split; try discriminate; exact Ht.
  - cbn [fst snd]. repeat split; exact Ht.
Qed.

Lemma isSeparator_not_reserved (t : Token) :
  type t = OPERATOR -> isReserved t = false.
Proof. unfold isReserved. now intros ->. Qed.

Lemma formatToken_outcome (f : Formatter) (q : jsstring) (t : Token) :
  nth_error (tokens f) (index f) = Some t ->
  (isSeparator t = true -> linesBetweenQueries (cfg f) < -1 ->
   formatToken f q = Throw RangeError)
  /\ (isSeparator t = false \/ -1 <= linesBetweenQueries (cfg f) ->
      exists r, formatToken f q = Ret r).
Proof.
  intros Ht. unfold formatToken. rewrite Ht. unfold tokenOverride.
  destruct (markReserved_frame f t Ht) as (Hc & Hi & Hx & Hty & Hsame).
  destruct (markReserved f t) as [token g]. cbn [fst snd] in *.
  split.
  - intros Hs Hn. unfold isSeparator in Hs.
    apply andb_true_iff in Hs. destruct Hs as [Hop Hv].
    assert (Eop : type t = OPERATOR)
      by (destruct (type t); try discriminate Hop; reflexivity).
    rewrite (Hsame (isSeparator_not_reserved t Eop)).
    unfold dispatch. rewrite Eop.
    apply formatOperator_separator; [exact Hv|now rewrite Hc].
  - intros H. unfold dispatch.
    destruct (type token) eqn:Ety; eauto.
    + rewrite <- Hi in Hx.
      destruct (@checkNewline_returns (tokens g) (newline (cfg g))
                  (withinSelect g) (lineWidth (cfg g)) _ _ Hx) as [b ->].
      cbn [bind]. eauto.
    + apply formatOperator_other. rewrite Hc.
      destruct H as [H|H]; [left|now right].
      assert (Eop : type t = OPERATOR) by congruence.
      rewrite (Hsame (isSeparator_not_reserved t Eop)).
      unfold isSeparator in H. now rewrite Eop in H.
Qed.

Lemma isSeparator_padded (f : Formatter) (t : Token) :
  isSeparator (padded f t) = isSeparator t.
Proof.
  unfold padded, isSeparator.
  destruct (isReserved t && _) eqn:E; [|reflexivity].
  apply andb_true_iff in E. destruct E as [E _].
  rewrite tenSpacedToken_type.
  destruct (type t) eqn:Ety; try reflexivity.
  unfold isReserved in E. rewrite Ety in E. discriminate E.
Qed.

Lemma formatTokens_outcome (todo : list Token) :
  forall (f : Formatter) (q : jsstring) (done : list Token),
    tokens f = done ++ todo ->
    index f = length done ->
    (existsb isSeparator todo = true -> linesBetweenQueries (cfg f) < -1 ->
     formatTokens (length todo) f q = Throw RangeError)
    /\ (existsb isSeparator todo = false
        \/ -1 <= linesBetweenQueries (cfg f) ->
        exists r, formatTokens (length todo) f q = Ret r).
Proof.
  induction todo as [|t todo IH]; intros f q done Hts Hi.
  - split; [discriminate|]. intros _. cbn [length formatTokens]. eauto.
  - assert (Ht : nth_error (tokens f) (index f) = Some t).
    { rewrite Hts, Hi, nth_error_app2, Nat.sub_diag by lia. reflexivity. }
    destruct (formatToken_outcome f q t Ht) as [Hthrow Hret].
    cbn [length formatTokens existsb].
    assert (Next : forall q1 f1,
               formatToken f q = Ret (q1, f1) ->
               cfg f1 = cfg f
               /\ tokens (set_index (S (index f1)) f1)
                  = (done ++ [padded f t]) ++ todo
               /\ index (set_index (S (index f1)) f1)
                  = length (done ++ [padded f t])).
    { intros q1 f1 E.
      destruct (formatToken_frame _ _ E) as (Hc & Hi1 & t' & Ht' & Hts1).
      rewrite Ht in Ht'. injection Ht' as <-.
      split; [exact Hc|]. cbn [set_index tokens index]. split.
      - rewrite Hts1, Hts, Hi, store_app, <- app_assoc. reflexivity.
      - rewrite Hi1, Hi, length_app. cbn [length]. lia. }
    split.
    + intros Hs Hn.
      destruct (isSeparator t) eqn:Es.
      * now rewrite (Hthrow eq_refl Hn).
      * destruct (Hret (or_introl eq_refl)) as [[q1 f1] E].
        rewrite E. cbn [bind].
        destruct (Next q1 f1 E) as (Hc & Hts' & Hi').
        apply (proj1 (IH _ q1 _ Hts' Hi')); [exact Hs|].
        cbn [set_index cfg]. now rewrite Hc.
    + intros H.
      assert (H0 : isSeparator t = false
                   \/ -1 <= linesBetweenQueries (cfg f)).
      { destruct H as [H|H]; [left|now right].
        now apply orb_false_iff in H. }
      destruct (Hret H0) as [[q1 f1] E].
      rewrite E. cbn [bind].
      destruct (Next q1 f1 E) as (Hc & Hts' & Hi').
      apply (proj2 (IH _ q1 _ Hts' Hi')).
      cbn [set_index cfg]. rewrite Hc.
      destruct H as [H|H]; [left|now right].
      now apply orb_false_iff in H.
Qed.

Lemma getFormattedQueryFromTokens_outcome (f : Formatter) :
  (existsb isSeparator (tokens f) = true ->
   linesBetweenQueries (cfg f) < -1 ->
   getFormattedQueryFromTokens f = Throw RangeError)
  /\ (existsb isSeparator (tokens f) = false
      \/ -1 <= linesBetweenQueries (cfg f) ->
      exists r, getFormattedQueryFromTokens f = Ret r).
Proof.
  unfold getFormattedQueryFromTokens.
  destruct (formatTokens_outcome (tokens f) (set_index 0 f) [] []
              eq_refl eq_refl) as [Hthrow Hret].
  split.
  - intros Hs Hn. now rewrite (Hthrow Hs Hn).
  - intros H. destruct (Hret H) as [[q1 f1] ->]. cbn [bind]. eauto.
Qed.

End RunErrors.

(** X7: the loop over the tokens raises an error in one case only: a
    separator [;] among the tokens with a count of lines between queries
    below -1, which makes the count given to [repeat] negative; the error
    is a RangeError. In every other case the loop returns: it reads no
    token outside the array and asks [checkNewline] at indices of the
    array only. *)
Theorem run_raises_only_RangeError
    {I B P : Type} {io : IndentationOps I} {bo : InlineBlockOps B}
    {po : ParamsOps P} (f : Formatter I B P) (e : JsError) :
  getFormattedQueryFromTokens f = Throw e
  <-> e = RangeError
      /\ existsb isSeparator (tokens f) = true
      /\ linesBetweenQueries (cfg f) < -1.
Proof.
  destruct (getFormattedQueryFromTokens_outcome f) as [Hthrow Hret].
  split.
  - intros H.
    destruct (existsb isSeparator (tokens f)) eqn:Es.
    + destruct (Z.lt_ge_cases (linesBetweenQueries (cfg f)) (-1)) as [L|L].
      * rewrite (Hthrow eq_refl L) in H. injection H as <-. auto.
      * destruct (Hret (or_intror L)) as [r Hr].
        rewrite Hr in H. discriminate H.
    + destruct (Hret (or_introl eq_refl)) as [r Hr].
      rewrite Hr in H. discriminate H.
  - intros (-> & Hs & Hn). exact (Hthrow Hs Hn).
Qed.

(** X8: [format] raises a RangeError for a query with a separator [;] when
    the count of lines between queries is below -1, whatever the other
    options are; and with no pass after the run (no tabulation of aliases,
    commas in the position [after]) this is the only error it raises. *)
Theorem format_raises_RangeError
    {I B P : Type} {io : IndentationOps I} {bo : InlineBlockOps B}
    {po : ParamsOps P} (tokenize : jsstring -> list Token)
    (f : Formatter I B P) (query : jsstring) :
  (existsb isSeparator (tokenize query) = true ->
   linesBetweenQueries (cfg f) < -1 ->
   format tokenize f query = Throw RangeError)
  /\ (tabulateAlias (cfg f) = false ->
      commaPosition (cfg f) = comma_after ->
      forall e : JsError,
        format tokenize f query = Throw e ->
        e = RangeError
        /\ existsb isSeparator (tokenize query) = true
        /\ linesBetweenQueries (cfg f) < -1).
Proof.
  unfold format. cbv zeta.
  destruct (getFormattedQueryFromTokens_outcome
              (set_tokens (tokenize query) f)) as [Hthrow Hret].
  cbn [set_tokens tokens cfg] in Hthrow, Hret.
  split.
  - intros Hs Hn. now rewrite (Hthrow Hs Hn).
  - intros Ha Hc e.
    destruct (existsb isSeparator (tokenize query)) eqn:Es.
    + destruct (Z.lt_ge_cases (linesBetweenQueries (cfg f)) (-1)) as [L|L].
      * rewrite (Hthrow eq_refl L). cbn [bind]. intros [= <-]. auto.
      * destruct (Hret (or_intror L)) as [[q f'] Hr]. rewrite Hr.
        destruct (getFormattedQueryFromTokens_frame _ Hr) as [Hcfg _].
        cbn [bind]. unfold postFormat. rewrite Hcfg. cbn [set_tokens cfg].
        rewrite Ha, Hc. cbn [bind]. discriminate.
    + destruct (Hret (or_introl eq_refl)) as [[q f'] Hr]. rewrite Hr.
      destruct (getFormattedQueryFromTokens_frame _ Hr) as [Hcfg _].
      cbn [bind]. unfold postFormat. rewrite Hcfg. cbn [set_tokens cfg].
      rewrite Ha, Hc. cbn [bind]. discriminate.
Qed.

(* ------------------------------------------------------------------ *)
(** ** A query without tokens *)

(** X9: for a query in which the tokenizer finds no token, [format]
    returns the empty string, whatever the options and the state of the
    formatter are: the loop does not run and each pass after it leaves the
    one empty line alone. *)
Theorem format_of_no_tokens
    {I B P : Type} {io : IndentationOps I} {bo : InlineBlockOps B}
    {po : ParamsOps P} (tokenize : jsstring -> list Token)
    (f : Formatter I B P) (query : jsstring) :
  tokenize query = [] ->
  format tokenize f query = Ret [].
Proof.
  intros H. unfold format, getFormattedQueryFromTokens. cbv zeta.
  cbn [set_tokens tokens]. rewrite H.
  cbn [length formatTokens bind replaceZWS map]. unfold postFormat.
  cbn [set_index set_tokens cfg].
  destruct (tabulateAlias (cfg f)), (commaPosition (cfg f)); reflexivity.
Qed.

Lemma format_of_no_tokens_witness :
  tokenizeWords exampleKeywords (lit "  ") = []
  /\ formatWords exampleOptions (lit "  ") = Ret [].
Proof.
  assert (H : tokenizeWords exampleKeywords (lit "  ") = []) by reflexivity.
  split; [exact H|].
  exact (format_of_no_tokens (tokenizeWords exampleKeywords)
           (@constructor Indentation InlineBlock Params _ _ _ exampleOptions)
           (lit "  ") H).
Defined.

(* ------------------------------------------------------------------ *)
(** ** What a run writes *)

Lemma lower_upper_char (c : char16) : lower_char (upper_char c) = lower_char c.
Proof.
  unfold lower_char, upper_char.
  destruct ((97 <=? c) && (c <=? 122))%N eqn:E; [|reflexivity].
  apply andb_true_iff in E. destruct E as [E1 E2]. apply N.leb_le in E1, E2.
  rewrite (proj2 (N.leb_le 65 (c - 32))) by lia.
  rewrite (proj2 (N.leb_le (c - 32) 90)) by lia.
  rewrite (proj2 (N.leb_gt c 90)) by lia. rewrite andb_false_r.
  cbn [andb]. lia.
Qed.

Lemma content_cons (c : char16) (s : jsstring) :
  content (c :: s)
  = if is_spaces c then content s else lower_char c :: content s.
Proof.
  unfold content. cbn [toLowerCase map filter]. rewrite is_spaces_lower.
  now destruct (is_spaces c).
Qed.

Lemma content_app (a b : jsstring) : content (a ++ b) = content a ++ content b.
Proof. unfold content. now rewrite toLowerCase_app, filter_app. Qed.

Lemma content_white (s : jsstring) :
  forallb is_spaces s = true -> content s = [].
Proof.
  induction s as [|c s IH]; [reflexivity|].
  cbn [forallb]. intros H. apply andb_true_iff in H. destruct H as [Hc Hs].
  now rewrite content_cons, Hc, (IH Hs).
Qed.

Lemma content_upper (s : jsstring) : content (toUpperCase s) = content s.
Proof.
  unfold content, toLowerCase, toUpperCase. rewrite map_map. f_equal.
  apply map_ext, lower_upper_char.
Qed.

Lemma content_lower (s : jsstring) : content (toLowerCase s) = content s.
Proof. unfold content. now rewrite toLowerCase_idem. Qed.

Lemma is_space_spaces (c : char16) : is_space c = true -> is_spaces c = true.
Proof. intros H. unfold is_spaces. rewrite H. apply orb_true_r. Qed.

Lemma is_blank_spaces (c : char16) : is_blank c = true -> is_spaces c = true.
Proof.
  unfold is_blank. intros H. apply orb_true_iff in H.
  destruct H as [H|H]; apply N.eqb_eq in H; subst c; reflexivity.
Qed.

Lemma content_equalizeWhitespace_from (s : jsstring) :
  forall b : bool, content (equalizeWhitespace_from b s) = content s.
Proof.
  induction s as [|c s IH]; intros b; [reflexivity|].
  cbn [equalizeWhitespace_from]. rewrite (content_cons c s).
  destruct (is_space c) eqn:Ec.
  - rewrite (is_space_spaces c Ec).
    destruct b; [apply IH|]. rewrite content_cons.
    change (is_spaces SPACE) with true. cbv iota. apply IH.
  - rewrite content_cons. now rewrite IH.
Qed.

Lemma dropWhile_split (p : char16 -> bool) (s : jsstring) :
  exists pre, s = pre ++ dropWhile p s /\ forallb p pre = true.
Proof.
  induction s as [|c s (pre & IH & Hp)]; [now exists []|].
  cbn [dropWhile]. destruct (p c) eqn:Ec.
  - exists (c :: pre). cbn [app forallb]. rewrite Ec, Hp. split; [|reflexivity].
    now rewrite <- IH.
  - now exists [].
Qed.

Lemma dropWhileEnd_split (p : char16 -> bool) (s : jsstring) :
  exists post, s = dropWhileEnd p s ++ post /\ forallb p post = true.
Proof.
  unfold dropWhileEnd.
  destruct (dropWhile_split p (rev s)) as (pre & E & Hp).
  exists (rev pre). split.
  - rewrite <- rev_app_distr, <- E. now rewrite rev_involutive.
  - now rewrite forallb_rev.
Qed.

Lemma forallb_impl (p q : char16 -> bool) (s : jsstring) :
  (forall c, p c = true -> q c = true) ->
  forallb p s = true -> forallb q s = true.
Proof.
  intros H. induction s as [|c s IH]; [reflexivity|].
  cbn [forallb]. intros E. apply andb_true_iff in E. destruct E as [Ec Es].
  now rewrite (H c Ec), (IH Es).
Qed.

Lemma content_dropWhileEnd (p : char16 -> bool) (s : jsstring) :
  (forall c, p c = true -> is_spaces c = true) ->
  content (dropWhileEnd p s) = content s.
Proof.
  intros H. destruct (dropWhileEnd_split p s) as (post & E & Hp).
  rewrite E at 2. rewrite content_app.
  rewrite (content_white post (forallb_impl p is_spaces post H Hp)).
  now rewrite app_nil_r.
Qed.

Lemma content_trimSpacesEnd (s : jsstring) :
  content (trimSpacesEnd s) = content s.
Proof. apply content_dropWhileEnd, is_blank_spaces. Qed.

Lemma content_trimEnd (s : jsstring) : content (trimEnd s) = content s.
Proof. apply content_dropWhileEnd, is_space_spaces. Qed.

Lemma content_indentComment_from (ind : jsstring) :
  forallb is_spaces ind = true ->
  forall (s : jsstring) (b : bool),
    content (indentComment_from ind b s) = content s.
Proof.
  intros Hind. induction s as [|c s IH]; intros b; [reflexivity|].
  cbn [indentComment_from]. rewrite (content_cons c s).
  destruct (N.eqb c LF) eqn:Ec.
  - apply N.eqb_eq in Ec. subst c. change (is_spaces LF) with true. cbv iota.
    rewrite content_cons. change (is_spaces LF) with true. cbv iota.
    rewrite content_app, (content_white ind Hind), content_cons.
    change (is_spaces SPACE) with true. cbv iota. apply IH.
  - destruct (b && is_blank c) eqn:Eb.
    + apply andb_true_iff in Eb. destruct Eb as [_ Eb].
      rewrite (is_blank_spaces c Eb). apply IH.
    + rewrite content_cons. now rewrite IH.
Qed.

Lemma content_tenSpacedValue (cfg : FormatOptions) (v : jsstring) :
  content (tenSpacedValue cfg v) = content v.
Proof.
  destruct (tenSpacedValue_shape cfg v) as (b & rest & Hv & _ & Hs).
  rewrite Hs. rewrite Hv.
  destruct (keywordPosition cfg);
    rewrite !content_app, (content_white _ (addBuffer_spaces b)),
      ?app_nil_r; reflexivity.
Qed.

Lemma content_replaceZWS (s : jsstring) : content (replaceZWS s) = content s.
Proof.
  induction s as [|c s IH]; [reflexivity|].
  cbn [replaceZWS map]. fold (replaceZWS s). rewrite !content_cons, IH.
  destruct (N.eqb c ZWS) eqn:Ec; [|reflexivity].
  apply N.eqb_eq in Ec. now subst c.
Qed.

Lemma content_repeat_LF (n : nat) : content (repeat_str [LF] n) = [].
Proof.
  apply content_white. induction n as [|n IH]; [reflexivity|exact IH].
Qed.

Section RunContent.

Context {I B P : Type}.
Context {io : IndentationOps I} {bo : InlineBlockOps B} {po : ParamsOps P}.

Local Abbreviation Formatter := (Formatter I B P).

Variable white : I -> Prop.
Hypothesis Hkeeps : keepsWhite white.

Lemma white_getIndent (i : I) : white i -> content (getIndent i) = [].
Proof. intros H. apply content_white. now apply (proj1 Hkeeps). Qed.

Lemma white_increaseTopLevel (i : I) : white i -> white (increaseTopLevel i).
Proof. intros H. apply (proj2 Hkeeps i H). Qed.
Lemma white_increaseBlockLevel (i : I) :
  white i -> white (increaseBlockLevel i).
Proof. intros H. apply (proj2 Hkeeps i H). Qed.
Lemma white_decreaseTopLevel (i : I) : white i -> white (decreaseTopLevel i).
Proof. intros H. apply (proj2 Hkeeps i H). Qed.
Lemma white_decreaseBlockLevel (i : I) :
  white i -> white (decreaseBlockLevel i).
Proof. intros H. apply (proj2 Hkeeps i H). Qed.
Lemma white_resetIndentation (i : I) : white i -> white (resetIndentation i).
Proof. intros H. apply (proj2 Hkeeps i H). Qed.

Ltac state :=
  cbn [cfg currentNewline indentation inlineBlock params
       previousReservedToken withinSelect tokens index fst snd
       on_indentation set_currentNewline set_indentation set_inlineBlock
       set_params set_previousReservedToken set_withinSelect set_tokens
       set_index].

Ltac whiteness :=
  state;
  repeat first
    [ assumption
    | apply white_increaseTopLevel
    | apply white_increaseBlockLevel
    | apply white_decreaseTopLevel
    | apply white_decreaseBlockLevel
    | apply white_resetIndentation ].

Lemma content_show (f : Formatter) (t : Token) :
  content (show f t) = content (value t).
Proof.
  unfold show.
  destruct (isReserved t || _ || _); [|reflexivity].
  destruct (uppercase (cfg f)); [apply content_upper|apply content_lower].
Qed.

Lemma content_addNewline (f : Formatter) (q : jsstring) :
  white (indentation f) -> content (addNewline f q) = content q.
Proof.
  intros H. unfold addNewline. cbv zeta.
  rewrite content_app, (white_getIndent _ H), app_nil_r.
  destruct (endsWith (trimSpacesEnd q) [LF]).
  - apply content_trimSpacesEnd.
  - rewrite content_app, content_trimSpacesEnd. cbn [content].
    apply app_nil_r.
Qed.

Lemma content_formatWithSpaces (f : Formatter) (t : Token) (q : jsstring)
    (p : Preserve) :
  content (formatWithSpaces f t q p) = content q ++ content (value t).
Proof.
  unfold formatWithSpaces. cbv zeta.
  rewrite !content_app, content_show.
  destruct p; rewrite ?content_trimSpacesEnd; cbn [content];
    now rewrite ?app_nil_r.
Qed.

Lemma content_formatWithoutSpaces (f : Formatter) (t : Token) (q : jsstring) :
  content (formatWithoutSpaces f t q) = content q ++ content (value t).
Proof.
  unfold formatWithoutSpaces.
  now rewrite content_app, content_show, content_trimSpacesEnd.
Qed.

Ltac contents :=
  repeat first
    [ rewrite content_app
    | rewrite content_show
    | rewrite content_formatWithSpaces
    | rewrite content_formatWithoutSpaces
    | rewrite content_equalizeWhitespace_from
    | rewrite content_trimSpacesEnd
    | rewrite content_trimEnd
    | rewrite content_repeat_LF
    | rewrite content_addNewline by whiteness
    | match goal with
      | |- context [content (indent ?c)] =>
          rewrite (content_white (indent c)) by (state; assumption)
      end
    | rewrite app_nil_r
    | rewrite <- app_assoc ];
  change (content [SPACE]) with (@nil char16);
  change (content [LF]) with (@nil char16);
  rewrite ?app_nil_r.

Ltac branches :=
  repeat match goal with
         | |- context [if ?c then _ else _] => destruct c
         end.

Lemma content_formatLineComment (f : Formatter) (t : Token) (q : jsstring) :
  white (indentation f) ->
  content (formatLineComment f t q) = content q ++ content (value t).
Proof. intros H. unfold formatLineComment. now contents. Qed.

Lemma content_formatBlockComment (f : Formatter) (t : Token) (q : jsstring) :
  white (indentation f) ->
  content (formatBlockComment f t q) = content q ++ content (value t).
Proof.
  intros H. unfold formatBlockComment, indentComment. contents.
  rewrite content_indentComment_from; [reflexivity|].
  now apply (proj1 Hkeeps).
Qed.

Lemma content_formatCommand (f : Formatter) (t : Token) (q : jsstring) :
  white (indentation f) ->
  content (fst (formatCommand f t q)) = content q ++ content (value t)
  /\ white (indentation (snd (formatCommand f t q)))
  /\ cfg (snd (formatCommand f t q)) = cfg f.
Proof.
  intros H. unfold formatCommand, equalizeWhitespace. cbv zeta.
  branches; state; repeat split; try whiteness; now contents.
Qed.

Lemma content_formatBinaryCommand (f : Formatter) (t : Token) (q : jsstring) :
  white (indentation f) ->
  content (fst (formatBinaryCommand f t q)) = content q ++ content (value t)
  /\ white (indentation (snd (formatBinaryCommand f t q)))
  /\ cfg (snd (formatBinaryCommand f t q)) = cfg f.
Proof.
  intros H. unfold formatBinaryCommand, equalizeWhitespace. cbv zeta.
  branches; state; repeat split; try whiteness; now contents.
Qed.

Lemma content_formatDependentClause (f : Formatter) (t : Token)
    (q : jsstring) :
  white (indentation f) ->
  content (formatDependentClause f t q) = content q ++ content (value t).
Proof.
  intros H. unfold formatDependentClause, equalizeWhitespace. now contents.
Qed.

Lemma content_formatLogicalOperator (f : Formatter) (t : Token)
    (q : jsstring) :
  white (indentation f) ->
  content (fst (formatLogicalOperator f t q)) = content q ++ content (value t)
  /\ white (indentation (snd (formatLogicalOperator f t q)))
  /\ cfg (snd (formatLogicalOperator f t q)) = cfg f.
Proof.
  intros H. unfold formatLogicalOperator, equalizeWhitespace. cbv zeta.
  branches; state; repeat split; try whiteness; now contents.
Qed.

Lemma content_formatBlockStart (f : Formatter) (t : Token) (q : jsstring) :
  white (indentation f) ->
  content (fst (formatBlockStart f t q)) = content q ++ content (value t)
  /\ white (indentation (snd (formatBlockStart f t q)))
  /\ cfg (snd (formatBlockStart f t q)) = cfg f.
Proof.
  intros H. unfold formatBlockStart. cbv zeta.
  destruct (isToken.CASE (Some t)); state;
    branches; state; repeat split; try whiteness; now contents.
Qed.

Lemma content_formatBlockEnd (f : Formatter) (t : Token) (q : jsstring) :
  white (indentation f) ->
  forallb is_spaces (indent (cfg f)) = true ->
  content (fst (formatBlockEnd f t q)) = content q ++ content (value t)
  /\ white (indentation (snd (formatBlockEnd f t q)))
  /\ cfg (snd (formatBlockEnd f t q)) = cfg f.
Proof.
  intros H Hi. unfold formatBlockEnd. cbv zeta.
  branches; state; repeat split; try whiteness; now contents.
Qed.

Lemma content_formatComma (f : Formatter) (t : Token) (q : jsstring) :
  white (indentation f) ->
  content (formatComma f t q) = content q ++ content (value t).
Proof.
  intros H. unfold formatComma. cbv zeta. branches; now contents.
Qed.

Lemma content_formatQuerySeparator (f : Formatter) (t : Token) (q : jsstring)
    (r : jsstring * Formatter) :
  white (indentation f) ->
  forallb is_spaces (indent (cfg f)) = true ->
  formatQuerySeparator f t q = Ret r ->
  content (fst r) = content q ++ content (value t)
  /\ white (indentation (snd r))
  /\ cfg (snd r) = cfg f.
Proof.
  intros H Hi. unfold formatQuerySeparator, separatorNewlines. cbv zeta.
  state.
  destruct (_ <? 0); cbn [bind]; [discriminate|].
  intros [= <-]. state. repeat split; try whiteness.
  branches; now contents.
Qed.

Lemma content_formatOperator (f : Formatter) (t : Token) (q : jsstring)
    (r : jsstring * Formatter) :
  white (indentation f) ->
  forallb is_spaces (indent (cfg f)) = true ->
  formatOperator f t q = Ret r ->
  content (fst r) = content q ++ content (value t)
  /\ white (indentation (snd r))
  /\ cfg (snd r) = cfg f.
Proof.
  intros H Hi. unfold formatOperator.
  destruct (eqs (value t) (lit ","));
    [intros [= <-]; state; repeat split; try assumption;
     now apply content_formatComma|].
  destruct (eqs (value t) (lit ";"));
    [now apply content_formatQuerySeparator|].
  branches; intros [= <-]; state; repeat split; try assumption;
    now contents.
Qed.

Lemma content_AS : content (lit "as") = content (lit "AS").
Proof. reflexivity. Qed.

Lemma testToken_type (kw : string) (ty : TokenType) (t : Token) :
  testToken kw ty (Some t) = true -> type t = ty.
Proof.
  unfold testToken. intros H. apply andb_true_iff in H. destruct H as [H _].
  destruct (type t), ty; try discriminate H; reflexivity.
Qed.

Lemma not_keyword_not_AS (t : Token) :
  type t <> RESERVED_KEYWORD -> isToken.AS (Some t) = false.
Proof.
  intros H. destruct (isToken.AS (Some t)) eqn:E; [|reflexivity].
  now apply testToken_type in E.
Qed.

Lemma written_other (cfg : FormatOptions) (t : Token) :
  type t <> RESERVED_KEYWORD -> written cfg t (content (value t)).
Proof. intros H. apply written_as_it_is. intros _. now apply not_keyword_not_AS. Qed.

Lemma written_formatKeyword (f : Formatter) (t : Token) (q : jsstring) :
  exists piece,
    content (formatKeyword f t q) = content q ++ piece
    /\ written (cfg f) t piece.
Proof.
  unfold formatKeyword.
  destruct (isToken.AS (Some t)) eqn:Eas; cbn [andb].
  - destruct (aliasAs (cfg f)) eqn:Ea; cbn [orb andb].
    + exists (content (value t)). split; [apply content_formatWithSpaces|].
      apply written_as_it_is. rewrite Ea. discriminate.
    + exists []. split; [now rewrite app_nil_r|].
      apply written_AS_left_out; [rewrite Ea; discriminate|exact Eas].
    + destruct (_ && _ && _).
      * exists []. split; [now rewrite app_nil_r|].
        apply written_AS_left_out; [rewrite Ea; discriminate|exact Eas].
      * exists (content (value t)).
        split; [apply content_formatWithSpaces|].
        apply written_as_it_is. rewrite Ea. discriminate.
  - exists (content (value t)). split; [apply content_formatWithSpaces|].
    apply written_as_it_is. now intros _.
Qed.

Lemma written_formatAliases (f : Formatter) (t : Token) (q : jsstring) :
  aliasAs (cfg f) <> alias_never ->
  type t <> RESERVED_KEYWORD ->
  exists piece,
    content (formatWithSpaces f t (formatAliases f t q) preserve_both)
    = content q ++ piece
    /\ written (cfg f) t piece.
Proof.
  intros Ha Hty. rewrite content_formatWithSpaces. unfold formatAliases.
  cbv zeta.
  destruct (TokenType_eqb (type t) WORD) eqn:Ew.
  - assert (Hw : type t = WORD)
      by (destruct (type t); try discriminate Ew; reflexivity).
    match goal with
    | |- context [if ?c then _ else _] => destruct c
    end.
    + exists (content (lit "AS") ++ content (value t)).
      split; [|now apply written_AS_put_in].
      rewrite content_formatWithSpaces. cbn [value].
      rewrite <- app_assoc. do 2 f_equal.
      now destruct (uppercase (cfg f)).
    + exists (content (value t)). split; [reflexivity|].
      now apply written_other.
  - rewrite !andb_false_r, andb_false_l. cbn [orb].
    exists (content (value t)). split; [reflexivity|].
    now apply written_other.
Qed.

(** What the chain of tests adds for the token. *)
Lemma written_dispatch (f : Formatter) (t : Token) (q : jsstring)
    (r : jsstring * Formatter) :
  white (indentation f) ->
  forallb is_spaces (indent (cfg f)) = true ->
  dispatch f t q = Ret r ->
  exists piece,
    content (fst r) = content q ++ piece
    /\ written (cfg f) t piece
    /\ white (indentation (snd r))
    /\ cfg (snd r) = cfg f.
Proof.
  intros H Hi. unfold dispatch.
  destruct (type t) eqn:Ety.
  all: try (intros [= <-]; state;
            destruct (aliasAs (cfg f)) eqn:Ea;
            [ destruct (written_formatAliases f t q) as (piece & Hp & Hw);
              [rewrite Ea; discriminate|rewrite Ety; discriminate|];
              exists piece; repeat split; assumption
            | exists (content (value t)); repeat split; try assumption;
              [ apply content_formatWithSpaces
              | apply written_other; rewrite Ety; discriminate ]
            | destruct (written_formatAliases f t q) as (piece & Hp & Hw);
              [rewrite Ea; discriminate|rewrite Ety; discriminate|];
              exists piece; repeat split; assumption ]).
  - (* RESERVED_KEYWORD *)
    intros [= <-]. state.
    destruct (written_formatKeyword f t q) as (piece & Hp & Hw).
    exists piece. repeat split; assumption.
  - (* RESERVED_LOGICAL_OPERATOR *)
    intros [= <-]. exists (content (value t)).
    destruct (content_formatLogicalOperator f t q H) as (H1 & H2 & H3).
    repeat split; try assumption.
    apply written_other. rewrite Ety. discriminate.
  - (* RESERVED_DEPENDENT_CLAUSE *)
    intros [= <-]. state. exists (content (value t)).
    repeat split; try assumption.
    + now apply content_formatDependentClause.
    + apply written_other. rewrite Ety. discriminate.
  - (* RESERVED_BINARY_COMMAND *)
    intros [= <-]. exists (content (value t)).
    destruct (content_formatBinaryCommand f t q H) as (H1 & H2 & H3).
    repeat split; try assumption.
    apply written_other. rewrite Ety. discriminate.
  - (* RESERVED_COMMAND *)
    destruct (checkNewline _ _ _ _ _) as [b|e]; cbn [bind]; [|discriminate].
    intros [= <-]. exists (content (value t)).
    destruct (content_formatCommand (set_currentNewline b f) t q H)
      as (H1 & H2 & H3).
    repeat split; try assumption.
    apply written_other. rewrite Ety. discriminate.
  - (* OPERATOR *)
    intros Hr. exists (content (value t)).
    destruct (content_formatOperator f t q r H Hi Hr) as (H1 & H2 & H3).
    repeat split; try assumption.
    apply written_other. rewrite Ety. discriminate.
  - (* BLOCK_START *)
    intros [= <-]. exists (content (value t)).
    destruct (content_formatBlockStart f t q H) as (H1 & H2 & H3).
    repeat split; try assumption.
    apply written_other. rewrite Ety. discriminate.
  - (* BLOCK_END *)
    intros [= <-]. exists (content (value t)).
    destruct (content_formatBlockEnd f t q H Hi) as (H1 & H2 & H3).
    repeat split; try assumption.
    apply written_other. rewrite Ety. discriminate.
  - (* LINE_COMMENT *)
    intros [= <-]. state. exists (content (value t)).
    repeat split; try assumption.
    + now apply content_formatLineComment.
    + apply written_other. rewrite Ety. discriminate.
  - (* BLOCK_COMMENT *)
    intros [= <-]. state. exists (content (value t)).
    repeat split; try assumption.
    + now apply content_formatBlockComment.
    + apply written_other. rewrite Ety. discriminate.
  - (* PLACEHOLDER *)
    intros [= <-]. unfold formatPlaceholder.
    destruct (params_get t (params f)) as [text p]. state.
    exists (content text). repeat split; try assumption.
    + rewrite !content_app. change (content [SPACE]) with (@nil char16).
      now rewrite app_nil_r.
    + now apply written_parameter.
Qed.

Lemma content_tenSpacedToken (f : Formatter) (t : Token) :
  content (value (tenSpacedToken f t)) = content (value t).
Proof.
  rewrite tenSpacedToken_value.
  destruct (tenSpace (cfg f)); [apply content_tenSpacedValue|reflexivity].
Qed.

Lemma AS_tenSpacedToken (f : Formatter) (t : Token) :
  isToken.AS (Some (tenSpacedToken f t)) = isToken.AS (Some t).
Proof.
  rewrite tenSpacedToken_value.
  destruct (tenSpace (cfg f)); [|reflexivity].
  unfold isToken.AS, testToken. cbn [type value].
  now rewrite keyword_in_tenSpacedValue.
Qed.

Lemma written_tenSpacedToken (f : Formatter) (c : FormatOptions) (t : Token)
    (piece : jsstring) :
  written c (tenSpacedToken f t) piece -> written c t piece.
Proof.
  intros H. inversion H as [Has|Ha Has|Ha Hty|text Hty]; subst.
  - rewrite content_tenSpacedToken. apply written_as_it_is.
    intros Hn. specialize (Has Hn).
    now rewrite AS_tenSpacedToken in Has.
  - apply written_AS_left_out; [exact Ha|].
    now rewrite AS_tenSpacedToken in Has.
  - rewrite content_tenSpacedToken. apply written_AS_put_in; [exact Ha|].
    now rewrite tenSpacedToken_type in Hty.
  - apply written_parameter. now rewrite tenSpacedToken_type in Hty.
Qed.

Lemma written_markReserved (f : Formatter) (t : Token) (piece : jsstring) :
  written (cfg f) (fst (markReserved f t)) piece -> written (cfg f) t piece.
Proof.
  unfold markReserved.
  destruct (isReserved t); [|exact (fun H => H)].
  destruct (negb (TokenType_eqb (type t) RESERVED_KEYWORD)); cbv zeta.
  - rewrite tenSpacedToken_type.
    destruct (TokenType_eqb (type t) RESERVED_COMMAND); cbn [fst];
      apply written_tenSpacedToken.
  - destruct (TokenType_eqb (type t) RESERVED_COMMAND); exact (fun H => H).
Qed.

Lemma markReserved_indentation (f : Formatter) (t : Token) :
  indentation (snd (markReserved f t)) = indentation f.
Proof.
  unfold markReserved.
  destruct (isReserved t); [|reflexivity].
  destruct (negb (TokenType_eqb (type t) RESERVED_KEYWORD)); cbv zeta;
    [rewrite tenSpacedToken_type|];
    destruct (TokenType_eqb (type t) RESERVED_COMMAND); reflexivity.
Qed.

(** What a turn of the loop adds to the text. *)
Lemma written_formatToken (f f' : Formatter) (q q' : jsstring) (t : Token) :
  white (indentation f) ->
  forallb is_spaces (indent (cfg f)) = true ->
  nth_error (tokens f) (index f) = Some t ->
  formatToken f q = Ret (q', f') ->
  exists piece,
    content q' = content q ++ piece
    /\ written (cfg f) t piece
    /\ white (indentation f').
Proof.
  intros H Hi Ht. unfold formatToken. rewrite Ht. unfold tokenOverride.
  pose proof (markReserved_cfg f t) as Hc.
  pose proof (markReserved_indentation f t) as Hind.
  pose proof (written_markReserved f t) as Hw.
  destruct (markReserved f t) as [token g]. cbn [fst snd] in *.
  intros Hr.
  destruct (written_dispatch g token q (q', f')) as (piece & H1 & H2 & H3 & _);
    [now rewrite Hind|now rewrite Hc|exact Hr|].
  exists piece. cbn [fst snd] in *. repeat split; try assumption.
  apply Hw. now rewrite <- Hc.
Qed.

Lemma written_formatTokens (todo : list Token) :
  forall (f f' : Formatter) (q q' : jsstring) (done : list Token),
    white (indentation f) ->
    forallb is_spaces (indent (cfg f)) = true ->
    tokens f = done ++ todo ->
    index f = length done ->
    formatTokens (length todo) f q = Ret (q', f') ->
    exists pieces,
      Forall2 (written (cfg f)) todo pieces
      /\ content q' = content q ++ concat pieces.
Proof.
  induction todo as [|t todo IH]; intros f f' q q' done H Hi Hts Hix.
  - cbn [length formatTokens]. intros [= <- _].
    exists []. split; [constructor|now rewrite app_nil_r].
  - cbn [length formatTokens].
    assert (Ht : nth_error (tokens f) (index f) = Some t).
    { rewrite Hts, Hix, nth_error_app2, Nat.sub_diag by lia. reflexivity. }
    destruct (formatToken f q) as [[q1 f1]|e] eqn:E; cbn [bind];
      [|discriminate].
    destruct (written_formatToken f f1 q q1 t H Hi Ht E)
      as (piece & Hq1 & Hw & Hwhite).
    destruct (formatToken_frame _ _ E) as (Hc & Hi1 & t' & Ht' & Hts1).
    rewrite Ht in Ht'. injection Ht' as <-.
    intros Hrest.
    destruct (IH (set_index (S (index f1)) f1) f' q1 q'
                (done ++ [padded f t])) as (pieces & Hall & Hq').
    + exact Hwhite.
    + cbn [set_index cfg]. now rewrite Hc.
    + cbn [set_index tokens].
      rewrite Hts1, Hts, Hix, store_app, <- app_assoc. reflexivity.
    + cbn [set_index index]. rewrite Hi1, Hix, length_app. cbn [length]. lia.
    + exact Hrest.
    + exists (piece :: pieces). split.
      * constructor; [exact Hw|].
        cbn [set_index cfg] in Hall. now rewrite Hc in Hall.
      * rewrite Hq', Hq1. cbn [concat]. now rewrite app_assoc.
Qed.

End RunContent.

Lemma written_never (cfg : FormatOptions) (ts : list Token)
    (pieces : list jsstring) :
  aliasAs cfg = alias_never ->
  forallb (fun t => negb (TokenType_eqb (type t) PLACEHOLDER)) ts = true ->
  Forall2 (written cfg) ts pieces ->
  concat pieces = concat (map (fun t => content (value t)) (filter notAS ts)).
Proof.
  intros Ha Hp H. induction H as [|t piece ts pieces Hw Hall IH];
    [reflexivity|].
  cbn [forallb] in Hp. apply andb_true_iff in Hp. destruct Hp as [Ht Hts].
  cbn [concat filter]. rewrite (IH Hts).
  change (notAS t) with (negb (isToken.AS (Some t))).
  inversion Hw as [Has|Hn Has|Hn Hty|text Hty]; subst.
  - now rewrite (Has Ha).
  - now rewrite Has.
  - now destruct Hn.
  - rewrite Hty in Ht. discriminate Ht.
Qed.


Lemma content_dropWhile (p : char16 -> bool) (s : jsstring) :
  (forall c, p c = true -> is_spaces c = true) ->
  content (dropWhile p s) = content s.
Proof.
  intros H. destruct (dropWhile_split p s) as (pre & E & Hp).
  rewrite E at 2. rewrite content_app.
  now rewrite (content_white pre (forallb_impl p is_spaces pre H Hp)).
Qed.

Lemma content_stripLeadingNewlines (s : jsstring) :
  content (stripLeadingNewlines s) = content s.
Proof.
  apply content_dropWhile. intros c H. apply N.eqb_eq in H. now subst c.
Qed.

Lemma whiteUnit_keepsWhite : keepsWhite whiteUnit.
Proof.
  split.
  - intros i H. cbn [getIndent indentation_ops].
    induction (topLevel i + blockLevel i)%nat as [|n IH]; [reflexivity|].
    cbn [repeat_str]. rewrite forallb_app, IH. now rewrite H.
  - intros i H. repeat split; exact H.
Qed.


Lemma indentComment_settles_witness :
  forallb (fun c => negb (N.eqb c LF)) (lit "/* one line */") = true
  /\ indentComment (formatterOn exampleOptions []) (lit "/* one line */")
     = lit "/* one line */"
  /\ forallb is_blank
       (getIndent
          (indentation
             (on_indentation increaseTopLevel (formatterOn exampleOptions []))))
     = true
  /\ indentComment
       (on_indentation increaseTopLevel (formatterOn exampleOptions []))
       (indentComment
          (on_indentation increaseTopLevel (formatterOn exampleOptions []))
          (lit "/* two
lines */"))
     = indentComment
         (on_indentation increaseTopLevel (formatterOn exampleOptions []))
         (lit "/* two
lines */").
Proof.
  split; [reflexivity|]. split.
  - exact (proj1 (indentComment_settles (formatterOn exampleOptions [])
                    (lit "/* one line */")) eq_refl).
  - split; [reflexivity|].
    exact (proj2 (indentComment_settles
                    (on_indentation increaseTopLevel
                       (formatterOn exampleOptions []))
                    (lit "/* two
lines */")) eq_refl).
Defined.

Lemma tenSpacedToken_adds_only_ZWS_witness :
  tenSpace
    (cfg (formatterOn (withKeywordPosition tenSpaceRight exampleOptions) []))
  = true
  /\ 9 <= len (value
                 (tenSpacedToken
                    (formatterOn
                       (withKeywordPosition tenSpaceRight exampleOptions) [])
                    (tok RESERVED_COMMAND "" "select"))).
Proof.
  split; [reflexivity|].
  exact (proj2 (proj2 (proj2 (proj2
           (tenSpacedToken_adds_only_ZWS
              (formatterOn
                 (withKeywordPosition tenSpaceRight exampleOptions) [])
              (tok RESERVED_COMMAND "" "select"))))) eq_refl).
Defined.


Lemma format_raises_RangeError_witness :
  existsb isSeparator (tokenizerGiving twoStatements (lit "select 1; select 2"))
  = true
  /\ linesBetweenQueries (withLinesBetweenQueries (-2) exampleOptions) < -1
  /\ formatExample (withLinesBetweenQueries (-2) exampleOptions)
       twoStatements "select 1; select 2"
     = Throw RangeError.
Proof.
  assert (H1 : existsb isSeparator
                 (tokenizerGiving twoStatements (lit "select 1; select 2"))
               = true) by reflexivity.
  assert (H2 : linesBetweenQueries
                 (withLinesBetweenQueries (-2) exampleOptions) < -1)
    by reflexivity.
  split; [exact H1|]. split; [exact H2|].
  exact (proj1 (format_raises_RangeError (tokenizerGiving twoStatements)
                  (@constructor Indentation InlineBlock Params _ _ _
                     (withLinesBetweenQueries (-2) exampleOptions))
                  (lit "select 1; select 2")) H1 H2).
Defined.

(* ------------------------------------------------------------------ *)
(** ** The passes at the end of the text *)

Lemma collect_to_the_end (rest : list jsstring) :
  forall cur : jsstring,
    endsWithComma cur = true ->
    Forall (fun l => endsWithComma l = true) rest ->
    collect cur rest = None.
Proof.
  induction rest as [|next rest IH]; intros cur Hc Hrest; cbn [collect];
    rewrite Hc; [reflexivity|].
  inversion Hrest as [|? ? Hn Hr]; subst. now rewrite (IH next Hn Hr).
Qed.

Lemma scanRun_to_the_end
    (process : list jsstring -> outcome (list jsstring))
    (continue : list jsstring -> outcome (list (option jsstring)))
    (cur : jsstring) (run rest : list jsstring) :
  endsWithComma cur = true ->
  Forall (fun l => endsWithComma l = true) rest ->
  scanRun process continue cur run rest = Throw TypeError.
Proof.
  intros Hc Hrest.
  now rewrite scanRun_collect, (collect_to_the_end rest cur Hc Hrest).
Qed.

(** X11: the comma pass raises a TypeError on a text in which, from the
    first line that ends in a comma on, every line ends in a comma: the
    scan of the run reads the line after the last one, which is
    [undefined]. This is so in every mode of the comma position. *)
Theorem comma_pass_reads_past_the_end
    (cfg : FormatOptions) (query : jsstring) (pre run : list jsstring) :
  split_lines query = pre ++ run ->
  Forall (fun l => endsWithComma l = false) pre ->
  run <> [] ->
  Forall (fun l => endsWithComma l = true) run ->
  formatCommaPositions cfg query = Throw TypeError.
Proof.
  intros Hq Hpre Hne Hrun. unfold formatCommaPositions.
  rewrite Hq, (@commaLoop_outside cfg pre run Hpre).
  destruct run as [|line rest]; [now destruct Hne|].
  inversion Hrun as [|? ? Hl Hrest]; subst.
  cbn [commaLoop]. rewrite Hl.
  now rewrite (scanRun_to_the_end (commaRun cfg) (commaLoop cfg) line [line]
                 rest Hl Hrest).
Qed.

Lemma comma_pass_reads_past_the_end_witness :
  split_lines (lit "SELECT
  a,
  b,")
  = [lit "SELECT"] ++ [lit "  a,"; lit "  b,"]
  /\ formatCommaPositions (withCommaPosition comma_tabular exampleOptions)
       (lit "SELECT
  a,
  b,")
     = Throw TypeError.
Proof.
  assert (H : split_lines (lit "SELECT
  a,
  b,")
              = [lit "SELECT"] ++ [lit "  a,"; lit "  b,"]) by reflexivity.
  split; [exact H|].
  apply (comma_pass_reads_past_the_end
           (withCommaPosition comma_tabular exampleOptions) _
           [lit "SELECT"] [lit "  a,"; lit "  b,"] H).
  - repeat constructor.
  - discriminate.
  - repeat constructor.
Defined.

(** X12: the alias pass raises a TypeError on a text whose first SELECT
    clause of several lines reaches the end of the text: a line SELECT
    with no column on it, or one that ends in a comma, after which every
    line ends in a comma (or none is left). *)
Theorem alias_pass_reads_past_the_end
    (query : jsstring) (pre rest : list jsstring) (line : jsstring) :
  split_lines query = pre ++ line :: rest ->
  Forall (fun l => outsideAliasRun l = true) pre ->
  outsideAliasRun line = false ->
  Forall (fun l => endsWithComma l = true) rest ->
  formatAliasPositions query = Throw TypeError.
Proof.
  intros Hq Hpre Hline Hrest. unfold formatAliasPositions.
  rewrite Hq, (@aliasLoop_outside pre (line :: rest) Hpre).
  cbn [aliasLoop]. unfold outsideAliasRun in Hline.
  apply orb_false_iff in Hline. destruct Hline as [Hs Hline].
  apply negb_false_iff in Hs. rewrite Hs.
  destruct (endsWithComma line) eqn:Hc.
  - now rewrite (scanRun_to_the_end aliasRun aliasLoop line [line] rest
                   Hc Hrest).
  - cbn [negb andb] in Hline. rewrite Hline.
    destruct rest as [|next rest']; [reflexivity|].
    inversion Hrest as [|? ? Hn Hr]; subst.
    now rewrite (scanRun_to_the_end aliasRun aliasLoop next [next] rest'
                   Hn Hr).
Qed.

(** The text of the witness is the one the run makes of the query
    [select] in the mode [never] of the newline option: with the
    tabulation of aliases, [format] raises the error on this query. *)
Lemma alias_pass_reads_past_the_end_witness :
  formatted (withNewline newline_never exampleOptions)
    [tok RESERVED_COMMAND "" "select"]
  = Ret (lit "
SELECT ")
  /\ split_lines (lit "
SELECT ") = [[]] ++ lit "SELECT " :: []
  /\ formatAliasPositions (lit "
SELECT ") = Throw TypeError
  /\ formatExample
       (withTabulateAlias true (withNewline newline_never exampleOptions))
       [tok RESERVED_COMMAND "" "select"] "select"
     = Throw TypeError.
Proof.
  assert (H : split_lines (lit "
SELECT ") = [[]] ++ lit "SELECT " :: []) by reflexivity.
  split; [vm_compute; reflexivity|]. split; [exact H|]. split.
  - apply (alias_pass_reads_past_the_end _ [[]] [] (lit "SELECT ") H).
    + repeat constructor.
    + reflexivity.
    + constructor.
  - vm_compute. reflexivity.
Defined.

(* ------------------------------------------------------------------ *)
(** ** The comma pass in the mode [before] *)

Lemma takeWhile_dropWhile (p : char16 -> bool) (s : jsstring) :
  takeWhile p s ++ dropWhile p s = s.
Proof.
  induction s as [|c s IH]; [reflexivity|].
  cbn [takeWhile dropWhile]. destruct (p c); [|reflexivity].
  cbn [app]. now rewrite IH.
Qed.

Lemma matchLeadingWhitespace_split (line ws rest : jsstring) :
  matchLeadingWhitespace line = Some (ws, rest) -> ws ++ rest = line.
Proof.
  unfold matchLeadingWhitespace.
  pose proof (takeWhile_dropWhile is_space line) as E.
  destruct (takeWhile is_space line) as [|c w]; [discriminate|].
  intros [= <- <-]. exact E.
Qed.

Lemma matchLeadingWhitespace_some (line : jsstring) :
  startsWithSpace line = true ->
  exists ws rest, matchLeadingWhitespace line = Some (ws, rest).
Proof.
  destruct line as [|c line]; [discriminate|].
  cbn [startsWithSpace]. intros H. unfold matchLeadingWhitespace.
  cbn [takeWhile]. rewrite H. eauto.
Qed.

Lemma replaceSuffix_same (ws pat : jsstring) : replaceSuffix ws pat pat = ws.
Proof.
  unfold replaceSuffix. destruct (endsWith ws pat) eqn:E; [|reflexivity].
  unfold endsWith in E. apply andb_true_iff in E. destruct E as [E _].
  apply eqs_eq in E. rewrite <- E at 2. apply firstn_skipn.
Qed.

(** With an indent unit that has no tab and does not end in two spaces,
    the rewriting of a line of a run returns the line: the comma is not
    written. *)
Lemma commaBefore_same (cfg : FormatOptions) (j : nat) (line : jsstring) :
  includes (indent cfg) [TAB] = false ->
  endsWith (indent cfg) [SPACE; SPACE] = false ->
  (j <> 0%nat -> startsWithSpace line = true) ->
  commaBefore cfg j line = Ret line.
Proof.
  intros Ht Hs Hl. unfold commaBefore. cbv zeta.
  destruct j as [|j]; [reflexivity|].
  destruct (matchLeadingWhitespace_some line (Hl (Nat.neq_succ_0 j)))
    as (ws & rest & E).
  rewrite E, Ht. unfold commaForTwoSpaces. rewrite Hs, replaceSuffix_same.
  now rewrite (matchLeadingWhitespace_split line ws rest E).
Qed.

Lemma mapi_from_commaBefore_same (cfg : FormatOptions) (lines : list jsstring) :
  includes (indent cfg) [TAB] = false ->
  endsWith (indent cfg) [SPACE; SPACE] = false ->
  forall j : nat,
    (j <> 0%nat -> Forall (fun l => startsWithSpace l = true) lines) ->
    Forall (fun l => startsWithSpace l = true) (tl lines) ->
    mapi_from (commaBefore cfg) j lines = Ret lines.
Proof.
  intros Ht Hs. induction lines as [|l lines IH]; intros j Hj Htl;
    [reflexivity|].
  cbn [mapi_from tl] in *.
  rewrite (commaBefore_same cfg j l Ht Hs).
  - cbn [bind]. rewrite (IH (S j)); [reflexivity| |].
    + intros _. exact Htl.
    + destruct lines; [constructor|]. now inversion Htl.
  - intros H. specialize (Hj H). now inversion Hj.
Qed.

Lemma startsWithSpace_dropComma (l : jsstring) :
  startsWithSpace l = true -> startsWithSpace (dropComma l) = true.
Proof.
  destruct l as [|c l]; [discriminate|].
  cbn [startsWithSpace]. intros H. unfold dropComma.
  destruct (endsWithComma (c :: l)) eqn:E; [|exact H].
  destruct l as [|d l].
  - unfold endsWithComma, endsWith in E. cbn in E.
    rewrite andb_true_r in E. apply andb_true_iff in E. destruct E as [E _].
    apply N.eqb_eq in E. subst c. discriminate H.
  - exact H.
Qed.

(** X13: in the mode [before] with an indent unit of spaces that does not
    end in two spaces (a single space, for one), the comma pass takes
    the commas from the ends of the lines of a run and writes them nowhere:
    the lines of the run come out without their commas. The text is one
    with a single run, whose lines after the first start with white
    space. *)
Theorem comma_before_loses_commas
    (cfg : FormatOptions) (query : jsstring) (pre xs rest : list jsstring)
    (x y : jsstring) :
  commaPosition cfg = comma_before ->
  forallb is_blank (indent cfg) = true ->
  includes (indent cfg) [TAB] = false ->
  endsWith (indent cfg) [SPACE; SPACE] = false ->
  split_lines query = pre ++ (x :: xs) ++ y :: rest ->
  Forall (fun l => endsWithComma l = false) pre ->
  Forall (fun l => endsWithComma l = true) (x :: xs) ->
  endsWithComma y = false ->
  Forall (fun l => endsWithComma l = false) rest ->
  Forall (fun l => startsWithSpace l = true) (xs ++ [y]) ->
  formatCommaPositions cfg query
  = Ret (join_lines
           (map Some (pre ++ map dropComma (x :: xs) ++ y :: rest)
            ++ match rest with [] => [None] | _ :: _ => [] end)).
Proof.
  intros Hm _ Ht Hs Hq Hpre Hrun Hy Hrest Hsp. unfold formatCommaPositions.
  rewrite Hq, (@commaLoop_outside cfg pre ((x :: xs) ++ y :: rest) Hpre).
  inversion Hrun as [|? ? Hx Hxs]; subst.
  cbn [app commaLoop]. rewrite Hx, scanRun_collect.
  assert (Hc : collect x (xs ++ y :: rest) = Some (xs ++ [y], rest)).
  { replace (xs ++ y :: rest) with ((xs ++ [y]) ++ rest)
      by (now rewrite <- app_assoc).
    apply (@collect_of_shape (x :: xs) y x (xs ++ [y]) rest);
      [reflexivity|exact Hrun|exact Hy]. }
  rewrite Hc. unfold commaRun. rewrite Hm.
  assert (Hp : mapi_from (commaBefore cfg) 0
                 (map dropComma ([x] ++ xs ++ [y]))
               = Ret (map dropComma (x :: xs) ++ [y])).
  { rewrite mapi_from_commaBefore_same; try assumption.
    - cbn [app map]. rewrite map_app. cbn [map].
      now rewrite (dropComma_none y Hy).
    - intros H. now destruct H.
    - cbn [app map tl]. apply Forall_map.
      eapply Forall_impl; [|exact Hsp].
      intros l. apply startsWithSpace_dropComma. }
  rewrite Hp. cbn [bind].
  destruct rest as [|next rest'].
  - cbn [bind]. rewrite !map_app, <- !app_assoc. reflexivity.
  - inversion Hrest as [|? ? _ Hrest']; subst.
    pose proof (@commaLoop_outside cfg rest' [] Hrest') as Hafter.
    rewrite app_nil_r in Hafter. rewrite Hafter.
    cbn [commaLoop bind]. rewrite !app_nil_r, !map_app. cbn [map bind].
    rewrite <- !app_assoc. reflexivity.
Qed.

Lemma comma_before_loses_commas_witness :
  split_lines (lit "SELECT
 a,
 b
FROM
 t")
  = [lit "SELECT"] ++ [lit " a,"] ++ lit " b" :: [lit "FROM"; lit " t"]
  /\ formatCommaPositions
       (withIndent (lit " ") (withCommaPosition comma_before exampleOptions))
       (lit "SELECT
 a,
 b
FROM
 t")
     = Ret (lit "SELECT
 a
 b
FROM
 t").
Proof.
  assert (H : split_lines (lit "SELECT
 a,
 b
FROM
 t")
              = [lit "SELECT"] ++ [lit " a,"] ++ lit " b"
                :: [lit "FROM"; lit " t"]) by reflexivity.
  split; [exact H|].
  apply (comma_before_loses_commas
           (withIndent (lit " ")
              (withCommaPosition comma_before exampleOptions))
           _ [lit "SELECT"] [] [lit "FROM"; lit " t"] (lit " a,") (lit " b")
           eq_refl eq_refl eq_refl eq_refl H).
  - repeat constructor.
  - repeat constructor.
  - reflexivity.
  - repeat constructor.
  - repeat constructor.
Defined.

(* ------------------------------------------------------------------ *)
(** ** The comma pass in the mode [tabular] *)

Lemma len_padComma (M : Z) (l : jsstring) :
  len l <= M -> len (padComma M l) = M + 1.
Proof.
  intros H. unfold padComma. rewrite !len_app, len_repeat_unit.
  change (len [COMMA]) with 1. pose proof (len_nonneg l). lia.
Qed.

(** X14: in the mode [tabular] the comma pass puts the commas of a run in
    one column: each line of the run but the last is its text without the
    comma, spaces up to the greatest length of the lines of the run, and
    the comma, so these lines have the same length; the last line of the
    run and the lines outside are kept. The text is one with a single
    run. *)
Theorem tabular_commas_in_one_column
    (cfg : FormatOptions) (query : jsstring) (pre xs rest : list jsstring)
    (x y : jsstring) :
  commaPosition cfg = comma_tabular ->
  split_lines query = pre ++ (x :: xs) ++ y :: rest ->
  Forall (fun l => endsWithComma l = false) pre ->
  Forall (fun l => endsWithComma l = true) (x :: xs) ->
  endsWithComma y = false ->
  Forall (fun l => endsWithComma l = false) rest ->
  formatCommaPositions cfg query
  = Ret (join_lines
           (map Some
              (pre
               ++ map (fun l => padComma
                                  (maxLength (map dropComma (x :: xs ++ [y])))
                                  (dropComma l)) (x :: xs)
               ++ y :: rest)
            ++ match rest with [] => [None] | _ :: _ => [] end))
  /\ Forall (fun l => len (padComma
                             (maxLength (map dropComma (x :: xs ++ [y])))
                             (dropComma l))
                      = maxLength (map dropComma (x :: xs ++ [y])) + 1)
       (x :: xs).
Proof.
  intros Hm Hq Hpre Hrun Hy Hrest. split.
  - unfold formatCommaPositions.
    rewrite Hq, (@commaLoop_outside cfg pre ((x :: xs) ++ y :: rest) Hpre).
    inversion Hrun as [|? ? Hx Hxs]; subst.
    cbn [app commaLoop]. rewrite Hx, scanRun_collect.
    assert (Hc : collect x (xs ++ y :: rest) = Some (xs ++ [y], rest)).
    { replace (xs ++ y :: rest) with ((xs ++ [y]) ++ rest)
        by (now rewrite <- app_assoc).
      apply (@collect_of_shape (x :: xs) y x (xs ++ [y]) rest);
        [reflexivity|exact Hrun|exact Hy]. }
    rewrite Hc. unfold commaRun. rewrite Hm.
    cbn [bind]. rewrite commaTabular_tabulate.
    change ([x] ++ xs ++ [y]) with (x :: xs ++ [y]).
    set (M := maxLength (map dropComma (x :: xs ++ [y]))).
    assert (Ht : tabulate M (map dropComma (x :: xs ++ [y]))
                 = map (fun l => padComma M (dropComma l)) (x :: xs) ++ [y]).
    { change (x :: xs ++ [y]) with ((x :: xs) ++ [y]).
      rewrite (map_app dropComma (x :: xs) [y]).
      change (map dropComma [y]) with [dropComma y].
      now rewrite (dropComma_none y Hy), tabulate_app_last, map_map. }
    rewrite Ht. clear Ht.
    generalize (map (fun l => padComma M (dropComma l)) (x :: xs)).
    intros padded.
    destruct rest as [|next rest'].
    + cbn [bind]. rewrite !map_app, <- !app_assoc. reflexivity.
    + inversion Hrest as [|? ? _ Hrest']; subst.
      pose proof (@commaLoop_outside cfg rest' [] Hrest') as Hafter.
      rewrite app_nil_r in Hafter. rewrite Hafter.
      cbn [commaLoop bind]. rewrite !app_nil_r, !map_app. cbn [map].
      rewrite <- !app_assoc. reflexivity.
  - apply Forall_forall. intros l Hl. apply len_padComma.
    apply maxLength_ge. apply in_map.
    change (x :: xs ++ [y]) with ((x :: xs) ++ [y]).
    apply in_or_app. now left.
Qed.

Lemma tabular_commas_in_one_column_witness :
  split_lines (lit "SELECT
  a,
  bbb,
  cc
FROM")
  = [lit "SELECT"] ++ (lit "  a," :: [lit "  bbb,"]) ++ lit "  cc"
    :: [lit "FROM"]
  /\ formatCommaPositions (withCommaPosition comma_tabular exampleOptions)
       (lit "SELECT
  a,
  bbb,
  cc
FROM")
     = Ret (lit "SELECT
  a  ,
  bbb,
  cc
FROM").
Proof.
  assert (H : split_lines (lit "SELECT
  a,
  bbb,
  cc
FROM")
              = [lit "SELECT"] ++ (lit "  a," :: [lit "  bbb,"])
                ++ lit "  cc" :: [lit "FROM"]) by reflexivity.
  split; [exact H|].
  refine (proj1 (tabular_commas_in_one_column
                   (withCommaPosition comma_tabular exampleOptions)
                   _ [lit "SELECT"] [lit "  bbb,"] [lit "FROM"]
                   (lit "  a,") (lit "  cc") eq_refl H _ _ eq_refl _));
    repeat constructor.
Defined.

(* ------------------------------------------------------------------ *)
(** ** The state after a run *)

Section RunState.

Context {I B P : Type}.
Context {io : IndentationOps I} {bo : InlineBlockOps B} {po : ParamsOps P}.

Local Abbreviation Formatter := (Formatter I B P).

Ltac state :=
  cbn [cfg currentNewline indentation inlineBlock params
       previousReservedToken withinSelect tokens index fst snd
       on_indentation set_currentNewline set_indentation set_inlineBlock
       set_params set_previousReservedToken set_withinSelect set_tokens
       set_index].

Ltac branches :=
  repeat match goal with
         | |- context [if ?c then _ else _] => destruct c
         | |- context [let (_, _) := ?c in _] => destruct c
         end.

(** The chain of tests leaves [withinSelect] alone, and writes
    [previousReservedToken] for a keyword only. *)
Lemma dispatch_flags (f : Formatter) (t : Token) (q : jsstring)
    (r : jsstring * Formatter) :
  dispatch f t q = Ret r ->
  withinSelect (snd r) = withinSelect f
  /\ previousReservedToken (snd r)
     = if TokenType_eqb (type t) RESERVED_KEYWORD
       then Some (index f) else previousReservedToken f.
Proof.
  unfold dispatch, formatCommand, formatBinaryCommand, formatLogicalOperator,
    formatBlockStart, formatBlockEnd, formatPlaceholder, formatOperator,
    formatQuerySeparator.
  destruct (type t); cbv zeta; cbn [TokenType_eqb];
    try (destruct (checkNewline _ _ _ _ _); cbn [bind]; [|discriminate]);
    try (destruct (separatorNewlines _); cbn [bind]);
    branches; state; try discriminate;
    intros [= <-]; state; split; reflexivity.
Qed.

Lemma SELECT_tenSpacedToken (f : Formatter) (t : Token) :
  isToken.SELECT (Some (tenSpacedToken f t)) = isToken.SELECT (Some t).
Proof.
  rewrite tenSpacedToken_value.
  destruct (tenSpace (cfg f)); [|reflexivity].
  unfold isToken.SELECT, testToken. cbn [type value].
  now rewrite keyword_in_tenSpacedValue.
Qed.

Lemma markReserved_flags (f : Formatter) (t : Token) :
  withinSelect (snd (markReserved f t))
  = (if TokenType_eqb (type t) RESERVED_COMMAND
     then isToken.SELECT (Some t) else withinSelect f)
  /\ previousReservedToken (snd (markReserved f t))
     = (if isReserved t then Some (index f) else previousReservedToken f)
  /\ index (snd (markReserved f t)) = index f
  /\ type (fst (markReserved f t)) = type t.
Proof.
  unfold markReserved, isReserved.
  destruct (type t) eqn:Ety; cbn [TokenType_eqb orb negb]; cbv zeta;
    rewrite ?tenSpacedToken_type, ?Ety; cbn [TokenType_eqb]; state;
    rewrite ?SELECT_tenSpacedToken, ?tenSpacedToken_type;
    repeat split; try reflexivity; exact Ety.
Qed.

Lemma formatToken_flags (f f' : Formatter) (q q' : jsstring) (t : Token) :
  nth_error (tokens f) (index f) = Some t ->
  formatToken f q = Ret (q', f') ->
  withinSelect f'
  = (if TokenType_eqb (type t) RESERVED_COMMAND
     then isToken.SELECT (Some t) else withinSelect f)
  /\ previousReservedToken f'
     = (if isReserved t then Some (index f) else previousReservedToken f).
Proof.
  intros Ht. unfold formatToken. rewrite Ht. unfold tokenOverride.
  destruct (markReserved_flags f t) as (Hw & Hp & Hi & Hty).
  destruct (markReserved f t) as [token g]. cbn [fst snd] in *.
  intros Hr. destruct (dispatch_flags g token q (q', f') Hr) as [Hw' Hp'].
  cbn [snd] in *. rewrite Hw', Hw, Hp', Hp, Hty, Hi. split; [reflexivity|].
  unfold isReserved. destruct (type t); reflexivity.
Qed.

Lemma formatTokens_flags (todo : list Token) :
  forall (f f' : Formatter) (q q' : jsstring) (done : list Token),
    tokens f = done ++ todo ->
    index f = length done ->
    formatTokens (length todo) f q = Ret (q', f') ->
    index f' = (length done + length todo)%nat
    /\ withinSelect f' = lastCommandIsSelect todo (withinSelect f)
    /\ previousReservedToken f'
       = lastReserved (length done) todo (previousReservedToken f).
Proof.
  induction todo as [|t todo IH]; intros f f' q q' done Hts Hix.
  - cbn [length formatTokens]. intros [= _ <-].
    repeat split. rewrite Hix. lia.
  - cbn [length formatTokens].
    assert (Ht : nth_error (tokens f) (index f) = Some t).
    { rewrite Hts, Hix, nth_error_app2, Nat.sub_diag by lia. reflexivity. }
    destruct (formatToken f q) as [[q1 f1]|e] eqn:E; cbn [bind];
      [|discriminate].
    destruct (formatToken_flags f f1 q q1 t Ht E) as [Hw Hp].
    destruct (formatToken_frame _ _ E) as (Hc & Hi1 & t' & Ht' & Hts1).
    rewrite Ht in Ht'. injection Ht' as <-.
    intros Hrest.
    destruct (IH (set_index (S (index f1)) f1) f' q1 q'
                (done ++ [padded f t])) as (Hi' & Hw' & Hp').
    + cbn [set_index tokens].
      rewrite Hts1, Hts, Hix, store_app, <- app_assoc. reflexivity.
    + cbn [set_index index]. rewrite Hi1, Hix, length_app. cbn [length]. lia.
    + exact Hrest.
    + cbn [set_index withinSelect previousReservedToken] in Hw', Hp'.
      rewrite length_app in Hi', Hp'. cbn [length] in Hi', Hp'.
      cbn [lastCommandIsSelect lastReserved].
      rewrite Hw', Hw, Hp', Hp, Hix.
      replace (length done + 1)%nat with (S (length done)) by lia.
      repeat split. lia.
Qed.

End RunState.

(** X15: the state a run leaves. When the loop is over, [this.index] is
    the length of the token array, [this.previousReservedToken] is the
    last reserved token of the array (what it was before the run when
    there is none), and [this.withinSelect] tells whether the last command
    of the array is a SELECT (and is what it was before the run when the
    array has no command): the flags of one query are those the next call
    of [format] on the same formatter starts with. *)
Theorem run_final_state
    {I B P : Type} {io : IndentationOps I} {bo : InlineBlockOps B}
    {po : ParamsOps P} (f f' : Formatter I B P) (q : jsstring) :
  getFormattedQueryFromTokens f = Ret (q, f') ->
  index f' = length (tokens f)
  /\ withinSelect f' = lastCommandIsSelect (tokens f) (withinSelect f)
  /\ previousReservedToken f'
     = lastReserved 0 (tokens f) (previousReservedToken f).
Proof.
  unfold getFormattedQueryFromTokens.
  destruct (formatTokens _ _ _) as [[q1 f1]|e] eqn:E; cbn [bind];
    [|discriminate].
  intros [= _ <-].
  exact (formatTokens_flags (tokens f) (set_index 0 f) f1 [] q1 []
           eq_refl eq_refl E).
Qed.

Lemma run_final_state_witness :
  match getFormattedQueryFromTokens (formatterOn exampleOptions selectTwo) with
  | Ret (_, f') =>
      index f' = 6%nat /\ withinSelect f' = false
      /\ previousReservedToken f' = Some 4%nat
  | Throw _ => False
  end.
Proof.
  destruct (getFormattedQueryFromTokens (formatterOn exampleOptions selectTwo))
    as [[q f']|e] eqn:E.
  - exact (run_final_state (formatterOn exampleOptions selectTwo) f' q E).
  - vm_compute in E. discriminate E.
Defined.

(* ------------------------------------------------------------------ *)
(** ** What testToken accepts *)

Lemma forallb_false_dropWhile (p : char16 -> bool) (s : jsstring) :
  forallb p s = false -> dropWhile p s <> [].
Proof.
  induction s as [|c s IH]; [discriminate|].
  cbn [forallb dropWhile]. destruct (p c); [exact IH|discriminate].
Qed.

Lemma dropWhile_noSpaces (k s : jsstring) :
  noSpaces k = true -> k <> [] ->
  dropWhile is_spaces (k ++ s) = k ++ s.
Proof.
  destruct k as [|c k]; [now intros _ H|]. intros H _.
  cbn [noSpaces forallb] in H. apply andb_true_iff in H.
  destruct H as [H _]. apply negb_true_iff in H.
  cbn [app dropWhile]. now rewrite H.
Qed.

Lemma dropWhileEnd_noSpaces (k : jsstring) :
  noSpaces k = true -> dropWhileEnd is_spaces k = k.
Proof.
  intros H. unfold dropWhileEnd.
  assert (Hr : noSpaces (rev k) = true) by (unfold noSpaces; now rewrite forallb_rev).
  destruct (rev k) as [|c r] eqn:E.
  - now rewrite <- (rev_involutive k), E.
  - cbn [noSpaces forallb] in Hr. apply andb_true_iff in Hr.
    destruct Hr as [Hc _]. apply negb_true_iff in Hc.
    cbn [dropWhile]. rewrite Hc, <- E. apply rev_involutive.
Qed.

Lemma noSpaces_not_all_spaces (k : jsstring) :
  noSpaces k = true -> k <> [] -> forallb is_spaces k = false.
Proof.
  destruct k as [|c k]; [now intros _ H|]. intros H _.
  cbn [noSpaces forallb] in H |- *. apply andb_true_iff in H.
  destruct H as [H _]. apply negb_true_iff in H. now rewrite H.
Qed.

(** The text between the white space at the two ends of
    [s1 ++ k ++ s2]. *)
Lemma strip_padded (s1 k s2 : jsstring) :
  forallb is_spaces s1 = true -> forallb is_spaces s2 = true ->
  noSpaces k = true ->
  dropWhileEnd is_spaces (dropWhile is_spaces (s1 ++ k ++ s2)) = k.
Proof.
  intros H1 H2 Hk. rewrite dropWhile_app, H1.
  destruct k as [|c k].
  - cbn [app]. destruct (dropWhile_split is_spaces s2) as (pre & E & Hp).
    assert (Hd : dropWhile is_spaces s2 = []).
    { destruct (dropWhile is_spaces s2) as [|d r] eqn:Ed; [reflexivity|].
      pose proof (dropWhile_head is_spaces s2 Ed) as Hd.
      rewrite E, forallb_app in H2. cbn [forallb] in H2.
      rewrite Hd in H2. rewrite andb_false_r in H2. discriminate H2. }
    now rewrite Hd.
  - rewrite (dropWhile_noSpaces (c :: k) s2 Hk) by discriminate.
    rewrite dropWhileEnd_app, H2. now apply dropWhileEnd_noSpaces.
Qed.



(* ------------------------------------------------------------------ *)
(** ** The passes change white space only *)

Lemma contents_app (a b : list jsstring) :
  contents (a ++ b) = contents a ++ contents b.
Proof. unfold contents. now rewrite map_app, concat_app. Qed.

Lemma content_join_lines (out : list (option jsstring)) :
  content (join_lines out) = contents (lineTexts out).
Proof.
  induction out as [|l out IH]; [reflexivity|].
  destruct out as [|l' out].
  - cbn [join_lines lineTexts map contents concat].
    now rewrite app_nil_r.
  - change (join_lines (l :: l' :: out))
      with (match l with Some s => s | None => [] end
            ++ LF :: join_lines (l' :: out)).
    rewrite content_app, content_cons. change (is_spaces LF) with true.
    cbv iota. rewrite IH. reflexivity.
Qed.

Lemma contents_split_lines (q : jsstring) :
  contents (split_lines q) = content q.
Proof.
  rewrite <- (join_split_lines q) at 2.
  now rewrite content_join_lines, lineTexts_Some.
Qed.

Lemma endsWithComma_split (l : jsstring) :
  endsWithComma l = true -> l = dropComma l ++ [COMMA].
Proof.
  intros H. unfold dropComma. rewrite H.
  unfold endsWithComma, endsWith in H.
  apply andb_true_iff in H. destruct H as [H L].
  apply eqs_eq in H. cbn [length] in H, L. apply Nat.leb_le in L.
  destruct (exists_last (l := l)) as (l' & c & E).
  { intros ->. cbn in L. lia. }
  subst l. rewrite removelast_last. f_equal.
  rewrite length_app in H. cbn [length] in H.
  replace (length l' + 1 - 1)%nat with (length l') in H by lia.
  rewrite skipn_app, skipn_all, Nat.sub_diag in H. exact H.
Qed.

Lemma content_padComma (M : Z) (l : jsstring) :
  endsWithComma l = true -> content (padComma M (dropComma l)) = content l.
Proof.
  intros H. rewrite (endsWithComma_split l H) at 2.
  unfold padComma. rewrite !content_app. f_equal.
  rewrite content_white; [reflexivity|].
  induction (Z.to_nat (M - len (dropComma l))) as [|n IH];
    [reflexivity|exact IH].
Qed.

Lemma contents_commaTabular (xs : list jsstring) (y : jsstring) :
  Forall (fun x => endsWithComma x = true) xs ->
  endsWithComma y = false ->
  contents (commaTabular (xs ++ [y])) = contents (xs ++ [y]).
Proof.
  intros Hxs Hy. rewrite commaTabular_tabulate, map_app.
  change (map dropComma [y]) with [dropComma y].
  rewrite (dropComma_none y Hy).
  generalize (maxLength (map dropComma xs ++ [y])). intros M.
  rewrite tabulate_app_last, map_map, !contents_app.
  f_equal. unfold contents. f_equal.
  induction Hxs as [|x xs Hx Hxs IH]; [reflexivity|].
  cbn [map]. now rewrite (content_padComma M x Hx), IH.
Qed.

Lemma splitAlias_split (s : jsstring) :
  forall (afterWord : bool) (before pre al : jsstring) (a : option jsstring),
    splitAlias afterWord before s = Some (pre, a, al) ->
    before ++ s
    = pre ++ SPACE :: match a with Some x => x | None => [] end ++ al.
Proof.
  induction s as [|c s IH]; intros aw before pre al a;
    cbn [splitAlias]; [discriminate|].
  assert (Hnext : splitAlias (negb (is_space c)) (before ++ [c]) s
                  = Some (pre, a, al) ->
                  before ++ c :: s
                  = pre ++ SPACE
                    :: match a with Some x => x | None => [] end ++ al).
  { intros H. apply IH in H. now rewrite <- app_assoc in H. }
  destruct (N.eqb c SPACE && aw) eqn:Ec; [|exact Hnext].
  apply andb_true_iff in Ec. destruct Ec as [Ec _].
  apply N.eqb_eq in Ec. subst c.
  destruct (startsWith_by fold_i s (lit "AS ") && allNonSpace (skipn 3 s)).
  - intros H.
    assert (E : pre = before /\ a = Some (firstn 3 s) /\ al = skipn 3 s)
      by (repeat split; congruence).
    destruct E as (-> & -> & ->). now rewrite (firstn_skipn 3 s).
  - destruct (allNonSpace s); [|exact Hnext].
    now intros [= <- <- <-].
Qed.

Lemma content_aliasLine (M : Z) (l out : jsstring) :
  aliasLine M (slugsOf l) = Ret out -> content out = content l.
Proof.
  unfold aliasLine, slugsOf.
  destruct (splitAlias false [] l) as [[[pre a] al]|] eqn:E;
    cbn [alias precedingText as_].
  - apply splitAlias_split in E. cbn [app] in E.
    destruct (_ <? 0); [discriminate|]. intros [= <-].
    rewrite E, !content_app, content_cons.
    change (is_spaces SPACE) with true. cbv iota.
    rewrite content_app. f_equal.
    rewrite content_white; [reflexivity|].
    induction (Z.to_nat (M - len pre + 1)) as [|n IH];
      [reflexivity|exact IH].
  - now intros [= <-].
Qed.

Lemma contents_aliasRun (run out : list jsstring) :
  aliasRun run = Ret out -> contents out = contents run.
Proof.
  unfold aliasRun. cbv zeta.
  generalize (maxLength
                (map (fun s => dropCommaAndSpaces (precedingText s))
                   (map slugsOf run))).
  intros M. generalize 0%nat. revert out.
  induction run as [|l run IH]; intros out j; cbn [map mapi_from].
  - now intros [= <-].
  - destruct (aliasLine M (slugsOf l)) as [o|] eqn:E; cbn [bind];
      [|discriminate].
    destruct (mapi_from _ (S j) (map slugsOf run)) as [os|] eqn:E';
      cbn [bind]; [|discriminate].
    intros [= <-]. unfold contents in *. cbn [map concat].
    now rewrite (content_aliasLine M l o E), (IH os (S j) E').
Qed.

(** The scan of a run whose lines the pass keeps up to white space. *)
Lemma contents_scanRun
    (process : list jsstring -> outcome (list jsstring))
    (continue : list jsstring -> outcome (list (option jsstring)))
    (cur : jsstring) (rest : list jsstring)
    (out : list (option jsstring)) :
  (forall xs y o,
      Forall (fun x => endsWithComma x = true) xs ->
      endsWithComma y = false ->
      process (xs ++ [y]) = Ret o -> contents o = contents (xs ++ [y])) ->
  (forall l o, (length l < length (cur :: rest))%nat ->
               continue l = Ret o -> contents (lineTexts o) = contents l) ->
  scanRun process continue cur [cur] rest = Ret out ->
  contents (lineTexts out) = contents (cur :: rest).
Proof.
  intros Hp Hk. rewrite scanRun_collect.
  destruct (collect cur rest) as [[more after]|] eqn:E; [|discriminate].
  pose proof (collect_split _ _ E) as S. subst rest.
  destruct (collect_shape _ _ E) as (xs & y & Hshape & Hxs & Hy).
  change ([cur] ++ more) with (cur :: more). rewrite Hshape.
  destruct (process (xs ++ [y])) as [run'|] eqn:E'; cbn [bind];
    [|discriminate].
  pose proof (Hp xs y run' Hxs Hy E') as Hrun'.
  change (cur :: more ++ after) with ((cur :: more) ++ after).
  rewrite Hshape.
  destruct after as [|next rest'].
  - intros [= <-].
    rewrite lineTexts_app, lineTexts_Some, (contents_app run'), Hrun'.
    rewrite (contents_app (xs ++ [y]) []). reflexivity.
  - destruct (continue rest') as [nq|] eqn:E''; cbn [bind]; [|discriminate].
    intros [= <-].
    rewrite lineTexts_app, lineTexts_Some, (contents_app run'), Hrun'.
    rewrite (contents_app (xs ++ [y]) (next :: rest')).
    f_equal. cbn [lineTexts map]. unfold contents.
    cbn [map concat]. f_equal.
    apply (Hk rest' nq); [|exact E''].
    cbn [length]. rewrite length_app. cbn [length]. list_lia.
Qed.

Lemma contents_commaRun (cfg : FormatOptions) (xs : list jsstring)
    (y : jsstring) (o : list jsstring) :
  commaPosition cfg <> comma_before ->
  Forall (fun x => endsWithComma x = true) xs ->
  endsWithComma y = false ->
  commaRun cfg (xs ++ [y]) = Ret o -> contents o = contents (xs ++ [y]).
Proof.
  intros Hm Hxs Hy. unfold commaRun.
  destruct (commaPosition cfg); [now destruct Hm| |]; intros [= <-];
    [reflexivity|now apply contents_commaTabular].
Qed.

Lemma contents_commaLoop (cfg : FormatOptions) :
  commaPosition cfg <> comma_before ->
  forall (n : nat) (lines : list jsstring) (out : list (option jsstring)),
    (length lines <= n)%nat ->
    commaLoop cfg lines = Ret out -> contents (lineTexts out) = contents lines.
Proof.
  intros Hm. induction n as [|n IH]; intros lines out Hn.
  - destruct lines; [|cbn [length] in Hn; lia]. now intros [= <-].
  - destruct lines as [|line rest]; [now intros [= <-]|].
    cbn [length] in Hn. cbn [commaLoop].
    destruct (endsWithComma line).
    + apply contents_scanRun.
      * intros xs y o. now apply contents_commaRun.
      * intros l o Hl. apply IH. cbn [length] in Hl. list_lia.
    + destruct (commaLoop cfg rest) as [nq|] eqn:E; cbn [bind];
        [|discriminate].
      intros [= <-]. cbn [lineTexts map]. unfold contents.
      cbn [map concat]. f_equal.
      apply (IH rest nq); [list_lia|exact E].
Qed.

Lemma contents_aliasLoop :
  forall (n : nat) (lines : list jsstring) (out : list (option jsstring)),
    (length lines <= n)%nat ->
    aliasLoop lines = Ret out -> contents (lineTexts out) = contents lines.
Proof.
  induction n as [|n IH]; intros lines out Hn.
  - destruct lines; [|cbn [length] in Hn; lia]. now intros [= <-].
  - destruct lines as [|line rest]; [now intros [= <-]|].
    cbn [length] in Hn. cbn [aliasLoop].
    assert (Copy : forall o,
               (newQuery <- aliasLoop rest ;; Ret (Some line :: newQuery))
               = Ret o ->
               contents (lineTexts o) = contents (line :: rest)).
    { intros o. destruct (aliasLoop rest) as [nq|] eqn:E; cbn [bind];
        [|discriminate].
      intros [= <-]. cbn [lineTexts map]. unfold contents.
      cbn [map concat]. f_equal.
      apply (IH rest nq); [list_lia|exact E]. }
    assert (Scan : forall cur rest' o,
               (length rest' <= n)%nat ->
               scanRun aliasRun aliasLoop cur [cur] rest' = Ret o ->
               contents (lineTexts o) = contents (cur :: rest')).
    { intros cur rest' o Hl. apply contents_scanRun.
      - intros xs y o' _ _. apply contents_aliasRun.
      - intros l o' Hl'. apply IH. cbn [length] in Hl'. list_lia. }
    destruct (startsSelect line); [|apply Copy].
    destruct (endsWithComma line); [apply Scan; list_lia|].
    destruct (selectWithBody line); [apply Copy|].
    destruct rest as [|next rest']; [discriminate|].
    destruct (scanRun aliasRun aliasLoop next [next] rest') as [nq|] eqn:E;
      cbn [bind]; [|discriminate].
    intros [= <-]. cbn [lineTexts map]. unfold contents.
    cbn [map concat]. f_equal.
    apply (Scan next rest' nq); [cbn [length] in Hn; list_lia|exact E].
Qed.

Lemma content_formatAliasPositions (q r : jsstring) :
  formatAliasPositions q = Ret r -> content r = content q.
Proof.
  unfold formatAliasPositions.
  destruct (aliasLoop (split_lines q)) as [out|] eqn:E; cbn [bind];
    [|discriminate].
  intros [= <-].
  rewrite content_join_lines, <- contents_split_lines.
  exact (contents_aliasLoop (length (split_lines q)) (split_lines q) out
           (Nat.le_refl _) E).
Qed.

Lemma content_formatCommaPositions (cfg : FormatOptions) (q r : jsstring) :
  commaPosition cfg <> comma_before ->
  formatCommaPositions cfg q = Ret r -> content r = content q.
Proof.
  intros Hm. unfold formatCommaPositions.
  destruct (commaLoop cfg (split_lines q)) as [out|] eqn:E; cbn [bind];
    [|discriminate].
  intros [= <-].
  rewrite content_join_lines, <- contents_split_lines.
  exact (contents_commaLoop cfg Hm (length (split_lines q)) (split_lines q)
           out (Nat.le_refl _) E).
Qed.



(* ------------------------------------------------------------------ *)
(** ** What format returns *)



(* ------------------------------------------------------------------ *)
(** ** addNewline *)

Lemma endsWith_unit_app (s : jsstring) (c : char16) :
  endsWith (s ++ [c]) [c] = true.
Proof.
  unfold endsWith. rewrite length_app. cbn [length].
  replace (length s + 1 - 1)%nat with (length s) by lia.
  rewrite skipn_app, skipn_all, Nat.sub_diag. cbn [skipn app eqs].
  rewrite N.eqb_refl. cbn [andb]. apply Nat.leb_le. lia.
Qed.

Lemma endsWith_unit_split (s : jsstring) (c : char16) :
  endsWith s [c] = true -> exists x, s = x ++ [c].
Proof.
  unfold endsWith. intros H. apply andb_true_iff in H. destruct H as [H L].
  apply eqs_eq in H. cbn [length] in H, L. apply Nat.leb_le in L.
  exists (firstn (length s - 1) s). rewrite <- H.
  symmetry. apply firstn_skipn.
Qed.

(** The text that [addNewline] puts the indentation after: it ends in a
    line break. *)
Lemma addNewline_line
    {I B P : Type} {io : IndentationOps I} (f : Formatter I B P)
    (q : jsstring) :
  exists x, addNewline f q = (x ++ [LF]) ++ getIndent (indentation f)
            /\ (endsWith (trimSpacesEnd q) [LF] = true ->
                x ++ [LF] = trimSpacesEnd q)
            /\ (endsWith (trimSpacesEnd q) [LF] = false ->
                x = trimSpacesEnd q).
Proof.
  unfold addNewline. cbv zeta.
  destruct (endsWith (trimSpacesEnd q) [LF]) eqn:E.
  - destruct (endsWith_unit_split _ _ E) as [x Hx].
    exists x. rewrite Hx. repeat split. discriminate.
  - exists (trimSpacesEnd q). repeat split. discriminate.
Qed.

(** X19: [addNewline] returns a text that ends in a line break and the
    current indentation, and, when this indentation is made of spaces and
    tabs, a second call changes nothing: a line break is added only when
    the text, without the spaces and tabs at its end, does not end in one,
    so that calls in a row leave no empty line. *)
Theorem addNewline_settles
    {I B P : Type} {io : IndentationOps I} (f : Formatter I B P)
    (q : jsstring) :
  (exists x, addNewline f q = x ++ LF :: getIndent (indentation f))
  /\ (forallb is_blank (getIndent (indentation f)) = true ->
      addNewline f (addNewline f q) = addNewline f q).
Proof.
  destruct (addNewline_line f q) as (x & Hx & _).
  split.
  - exists x. now rewrite Hx, <- app_assoc.
  - intros Hb. rewrite Hx. unfold addNewline at 1. cbv zeta.
    assert (Ht : trimSpacesEnd ((x ++ [LF]) ++ getIndent (indentation f))
                 = x ++ [LF]).
    { unfold trimSpacesEnd. rewrite dropWhileEnd_app, Hb.
      rewrite dropWhileEnd_app. reflexivity. }
    now rewrite Ht, endsWith_unit_app.
Qed.

Lemma addNewline_settles_witness :
  forallb is_blank
    (getIndent
       (indentation
          (on_indentation increaseTopLevel (formatterOn exampleOptions []))))
  = true
  /\ addNewline
       (on_indentation increaseTopLevel (formatterOn exampleOptions []))
       (addNewline
          (on_indentation increaseTopLevel (formatterOn exampleOptions []))
          (lit "SELECT "))
     = addNewline
         (on_indentation increaseTopLevel (formatterOn exampleOptions []))
         (lit "SELECT ").
Proof.
  split; [reflexivity|].
  exact (proj2 (addNewline_settles
                  (on_indentation increaseTopLevel
                     (formatterOn exampleOptions []))
                  (lit "SELECT ")) eq_refl).
Defined.

(* ------------------------------------------------------------------ *)
(** ** The newline decision and the options *)

(** X20: a smaller line width, or a smaller number of items allowed on a
    line, never takes a line break away: when [checkNewline] decides to
    break the line for a width and a threshold, it does so for every
    smaller width and threshold, at the same index of the same tokens. *)
Theorem checkNewline_is_monotone
    (tokens : list Token) (nl : Newline) (ws : bool) (lw lw' : Z)
    (index : nat) :
  lw' <= lw ->
  (checkNewline tokens nl ws lw index = Ret true ->
   checkNewline tokens nl ws lw' index = Ret true)
  /\ (forall n n' : Z,
        n' <= n ->
        checkNewline tokens (newline_number n) ws lw index = Ret true ->
        checkNewline tokens (newline_number n') ws lw' index = Ret true).
Proof.
  intros Hlw. unfold checkNewline. cbv zeta.
  assert (Hw : forall w, (lw <? w) = true -> (lw' <? w) = true).
  { intros w H. apply Z.ltb_lt in H. apply Z.ltb_lt. lia. }
  split.
  - destruct (_ || _); [trivial|].
    destruct nl; trivial;
      destruct (nth_error tokens index) as [t|]; trivial.
    + intros [= H]. now rewrite (Hw _ H).
    + intros [= H]. apply orb_true_iff in H. destruct H as [H|H].
      * now rewrite H.
      * now rewrite (Hw _ H), orb_true_r.
  - intros n n' Hn. cbn [orb].
    destruct (ws && _); [trivial|].
    destruct (nth_error tokens index) as [t|]; trivial.
    intros [= H]. apply orb_true_iff in H. destruct H as [H|H].
    + apply Z.ltb_lt in H.
      rewrite (proj2 (Z.ltb_lt n' (numItems (nextTokens tokens index))))
        by lia.
      reflexivity.
    + now rewrite (Hw _ H), orb_true_r.
Qed.

Lemma checkNewline_is_monotone_witness :
  10 <= 11
  /\ checkNewline (tokenizeWords exampleKeywords wideQuery)
       newline_lineWidth false 10 2
     = Ret true.
Proof.
  assert (H : 10 <= 11) by (vm_compute; discriminate).
  split; [exact H|].
  apply (proj1 (checkNewline_is_monotone
                  (tokenizeWords exampleKeywords wideQuery)
                  newline_lineWidth false 11 10 2 H)).
  vm_compute. reflexivity.
Defined.

(* ------------------------------------------------------------------ *)
(** ** The indent unit of the editor extension *)

Lemma repeat_space_blank (n : nat) :
  forallb is_blank (repeat_str [SPACE] n) = true.
Proof. induction n as [|n IH]; [reflexivity|exact IH]. Qed.

Lemma repeat_space_no_tab (n : nat) :
  includes (repeat_str [SPACE] n) [TAB] = false.
Proof. induction n as [|n IH]; [reflexivity|exact IH]. Qed.

Lemma repeat_space_snoc (n : nat) :
  repeat_str [SPACE] (S n) = repeat_str [SPACE] n ++ [SPACE].
Proof.
  induction n as [|n IH]; [reflexivity|].
  cbn [repeat_str app] in *. f_equal. exact IH.
Qed.

Lemma repeat_space_two (n : nat) :
  endsWith (repeat_str [SPACE] (S (S n))) [SPACE; SPACE] = true.
Proof.
  rewrite repeat_space_snoc, repeat_space_snoc, <- app_assoc.
  cbn [app]. unfold endsWith. rewrite length_app. cbn [length].
  replace (length (repeat_str [SPACE] n) + 2 - 2)%nat
    with (length (repeat_str [SPACE] n)) by lia.
  rewrite skipn_app, skipn_all, Nat.sub_diag. cbn [skipn app eqs].
  rewrite N.eqb_refl. cbn [andb]. apply Nat.leb_le. lia.
Qed.

(** X21: the indent unit that the editor extension gives to [format] is
    made of spaces and tabs only; with [insertSpaces] it is [tabSize]
    spaces, has no tab, and ends in two spaces exactly when [tabSize] is
    2 or more (so with a tab size of 0 or 1 the comma pass in the mode
    [before] writes no comma); without [insertSpaces] it is one tab. It
    raises a RangeError exactly for [insertSpaces] with a negative
    [tabSize]. *)
Theorem extension_indent (insertSpaces : bool) (tabSize : Z) :
  (forall s : jsstring,
      Extension.indentOf insertSpaces tabSize = Ret s ->
      forallb is_blank s = true
      /\ includes s [TAB] = negb insertSpaces
      /\ endsWith s [SPACE; SPACE] = insertSpaces && (2 <=? tabSize)
      /\ (if insertSpaces then len s = tabSize else s = [TAB]))
  /\ (forall e : JsError,
        Extension.indentOf insertSpaces tabSize = Throw e
        <-> e = RangeError /\ insertSpaces = true /\ tabSize < 0).
Proof.
  unfold Extension.indentOf. split.
  - intros s. destruct insertSpaces.
    + destruct (Z.ltb_spec tabSize 0) as [L|L]; [discriminate|].
      intros [= <-]. split; [apply repeat_space_blank|].
      split; [apply repeat_space_no_tab|]. split.
      * cbn [andb]. destruct (Z.leb_spec 2 tabSize) as [L2|L2].
        -- destruct (Z.to_nat tabSize) as [|[|n]] eqn:E; try lia.
           apply repeat_space_two.
        -- destruct (Z.to_nat tabSize) as [|[|n]] eqn:E; try lia;
             reflexivity.
      * rewrite len_repeat_unit. lia.
    + intros [= <-]. repeat split.
  - intros e. destruct insertSpaces.
    + destruct (Z.ltb_spec tabSize 0) as [L|L]; split.
      * intros [= <-]. auto.
      * now intros (-> & _ & _).
      * discriminate.
      * intros (_ & _ & H). lia.
    + split; [discriminate|]. intros (_ & H & _). discriminate H.
Qed.

Lemma extension_indent_witness :
  Extension.indentOf true 1 = Ret (lit " ")
  /\ forallb is_blank (lit " ") = true
  /\ includes (lit " ") [TAB] = negb true
  /\ endsWith (lit " ") [SPACE; SPACE] = true && (2 <=? 1).
Proof.
  assert (H : Extension.indentOf true 1 = Ret (lit " ")) by reflexivity.
  split; [exact H|].
  destruct (proj1 (extension_indent true 1) (lit " ") H) as (H1 & H2 & H3 & _).
  repeat split; assumption.
Defined.
